(** * Finxan avatar teaching client: the synchronization core

    A shallow embedding of the client-side services of the repository
    (gesture router, motion mapping, motion manager, eye controller,
    realtime speech engine, synchronization coordinator, session manager)
    and the properties proved about them.

    Conventions of the embedding.
    - JavaScript strings are modelled as [string], a sequence of 8-bit code
      units; case folding and white space are those of that range.
    - An object with mutable fields is a record; a method is a function
      from the record to the updated record, together with the list of calls
      it makes on its collaborators.
    - An [async] method is cut at its [await]s: one function per piece that
      runs without suspension, the continuation being selected by an explicit
      program point stored in the state.
    - [setTimeout]/[clearTimeout] act on an explicit table of live timers
      kept next to the object: the handle stored in a field and the timer
      that will really fire are two different things.
    - A computation on JavaScript numbers that can leave the whole numbers
      is done on [float], the binary64 numbers of the kernel. *)

From Stdlib Require Import QArith Qround Ascii String.
From Stdlib Require PrimFloat.
From stdpp Require Import gmap strings list pretty.

Local Open Scope string_scope.
Local Open Scope nat_scope.
Local Open Scope list_scope.

(** ** types/index.ts *)

Inductive MotionName :=
  | haru_g_idle
  | haru_g_m01 | haru_g_m02 | haru_g_m03 | haru_g_m04 | haru_g_m05
  | haru_g_m06 | haru_g_m07 | haru_g_m08 | haru_g_m09 | haru_g_m10
  | haru_g_m11 | haru_g_m12 | haru_g_m13 | haru_g_m14 | haru_g_m15
  | haru_g_m16 | haru_g_m17 | haru_g_m18 | haru_g_m19 | haru_g_m20
  | haru_g_m21 | haru_g_m22 | haru_g_m23 | haru_g_m24 | haru_g_m25
  | haru_g_m26.

Inductive GestureType :=
  | idle | listening | greeting | pointLeft | pointRight | emphasis | warning.

(** [HaruState] shares the literals ['idle'] and ['listening'] with
    [GestureType]; its constructors carry a prefix to keep them apart. *)
Inductive HaruState :=
  | st_idle | st_listening | st_speaking | st_gesturing.

(** The [type] field of a [TeachingSegment]: ['text' | 'image' | 'emphasis']. *)
Inductive SegmentType :=
  | seg_text | seg_image | seg_emphasis.

#[global] Instance MotionName_eq_dec : EqDecision MotionName.
Proof. solve_decision. Defined.
#[global] Instance GestureType_eq_dec : EqDecision GestureType.
Proof. solve_decision. Defined.
#[global] Instance HaruState_eq_dec : EqDecision HaruState.
Proof. solve_decision. Defined.
#[global] Instance SegmentType_eq_dec : EqDecision SegmentType.
Proof. solve_decision. Defined.
#[global] Instance MotionName_inhabited : Inhabited MotionName :=
  populate haru_g_idle.

Definition GestureType_to_nat (g : GestureType) : nat :=
  match g with
  | idle => 0 | listening => 1 | greeting => 2 | pointLeft => 3
  | pointRight => 4 | emphasis => 5 | warning => 6
  end.

Definition GestureType_of_nat (n : nat) : option GestureType :=
  match n with
  | 0 => Some idle | 1 => Some listening | 2 => Some greeting
  | 3 => Some pointLeft | 4 => Some pointRight | 5 => Some emphasis
  | 6 => Some warning | _ => None
  end.

#[global] Instance GestureType_countable : Countable GestureType.
Proof.
  apply (inj_countable GestureType_to_nat GestureType_of_nat).
  intros []; reflexivity.
Defined.

Record TeachingSegment := mkSegment {
  type : SegmentType;
  content : string;
  gesture : option GestureType;
  imageQuery : option string;
  duration : option Q;
}.

Record MotionConfig := mkMotionConfig {
  name : MotionName;
  cfg_gesture : GestureType;
  priority : Z;
  cfg_duration : Q;  (* in seconds *)
  description : string;
}.

(** ** config/motionMapping.ts *)

Module MotionMapping.

Definition MOTION_MAPPING (g : GestureType) : list MotionName :=
  match g with
  | idle => [haru_g_idle]
  | listening => [haru_g_idle]
  | greeting => [haru_g_m01; haru_g_m02; haru_g_m03; haru_g_m04; haru_g_m05]
  | pointLeft => [haru_g_m06; haru_g_m07; haru_g_m08; haru_g_m09; haru_g_m13;
                  haru_g_m14; haru_g_m15; haru_g_m22]
  | pointRight => [haru_g_m16; haru_g_m17; haru_g_m18; haru_g_m19; haru_g_m23]
  | emphasis => [haru_g_m10; haru_g_m11; haru_g_m12; haru_g_m24]
  | warning => [haru_g_m20; haru_g_m21]
  end.

Definition MOTION_CONFIGS : list MotionConfig := [
  mkMotionConfig haru_g_idle idle 0 10 "Neutral idle pose";
  mkMotionConfig haru_g_m01 greeting 5 2.9 "Head nod greeting";
  mkMotionConfig haru_g_m02 greeting 5 3 "Wave greeting";
  mkMotionConfig haru_g_m03 greeting 5 3 "Bow greeting";
  mkMotionConfig haru_g_m04 greeting 5 3 "Friendly wave";
  mkMotionConfig haru_g_m05 greeting 5 3 "Welcome gesture";
  mkMotionConfig haru_g_m06 pointLeft 3 4 "Point left casual";
  mkMotionConfig haru_g_m07 pointLeft 3 4 "Point left formal";
  mkMotionConfig haru_g_m08 pointLeft 3 4 "Gesture left explain";
  mkMotionConfig haru_g_m09 pointLeft 3 4 "Indicate left";
  mkMotionConfig haru_g_m10 emphasis 4 5.5 "Excited emphasis";
  mkMotionConfig haru_g_m11 emphasis 4 4 "Important point";
  mkMotionConfig haru_g_m12 emphasis 4 4 "Key concept";
  mkMotionConfig haru_g_m13 pointLeft 3 4 "Teaching gesture left";
  mkMotionConfig haru_g_m14 pointLeft 3 4 "Explain left detail";
  mkMotionConfig haru_g_m15 pointLeft 3 4 "Reference left";
  mkMotionConfig haru_g_m16 pointRight 3 4 "Point right casual";
  mkMotionConfig haru_g_m17 pointRight 3 4 "Point right formal";
  mkMotionConfig haru_g_m18 pointRight 3 4 "Gesture right explain";
  mkMotionConfig haru_g_m19 pointRight 3 4 "Indicate right";
  mkMotionConfig haru_g_m20 warning 4 6 "Concerned expression";
  mkMotionConfig haru_g_m21 warning 4 4 "Caution gesture";
  mkMotionConfig haru_g_m22 pointLeft 3 4 "Additional left gesture";
  mkMotionConfig haru_g_m23 pointRight 3 4 "Additional right gesture";
  mkMotionConfig haru_g_m24 emphasis 4 4 "Additional emphasis";
  mkMotionConfig haru_g_m25 greeting 5 3 "Additional greeting";
  mkMotionConfig haru_g_m26 idle 1 4 "Relaxed idle"
].

(** [index % motions.length]; the read [motions[motionIndex]] is JavaScript's
    array read, which yields [undefined] out of range: the total lookup
    [!!!] stands for it, and [motionIndex_in_range] shows that the index is
    always in range. *)
Definition motionIndex (motions : list MotionName) (index : nat) : nat :=
  index mod length motions.

Definition getMotionForGesture (gesture : GestureType) (index : nat) : MotionName :=
  let motions := MOTION_MAPPING gesture in
  if bool_decide (length motions = 0) then haru_g_idle
  else motions !!! motionIndex motions index.

Definition getMotionConfig (motionName : MotionName) : option MotionConfig :=
  List.find (fun config => bool_decide (name config = motionName)) MOTION_CONFIGS.

(** Milliseconds. *)
Definition getMotionDuration (motionName : MotionName) : Q :=
  match getMotionConfig motionName with
  | Some config => cfg_duration config * 1000
  | None => 3000
  end.

End MotionMapping.

(** ** JavaScript string primitives used by the services

    A string is a sequence of 8-bit code units (U+0000..U+00FF). *)

Module JsString.

Definition code (c : ascii) : nat := nat_of_ascii c.

(** White space of [String.prototype.trim] and of the regular-expression
    class [\s], restricted to the 8-bit range: TAB, LF, VT, FF, CR, SPACE
    and NBSP. *)
Definition isWhitespace (c : ascii) : bool :=
  let n := code c in
  ((9 <=? n) && (n <=? 13)) || (n =? 32) || (n =? 160).

(** The terminators of the class [[.!?]]. *)
Definition isTerminator (c : ascii) : bool :=
  let n := code c in
  (n =? 46) || (n =? 33) || (n =? 63).

Definition lowerChar (c : ascii) : ascii :=
  let n := code c in
  if ((65 <=? n) && (n <=? 90))
     || ((192 <=? n) && (n <=? 222) && negb (n =? 215))
  then ascii_of_nat (n + 32) else c.

Fixpoint toLowerCase (s : string) : string :=
  match s with
  | EmptyString => EmptyString
  | String c s' => String (lowerChar c) (toLowerCase s')
  end.

Fixpoint trimStart (s : string) : string :=
  match s with
  | EmptyString => EmptyString
  | String c s' => if isWhitespace c then trimStart s' else s
  end.

Fixpoint trimEnd (s : string) : string :=
  match s with
  | EmptyString => EmptyString
  | String c s' =>
      match trimEnd s' with
      | EmptyString => if isWhitespace c then EmptyString else String c EmptyString
      | t => String c t
      end
  end.

Definition trim (s : string) : string := trimEnd (trimStart s).

Definition isEmpty (s : string) : bool :=
  match s with EmptyString => true | _ => false end.

(** [s.includes(keyword)] *)
Fixpoint includes (s keyword : string) : bool :=
  String.prefix keyword s ||
  match s with
  | EmptyString => false
  | String _ s' => includes s' keyword
  end.

(** [keywords.some(keyword => s.includes(keyword))] *)
Definition someIncludes (keywords : list string) (s : string) : bool :=
  existsb (fun keyword => includes s keyword) keywords.

(** [s.substring(0, n)] *)
Definition substring0 (n : nat) (s : string) : string := String.substring 0 n s.

(** Prefix test that ignores case, for the literals of a pattern under the
    [i] flag; the literals used here are lower-case ASCII. *)
Fixpoint prefix_ci (lit s : string) : option string :=
  match lit, s with
  | EmptyString, _ => Some s
  | String a lit', String c s' =>
      if bool_decide (lowerChar c = a) then prefix_ci lit' s' else None
  | String _ _, EmptyString => None
  end.

(** The longest prefix of characters satisfying [p], and what follows it. *)
Fixpoint span (p : ascii -> bool) (s : string) : string * string :=
  match s with
  | EmptyString => (EmptyString, EmptyString)
  | String c s' =>
      if p c then let '(a, b) := span p s' in (String c a, b)
      else (EmptyString, s)
  end.

(** All the ways to drop [k >= 1] leading characters satisfying [p], the
    longest first: the order in which a greedy [p+] is tried and then
    backtracked. *)
Fixpoint greedyPlus (p : ascii -> bool) (s : string) : list string :=
  match s with
  | EmptyString => []
  | String c s' => if p c then greedyPlus p s' ++ [s'] else []
  end.

(** The first alternative that succeeds. *)
Fixpoint firstSome {A B} (f : A -> option B) (l : list A) : option B :=
  match l with
  | [] => None
  | x :: l' => match f x with Some y => Some y | None => firstSome f l' end
  end.

End JsString.

(** ** services/GestureRouter.ts *)

Module GestureRouter.
Import JsString.

(** [text.match(/[^.!?]+[.!?]+/g)].

    A match starts at the first character that is not a terminator, takes
    the longest run of such characters and then the longest run of
    terminators; terminators met before a match has started are skipped, and
    a run that reaches the end of the text without a terminator is no match
    (a shorter run would be followed by a non-terminator, so backtracking
    cannot help, and neither can a later start inside the same run). The
    scanner below reads the text once: [cur] is the part of the current match
    read so far and [inTerminators] tells whether its terminators have
    begun. *)
Fixpoint scanSentences (cur : string) (inTerminators : bool) (s : string)
  : list string :=
  match s with
  | EmptyString => if inTerminators then [cur] else []
  | String c s' =>
      if isTerminator c then
        if isEmpty cur then scanSentences cur false s'
        else scanSentences (cur +:+ String c EmptyString) true s'
      else
        if inTerminators then cur :: scanSentences (String c EmptyString) false s'
        else scanSentences (cur +:+ String c EmptyString) false s'
  end.

(** [null] when nothing matches. *)
Definition matchSentences (text : string) : option (list string) :=
  match scanSentences EmptyString false text with
  | [] => None
  | l => Some l
  end.

Definition emphasisKeywords : list string :=
  ["important"; "crucial"; "key point"; "remember"; "note that";
   "pay attention"; "critical"; "essential"; "fundamental"].

Definition warningKeywords : list string :=
  ["warning"; "caution"; "careful"; "avoid"; "don't"; "mistake"; "error";
   "wrong"; "incorrect"; "beware"].

Definition imageKeywords : list string :=
  ["look at"; "see the"; "observe"; "notice"; "image"; "picture"; "diagram";
   "chart"; "graph"; "illustration"; "example here"; "shown here"].

Definition isEmphasis (text : string) : bool :=
  let lowerText := toLowerCase text in
  someIncludes emphasisKeywords lowerText.

Definition isWarning (text : string) : bool :=
  let lowerText := toLowerCase text in
  someIncludes warningKeywords lowerText.

Definition hasImageReference (text : string) : bool :=
  let lowerText := toLowerCase text in
  someIncludes imageKeywords lowerText.

(** [text.match(/(?:look at|see|observe|notice)\s+(?:the\s+)?([^.!?]+)/i)],
    written as the backtracking search the pattern denotes: the leftmost
    start, the alternatives in order, each [\s+] from its longest to its
    shortest, the optional group first with and then without its content.
    The result is the text of group 1. *)
Definition captureGroup (s : string) : option string :=
  let '(captured, _) := span (fun c => negb (isTerminator c)) s in
  if isEmpty captured then None else Some captured.

Definition optionalThe (s : string) : option string :=
  let withThe :=
    match prefix_ci "the" s with
    | Some r => firstSome captureGroup (greedyPlus isWhitespace r)
    | None => None
    end in
  match withThe with
  | Some captured => Some captured
  | None => captureGroup s
  end.

Definition matchAt (s : string) : option string :=
  firstSome
    (fun alternative =>
       match prefix_ci alternative s with
       | Some r => firstSome optionalThe (greedyPlus isWhitespace r)
       | None => None
       end)
    ["look at"; "see"; "observe"; "notice"].

Fixpoint searchImagePattern (s : string) : option string :=
  match matchAt s with
  | Some captured => Some captured
  | None =>
      match s with
      | EmptyString => None
      | String _ s' => searchImagePattern s'
      end
  end.

Definition extractImageQuery (text : string) : string :=
  match searchImagePattern text with
  | Some group1 => trim group1
  | None => substring0 50 text
  end.

(** The body of the [for (const sentence of sentences)] loop: [segments]
    after the iteration for [sentence]. *)
Definition parseSentence (segments : list TeachingSegment) (sentence : string)
  : list TeachingSegment :=
  let trimmed := trim sentence in
  if isEmpty trimmed then segments
  else if isEmphasis trimmed then
    segments ++ [mkSegment seg_emphasis trimmed (Some emphasis) None None]
  else if isWarning trimmed then
    segments ++ [mkSegment seg_text trimmed (Some warning) None None]
  else if hasImageReference trimmed then
    let imageQuery := extractImageQuery trimmed in
    segments ++ [mkSegment seg_image trimmed (Some pointRight) (Some imageQuery) None]
  else
    segments ++ [mkSegment seg_text trimmed (Some pointLeft) None None].

Definition parseTeachingContent (text : string) : list TeachingSegment :=
  let sentences :=
    match matchSentences text with
    | Some l => l
    | None => [text]
    end in
  fold_left parseSentence sentences [].

(** [segment.gesture === current.gesture && segment.type === current.type] *)
Definition sameIntent (segment current : TeachingSegment) : bool :=
  bool_decide (gesture segment = gesture current)
  && bool_decide (type segment = type current).

(** [current.content += ' ' + segment.content] *)
Definition mergeInto (current segment : TeachingSegment) : TeachingSegment :=
  mkSegment (type current)
            (content current +:+ " " +:+ content segment)
            (gesture current) (imageQuery current) (duration current).

(** The [for (let i = 1; ...)] loop of [optimizeSegments] over the segments
    from index 1 on, with its two variables [optimized] and [current], and
    the final [optimized.push(current)]. *)
Fixpoint optimizeLoop (optimized : list TeachingSegment) (current : TeachingSegment)
  (rest : list TeachingSegment) : list TeachingSegment :=
  match rest with
  | [] => optimized ++ [current]
  | segment :: rest' =>
      if sameIntent segment current
      then optimizeLoop optimized (mergeInto current segment) rest'
      else optimizeLoop (optimized ++ [current]) segment rest'
  end.

Definition optimizeSegments (segments : list TeachingSegment) : list TeachingSegment :=
  match segments with
  | [] => segments
  | first :: rest => optimizeLoop [] first rest
  end.

(** [planGestureSequence]: the loop pushes the gesture of every segment
    that has one. *)
Definition planGestureSequence (segments : list TeachingSegment)
  : list GestureType :=
  fold_left
    (fun gestures segment =>
       match gesture segment with
       | Some g => gestures ++ [g]
       | None => gestures
       end)
    segments [].

End GestureRouter.

(** ** Timers of the JavaScript runtime

    [setTimeout] registers a one-shot timer and returns its handle;
    [clearTimeout] removes the timer with that handle, if it is still there.
    Handles are positive, so that the source's truthiness tests on a stored
    handle ([if (this.silenceTimer)]) read as tests for [Some]. Time is
    counted in milliseconds; [K] is the type of the callbacks. *)

Module Timers.
Section Table.
Context {K : Type}.

Record timer := mkTimer { handle : nat; due : nat; callback : K }.

Record table := mkTable { now : nat; nextHandle : nat; pending : list timer }.

Definition empty : table := mkTable 0 1 [].

Definition setTimeout (cb : K) (delay : nat) (t : table) : nat * table :=
  (nextHandle t,
   mkTable (now t) (S (nextHandle t))
           (pending t ++ [mkTimer (nextHandle t) (now t + delay) cb])).

Definition clearTimeout (h : nat) (t : table) : table :=
  mkTable (now t) (nextHandle t)
          (filter (fun x => handle x ≠ h) (pending t)).

Definition isPending (h : nat) (t : table) : bool :=
  existsb (fun x => handle x =? h) (pending t).

(** Insertion of a timer into a list ordered by expiry time, before the
    timers that expire at the same time or later. *)
Fixpoint insertByDue (x : timer) (l : list timer) : list timer :=
  match l with
  | [] => [x]
  | y :: l' => if due x <=? due y then x :: l else y :: insertByDue x l'
  end.

(** The timers that have expired, in the order in which they fire: by
    expiry time, and in the order of their creation when they expire at
    the same time. [pending] lists the timers in the order of their
    creation and the ordered list is built from its last timer to its
    first, so that among the timers of one expiry time the older ones come
    first. *)
Definition expired (t : table) : list timer :=
  foldr insertByDue [] (filter (fun x => due x ≤ now t) (pending t)).

(** One millisecond passes. *)
Definition advanceClock (t : table) : table :=
  mkTable (S (now t)) (nextHandle t) (pending t).

(** [k] milliseconds pass and no timer fires. *)
Definition elapse (k : nat) (t : table) : table :=
  mkTable (now t + k) (nextHandle t) (pending t).
End Table.
Arguments timer : clear implicits.
Arguments table : clear implicits.
End Timers.

(** ** services/EyeController.ts *)

Module EyeController.

(** What the controller needs from the Live2D model: whether
    [coreModel && coreModel.setParameterValueById] holds and the call
    returns normally. Otherwise the guarded block (or its [catch]) leaves
    the controller unchanged. *)
Record Live2DModel := mkModel { acceptsParameters : bool }.

Inductive Direction := left | right | center.

#[global] Instance Direction_eq_dec : EqDecision Direction.
Proof. solve_decision. Defined.

(** The only timer callback of the controller is [() => this.lookCenter()]. *)
Inductive Callback := CallLookCenter.

Record EyeController := mkEye {
  model : option Live2DModel;
  currentDirection : Direction;
  returnToCenterTimeout : option nat;
  (* the runtime's timers *)
  timers : Timers.table Callback;
  (* the values written to 'ParamAngleX', oldest first *)
  angleWrites : list Z;
}.

Definition initial : EyeController :=
  mkEye None center None Timers.empty [].

Definition usable (e : EyeController) : bool :=
  match model e with
  | Some m => acceptsParameters m
  | None => false
  end.

Definition setModel (m : Live2DModel) (e : EyeController) : EyeController :=
  mkEye (Some m) (currentDirection e) (returnToCenterTimeout e) (timers e)
        (angleWrites e).

Definition scheduleReturnToCenter (duration : nat) (e : EyeController)
  : EyeController :=
  let cleared :=
    match returnToCenterTimeout e with
    | Some h => Timers.clearTimeout h (timers e)
    | None => timers e
    end in
  let '(h, scheduled) := Timers.setTimeout CallLookCenter duration cleared in
  mkEye (model e) (currentDirection e) (Some h) scheduled (angleWrites e).

Definition lookLeft (duration : nat) (e : EyeController) : EyeController :=
  if usable e then
    scheduleReturnToCenter duration
      (mkEye (model e) left (returnToCenterTimeout e) (timers e)
             (angleWrites e ++ [(-15)%Z]))
  else e.

Definition lookRight (duration : nat) (e : EyeController) : EyeController :=
  if usable e then
    scheduleReturnToCenter duration
      (mkEye (model e) right (returnToCenterTimeout e) (timers e)
             (angleWrites e ++ [15%Z]))
  else e.

Definition lookCenter (e : EyeController) : EyeController :=
  if usable e then
    match returnToCenterTimeout e with
    | Some h =>
        mkEye (model e) center None (Timers.clearTimeout h (timers e))
              (angleWrites e ++ [0%Z])
    | None =>
        mkEye (model e) center None (timers e) (angleWrites e ++ [0%Z])
    end
  else e.

Definition destroy (e : EyeController) : EyeController :=
  match returnToCenterTimeout e with
  | Some h =>
      mkEye None (currentDirection e) None (Timers.clearTimeout h (timers e))
            (angleWrites e)
  | None => mkEye None (currentDirection e) None (timers e) (angleWrites e)
  end.

(** The runtime fires the expired timers one after the other; a timer
    cleared by an earlier callback of the same round does not fire. *)
Definition runCallback (cb : Callback) (e : EyeController) : EyeController :=
  match cb with
  | CallLookCenter => lookCenter e
  end.

Definition withTimers (t : Timers.table Callback) (e : EyeController)
  : EyeController :=
  mkEye (model e) (currentDirection e) (returnToCenterTimeout e) t
        (angleWrites e).

Fixpoint fire (round : list (Timers.timer Callback)) (e : EyeController)
  : EyeController :=
  match round with
  | [] => e
  | x :: round' =>
      if Timers.isPending (Timers.handle x) (timers e)
      then fire round'
             (runCallback (Timers.callback x)
                (withTimers (Timers.clearTimeout (Timers.handle x) (timers e)) e))
      else fire round' e
  end.

(** One millisecond passes. *)
Definition tick (e : EyeController) : EyeController :=
  let e' := withTimers (Timers.advanceClock (timers e)) e in
  fire (Timers.expired (timers e')) e'.

(** [n] milliseconds pass without any call. *)
Fixpoint idleFor (n : nat) (e : EyeController) : EyeController :=
  match n with
  | 0 => e
  | S n' => idleFor n' (tick e)
  end.

(** The calls a client can make, and the passing of time. *)
Inductive Event :=
  | SetModel (m : Live2DModel)
  | LookLeft (duration : nat)
  | LookRight (duration : nat)
  | LookCenter
  | Destroy
  | Tick.

Definition step (e : EyeController) (ev : Event) : EyeController :=
  match ev with
  | SetModel m => setModel m e
  | LookLeft d => lookLeft d e
  | LookRight d => lookRight d e
  | LookCenter => lookCenter e
  | Destroy => destroy e
  | Tick => tick e
  end.

Definition run (events : list Event) (e : EyeController) : EyeController :=
  fold_left step events e.

End EyeController.

(** ** services/RealtimeSpeechService.ts: [WebSpeechEngine] *)

Module WebSpeechEngine.
Import JsString.

Definition SILENCE_THRESHOLD : nat := 1000.

(** The timer callbacks of the engine. *)
Inductive Callback :=
  | SilenceElapsed      (* set by [startSilenceTimer] *)
  | RestartIfActive     (* set by [onerror]: [if (this.isActive) this.restart()] *)
  | StartIfActive       (* set by [onend]: [if (this.isActive) this.recognition.start()] *)
  | StartRecognition.   (* set by [restart]: [this.recognition.start()] *)

#[global] Instance Callback_eq_dec : EqDecision Callback.
Proof. solve_decision. Defined.

(** What the engine does to the outside: calls of the registered callbacks
    and of the recognition session. *)
Inductive Output :=
  | Transcript (text : string) (isFinal : bool)
  | EndOfUtterance (finalText : string)
  | ErrorReported (error : string)
  | RecognitionStart
  | RecognitionStop.

#[global] Instance Output_eq_dec : EqDecision Output.
Proof. solve_decision. Defined.

Record WebSpeechEngine := mkEngine {
  isActive : bool;
  (* whether a callback has been registered *)
  transcriptCallback : bool;
  endCallback : bool;
  errorCallback : bool;
  accumulatedText : string;
  silenceTimer : option nat;
  timers : Timers.table Callback;
  outputs : list Output;  (* oldest first *)
}.

Definition initial : WebSpeechEngine :=
  mkEngine false false false false "" None Timers.empty [].

Definition withActive (b : bool) (e : WebSpeechEngine) :=
  mkEngine b (transcriptCallback e) (endCallback e) (errorCallback e)
           (accumulatedText e) (silenceTimer e) (timers e) (outputs e).
Definition withAccumulated (s : string) (e : WebSpeechEngine) :=
  mkEngine (isActive e) (transcriptCallback e) (endCallback e) (errorCallback e)
           s (silenceTimer e) (timers e) (outputs e).
Definition withSilenceTimer (h : option nat) (e : WebSpeechEngine) :=
  mkEngine (isActive e) (transcriptCallback e) (endCallback e) (errorCallback e)
           (accumulatedText e) h (timers e) (outputs e).
Definition withTimers (t : Timers.table Callback) (e : WebSpeechEngine) :=
  mkEngine (isActive e) (transcriptCallback e) (endCallback e) (errorCallback e)
           (accumulatedText e) (silenceTimer e) t (outputs e).
Definition emit (o : Output) (e : WebSpeechEngine) :=
  mkEngine (isActive e) (transcriptCallback e) (endCallback e) (errorCallback e)
           (accumulatedText e) (silenceTimer e) (timers e) (outputs e ++ [o]).

Definition onTranscript (e : WebSpeechEngine) :=
  mkEngine (isActive e) true (endCallback e) (errorCallback e)
           (accumulatedText e) (silenceTimer e) (timers e) (outputs e).
Definition onEnd (e : WebSpeechEngine) :=
  mkEngine (isActive e) (transcriptCallback e) true (errorCallback e)
           (accumulatedText e) (silenceTimer e) (timers e) (outputs e).
Definition onError (e : WebSpeechEngine) :=
  mkEngine (isActive e) (transcriptCallback e) (endCallback e) true
           (accumulatedText e) (silenceTimer e) (timers e) (outputs e).

Definition setTimeout (cb : Callback) (delay : nat) (e : WebSpeechEngine)
  : nat * WebSpeechEngine :=
  let '(h, t) := Timers.setTimeout cb delay (timers e) in (h, withTimers t e).

Definition clearSilenceTimer (e : WebSpeechEngine) : WebSpeechEngine :=
  match silenceTimer e with
  | Some h => withSilenceTimer None (withTimers (Timers.clearTimeout h (timers e)) e)
  | None => e
  end.

Definition startSilenceTimer (e : WebSpeechEngine) : WebSpeechEngine :=
  let e := clearSilenceTimer e in
  let '(h, e) := setTimeout SilenceElapsed SILENCE_THRESHOLD e in
  withSilenceTimer (Some h) e.

(** The callback given to [setTimeout] in [startSilenceTimer]. *)
Definition silenceElapsed (e : WebSpeechEngine) : WebSpeechEngine :=
  if negb (isEmpty (trim (accumulatedText e))) then
    let finalText := trim (accumulatedText e) in
    let e := withAccumulated "" e in
    if endCallback e then emit (EndOfUtterance finalText) e else e
  else e.

(** One result of a recognition event: [results[i][0].transcript] and
    [results[i].isFinal]. *)
Definition Result : Type := string * bool.

(** The [for] loop of [onresult] over [results[resultIndex..]], on the
    triple of [interimTranscript], [finalTranscript] and
    [this.accumulatedText]. *)
Definition collect (acc : string * string * string) (r : Result)
  : string * string * string :=
  let '(interimTranscript, finalTranscript, accumulated) := acc in
  let '(transcript, isFinal) := r in
  if isFinal
  then (interimTranscript,
        finalTranscript +:+ transcript +:+ " ",
        accumulated +:+ transcript +:+ " ")
  else (interimTranscript +:+ transcript, finalTranscript, accumulated).

Definition onresult (resultIndex : nat) (results : list Result)
  (e : WebSpeechEngine) : WebSpeechEngine :=
  let e := clearSilenceTimer e in
  let '(interimTranscript, finalTranscript, accumulated) :=
    fold_left collect (drop resultIndex results) ("", "", accumulatedText e) in
  let e := withAccumulated accumulated e in
  let e :=
    if negb (isEmpty interimTranscript) && transcriptCallback e
    then emit (Transcript (accumulatedText e +:+ interimTranscript) false) e
    else e in
  let e :=
    if negb (isEmpty finalTranscript) && transcriptCallback e
    then emit (Transcript (trim (accumulatedText e)) true) e
    else e in
  startSilenceTimer e.

Definition onspeechstart (e : WebSpeechEngine) : WebSpeechEngine :=
  clearSilenceTimer e.

Definition onspeechend (e : WebSpeechEngine) : WebSpeechEngine :=
  startSilenceTimer e.

Definition onerror (error : string) (e : WebSpeechEngine) : WebSpeechEngine :=
  if bool_decide (error = "no-speech") then e
  else
    let e := if errorCallback e then emit (ErrorReported error) e else e in
    if bool_decide (error = "network") || bool_decide (error = "audio-capture")
    then snd (setTimeout RestartIfActive 1000 e)
    else e.

Definition onend (e : WebSpeechEngine) : WebSpeechEngine :=
  if isActive e then snd (setTimeout StartIfActive 100 e) else e.

Definition restart (e : WebSpeechEngine) : WebSpeechEngine :=
  let e := emit RecognitionStop e in
  snd (setTimeout StartRecognition 100 e).

(** [start()]; [throws] tells whether [this.recognition.start()] raises. *)
Definition start (throws : bool) (e : WebSpeechEngine) : WebSpeechEngine :=
  let e := withAccumulated "" (withActive true e) in
  if throws then withActive false e else emit RecognitionStart e.

Definition stop (e : WebSpeechEngine) : WebSpeechEngine :=
  let e := withActive false e in
  let e := clearSilenceTimer e in
  emit RecognitionStop e.

Definition runCallback (cb : Callback) (e : WebSpeechEngine) : WebSpeechEngine :=
  match cb with
  | SilenceElapsed => silenceElapsed e
  | RestartIfActive => if isActive e then restart e else e
  | StartIfActive => if isActive e then emit RecognitionStart e else e
  | StartRecognition => emit RecognitionStart e
  end.

Fixpoint fire (round : list (Timers.timer Callback)) (e : WebSpeechEngine)
  : WebSpeechEngine :=
  match round with
  | [] => e
  | x :: round' =>
      if Timers.isPending (Timers.handle x) (timers e)
      then fire round'
             (runCallback (Timers.callback x)
                (withTimers (Timers.clearTimeout (Timers.handle x) (timers e)) e))
      else fire round' e
  end.

(** One millisecond passes. *)
Definition tick (e : WebSpeechEngine) : WebSpeechEngine :=
  let e' := withTimers (Timers.advanceClock (timers e)) e in
  fire (Timers.expired (timers e')) e'.

(** [n] milliseconds pass without any event. *)
Fixpoint silence (n : nat) (e : WebSpeechEngine) : WebSpeechEngine :=
  match n with
  | 0 => e
  | S n' => silence n' (tick e)
  end.

(** A recognition event that arrives [gap] milliseconds after the
    previous one. *)
Record Arrival := mkArrival {
  gap : nat;
  resultIndex : nat;
  results : list Result;
}.

Definition hear (e : WebSpeechEngine) (a : Arrival) : WebSpeechEngine :=
  onresult (resultIndex a) (results a) (silence (gap a) e).

Definition hearAll (arrivals : list Arrival) (e : WebSpeechEngine) : WebSpeechEngine :=
  fold_left hear arrivals e.

(** The buffer after the results [results[resultIndex..]]. *)
Definition accumulate (resultIndex : nat) (results : list Result) (buffer : string)
  : string :=
  (fold_left collect (drop resultIndex results) ("", "", buffer)).2.

(** The buffer after a sequence of recognition events. *)
Definition accumulateAll (arrivals : list Arrival) (buffer : string) : string :=
  fold_left (fun b a => accumulate (resultIndex a) (results a) b) arrivals buffer.

(** The end-of-utterance callbacks fired so far, oldest first. *)
Definition utterances (e : WebSpeechEngine) : list string :=
  omap (fun o => match o with EndOfUtterance t => Some t | _ => None end)
       (outputs e).

(** The errors forwarded to the error callback so far. *)
Definition reportedErrors (e : WebSpeechEngine) : list string :=
  omap (fun o => match o with ErrorReported t => Some t | _ => None end)
       (outputs e).

(** The calls of the clients ([start], [stop], the registration of the
    three callbacks), the events of the recognition session, and the
    passing of time. *)
Inductive Event :=
  | Start (throws : bool)
  | Stop
  | OnTranscript
  | OnEnd
  | OnError
  | Heard (resultIndex : nat) (results : list Result)
  | SpeechStart
  | SpeechEnd
  | Failed (error : string)
  | Ended
  | Tick.

Definition step (e : WebSpeechEngine) (ev : Event) : WebSpeechEngine :=
  match ev with
  | Start throws => start throws e
  | Stop => stop e
  | OnTranscript => onTranscript e
  | OnEnd => onEnd e
  | OnError => onError e
  | Heard resultIndex results => onresult resultIndex results e
  | SpeechStart => onspeechstart e
  | SpeechEnd => onspeechend e
  | Failed error => onerror error e
  | Ended => onend e
  | Tick => tick e
  end.

Definition run (events : list Event) (e : WebSpeechEngine) : WebSpeechEngine :=
  fold_left step events e.

(** The calls made on the recognition session so far. *)
Definition sessionCalls (e : WebSpeechEngine) : list Output :=
  filter (fun o => o = RecognitionStart ∨ o = RecognitionStop) (outputs e).

End WebSpeechEngine.

(** ** services/MotionManager.ts *)

Module MotionManager.
Import MotionMapping.

(** The Live2D model is driven, never queried: all that matters is whether
    it is attached. A call [model.motion(...)] returns a promise that the
    rendering engine settles later. *)
Inductive Live2DModel := live2DModel.

(** The only timer callback:
    [if (this.currentMotion !== 'haru_g_idle') this.returnToIdle()]. *)
Inductive Callback := ReturnToIdleIfMoved.

(** An activation of an [async] method suspended at its [await].
    - [owner]: [requestGesture] awaits [playMotion] and has work left after
      it ([isTransitioning = false; processQueue()]); [returnToIdle] and
      [setModel] have none.
    - [awaited]: the promise of [model.motion], or nothing but the
      resumption itself when [playMotion] returned at once because no model
      is attached. *)
Inductive Owner := ByRequestGesture | ByOther.
Inductive Awaited := MotionPromise | Resumption.

Record Activation := mkActivation {
  aid : nat;
  owner : Owner;
  motionName : MotionName;
  loop : bool;
  awaited : Awaited;
}.

#[global] Instance Owner_eq_dec : EqDecision Owner.
Proof. solve_decision. Defined.

Record MotionManager := mkManager {
  model : option Live2DModel;
  currentMotion : MotionName;
  currentState : HaruState;
  isTransitioning : bool;
  motionQueue : list GestureType;
  returnToIdleTimeout : option nat;
  gestureCounter : gmap GestureType nat;
  (* the runtime: timers and suspended activations *)
  timers : Timers.table Callback;
  suspended : list Activation;
  nextAid : nat;
  (* the calls [model.motion(name, undefined, loop ? 3 : 0)], oldest first *)
  motionCalls : list (MotionName * bool);
  (* the gestures whose transition has begun (the source logs them), oldest first *)
  gestureLog : list GestureType;
}.

Definition initial : MotionManager :=
  mkManager None haru_g_idle st_idle false [] None ∅ Timers.empty [] 0 [] [].

Definition withModel (x : option Live2DModel) (m : MotionManager) :=
  mkManager x (currentMotion m) (currentState m) (isTransitioning m)
    (motionQueue m) (returnToIdleTimeout m) (gestureCounter m) (timers m)
    (suspended m) (nextAid m) (motionCalls m) (gestureLog m).
Definition withCurrentMotion (x : MotionName) (m : MotionManager) :=
  mkManager (model m) x (currentState m) (isTransitioning m)
    (motionQueue m) (returnToIdleTimeout m) (gestureCounter m) (timers m)
    (suspended m) (nextAid m) (motionCalls m) (gestureLog m).
Definition withCurrentState (x : HaruState) (m : MotionManager) :=
  mkManager (model m) (currentMotion m) x (isTransitioning m)
    (motionQueue m) (returnToIdleTimeout m) (gestureCounter m) (timers m)
    (suspended m) (nextAid m) (motionCalls m) (gestureLog m).
Definition withTransitioning (x : bool) (m : MotionManager) :=
  mkManager (model m) (currentMotion m) (currentState m) x
    (motionQueue m) (returnToIdleTimeout m) (gestureCounter m) (timers m)
    (suspended m) (nextAid m) (motionCalls m) (gestureLog m).
Definition withQueue (x : list GestureType) (m : MotionManager) :=
  mkManager (model m) (currentMotion m) (currentState m) (isTransitioning m)
    x (returnToIdleTimeout m) (gestureCounter m) (timers m)
    (suspended m) (nextAid m) (motionCalls m) (gestureLog m).
Definition withTimeout (x : option nat) (m : MotionManager) :=
  mkManager (model m) (currentMotion m) (currentState m) (isTransitioning m)
    (motionQueue m) x (gestureCounter m) (timers m)
    (suspended m) (nextAid m) (motionCalls m) (gestureLog m).
Definition withCounter (x : gmap GestureType nat) (m : MotionManager) :=
  mkManager (model m) (currentMotion m) (currentState m) (isTransitioning m)
    (motionQueue m) (returnToIdleTimeout m) x (timers m)
    (suspended m) (nextAid m) (motionCalls m) (gestureLog m).
Definition withTimers (x : Timers.table Callback) (m : MotionManager) :=
  mkManager (model m) (currentMotion m) (currentState m) (isTransitioning m)
    (motionQueue m) (returnToIdleTimeout m) (gestureCounter m) x
    (suspended m) (nextAid m) (motionCalls m) (gestureLog m).
Definition withSuspended (x : list Activation) (m : MotionManager) :=
  mkManager (model m) (currentMotion m) (currentState m) (isTransitioning m)
    (motionQueue m) (returnToIdleTimeout m) (gestureCounter m) (timers m)
    x (nextAid m) (motionCalls m) (gestureLog m).

(** Suspend the running activation at its [await]. *)
Definition suspend (o : Owner) (name : MotionName) (lp : bool) (w : Awaited)
  (m : MotionManager) : MotionManager :=
  mkManager (model m) (currentMotion m) (currentState m) (isTransitioning m)
    (motionQueue m) (returnToIdleTimeout m) (gestureCounter m) (timers m)
    (suspended m ++ [mkActivation (nextAid m) o name lp w]) (S (nextAid m))
    (motionCalls m) (gestureLog m).

Definition callMotion (name : MotionName) (lp : bool) (m : MotionManager) :=
  mkManager (model m) (currentMotion m) (currentState m) (isTransitioning m)
    (motionQueue m) (returnToIdleTimeout m) (gestureCounter m) (timers m)
    (suspended m) (nextAid m) (motionCalls m ++ [(name, lp)]) (gestureLog m).

Definition logGesture (g : GestureType) (m : MotionManager) :=
  mkManager (model m) (currentMotion m) (currentState m) (isTransitioning m)
    (motionQueue m) (returnToIdleTimeout m) (gestureCounter m) (timers m)
    (suspended m) (nextAid m) (motionCalls m) (gestureLog m ++ [g]).

(** [playMotion] up to its [await this.model.motion(...)]. Without a model
    it returns at once: a caller with work left is resumed later, the
    others are finished. *)
Definition playMotion (name : MotionName) (lp : bool) (o : Owner)
  (m : MotionManager) : MotionManager :=
  match model m with
  | None =>
      match o with
      | ByRequestGesture => suspend o name lp Resumption m
      | ByOther => m
      end
  | Some _ => suspend o name lp MotionPromise (callMotion name lp m)
  end.

Definition scheduleReturnToIdle (duration : nat) (m : MotionManager)
  : MotionManager :=
  let cleared :=
    match returnToIdleTimeout m with
    | Some h => Timers.clearTimeout h (timers m)
    | None => timers m
    end in
  let '(h, scheduled) := Timers.setTimeout ReturnToIdleIfMoved duration cleared in
  withTimeout (Some h) (withTimers scheduled m).

(** [playMotion] after its [await], when the promise was fulfilled. A
    timer delay is a whole number of milliseconds. *)
Definition motionStarted (name : MotionName) (lp : bool) (m : MotionManager)
  : MotionManager :=
  let m := withCurrentMotion name m in
  if negb lp && negb (bool_decide (name = haru_g_idle))
  then scheduleReturnToIdle (Z.to_nat (Qfloor (getMotionDuration name))) m
  else m.

Definition isLooped (g : GestureType) : bool :=
  bool_decide (g = idle) || bool_decide (g = listening).

(** [requestGesture] up to its [await this.playMotion(...)]. *)
Definition requestGesture (g : GestureType) (m : MotionManager) : MotionManager :=
  if isTransitioning m then withQueue (motionQueue m ++ [g]) m
  else
    let m := withTransitioning true m in
    let m :=
      match returnToIdleTimeout m with
      | Some h => withTimeout None (withTimers (Timers.clearTimeout h (timers m)) m)
      | None => m
      end in
    let counter := default 0 (gestureCounter m !! g) in
    let motion := getMotionForGesture g counter in
    let m := withCounter (<[g := counter + 1]> (gestureCounter m)) m in
    let m := logGesture g m in
    let m :=
      match g with
      | idle => withCurrentState st_idle m
      | listening => withCurrentState st_listening m
      | _ => withCurrentState st_gesturing m
      end in
    playMotion motion (isLooped g) ByRequestGesture m.

Definition processQueue (m : MotionManager) : MotionManager :=
  match motionQueue m with
  | [] => m
  | nextGesture :: rest =>
      if isTransitioning m then m
      else requestGesture nextGesture (withQueue rest m)
  end.

Definition returnToIdle (m : MotionManager) : MotionManager :=
  if isTransitioning m then m
  else playMotion haru_g_idle true ByOther (withCurrentState st_idle m).

Definition setModel (x : Live2DModel) (m : MotionManager) : MotionManager :=
  playMotion haru_g_idle true ByOther (withModel (Some x) m).

Definition setListening (b : bool) (m : MotionManager) : MotionManager :=
  if b then requestGesture listening m
  else if bool_decide (currentState m = st_listening) then returnToIdle m
  else m.

Definition setSpeaking (speaking : bool) (m : MotionManager) : MotionManager :=
  let m := withCurrentState (if speaking then st_speaking else st_idle) m in
  if negb speaking && negb (bool_decide (currentMotion m = haru_g_idle))
  then returnToIdle m else m.

Definition stop (m : MotionManager) : MotionManager :=
  let m := withQueue [] m in
  let m :=
    match returnToIdleTimeout m with
    | Some h => withTimeout None (withTimers (Timers.clearTimeout h (timers m)) m)
    | None => m
    end in
  let m := withTransitioning false m in
  returnToIdle m.

Definition destroy (m : MotionManager) : MotionManager :=
  withModel None (stop m).

(** The promise awaited by activation [a] is settled ([fulfilled] or
    rejected) and the activation runs to its end. *)
Definition resume (a : Activation) (fulfilled : bool) (m : MotionManager)
  : MotionManager :=
  let m :=
    match awaited a with
    | MotionPromise => if fulfilled then motionStarted (motionName a) (loop a) m else m
    | Resumption => m
    end in
  match owner a with
  | ByRequestGesture => processQueue (withTransitioning false m)
  | ByOther => m
  end.

Definition settle (id : nat) (fulfilled : bool) (m : MotionManager)
  : MotionManager :=
  match List.find (fun a => aid a =? id) (suspended m) with
  | Some a =>
      resume a fulfilled
        (withSuspended (filter (fun b => aid b ≠ id) (suspended m)) m)
  | None => m
  end.

Definition runCallback (cb : Callback) (m : MotionManager) : MotionManager :=
  match cb with
  | ReturnToIdleIfMoved =>
      if bool_decide (currentMotion m = haru_g_idle) then m else returnToIdle m
  end.

Fixpoint fire (round : list (Timers.timer Callback)) (m : MotionManager)
  : MotionManager :=
  match round with
  | [] => m
  | x :: round' =>
      if Timers.isPending (Timers.handle x) (timers m)
      then fire round'
             (runCallback (Timers.callback x)
                (withTimers (Timers.clearTimeout (Timers.handle x) (timers m)) m))
      else fire round' m
  end.

(** One millisecond passes. *)
Definition tick (m : MotionManager) : MotionManager :=
  let m' := withTimers (Timers.advanceClock (timers m)) m in
  fire (Timers.expired (timers m')) m'.

(** The calls of the clients, the settling of awaited promises, and the
    passing of time. *)
Inductive Event :=
  | SetModel (x : Live2DModel)
  | RequestGesture (g : GestureType)
  | ReturnToIdle
  | SetListening (b : bool)
  | SetSpeaking (b : bool)
  | Stop
  | Destroy
  | Settle (id : nat) (fulfilled : bool)
  | Tick.

Definition step (m : MotionManager) (ev : Event) : MotionManager :=
  match ev with
  | SetModel x => setModel x m
  | RequestGesture g => requestGesture g m
  | ReturnToIdle => returnToIdle m
  | SetListening b => setListening b m
  | SetSpeaking b => setSpeaking b m
  | Stop => stop m
  | Destroy => destroy m
  | Settle id fulfilled => settle id fulfilled m
  | Tick => tick m
  end.

Definition run (events : list Event) (m : MotionManager) : MotionManager :=
  fold_left step events m.



(** [n] milliseconds pass without any call or settled promise. *)
Fixpoint idleFor (n : nat) (m : MotionManager) : MotionManager :=
  match n with
  | 0 => m
  | S n' => idleFor n' (tick m)
  end.

End MotionManager.

(** ** services/SynchronizationCoordinator.ts *)

Module SynchronizationCoordinator.
Import JsString.
Import PrimFloat.

Record SynchronizationEvent := mkEvent {
  segments : list TeachingSegment;
  fullText : string;
  images : list string;
}.

(** The calls the coordinator makes on its collaborators: the store
    ([useAppStore]), [eyeController], [speechController], [motionManager]
    and its own [delay]. *)
Inductive Call :=
  | SetLeftPanelContent (text : string)
  | SetRightPanelImages (urls : list string)
  | SetSpeaking (b : bool)
  | SetIsTeaching (b : bool)
  | LookLeft (duration : nat)
  | LookRight (duration : nat)
  | LookCenter
  | TextToSpeech (text : string)
  | PlayAudio (audioUrl : string)
  | StopAudio
  | RequestGesture (g : GestureType)
  | Delay (waitTime : PrimFloat.float)
  | MotionReturnToIdle
  | MotionStop.

(** The part of the store the coordinator writes. *)
Record Store := mkStore {
  leftPanelContent : string;
  rightPanelImages : list string;
  isSpeaking : bool;
  isTeaching : bool;
}.

(** [executeGestureSequence] suspended inside the iteration for the first
    segment of [remaining], which is segment number [index]. *)
Inductive GesturePoint :=
  | AtRequestGesture   (* [await motionManager.requestGesture(...)] *)
  | AtDelay.           (* [await this.delay(waitTime)] *)

Record GestureTask := mkGestureTask {
  remaining : list TeachingSegment;
  index : nat;
  gpoint : GesturePoint;
}.

(** The [await] at which an activation of [executeTeachingSequence] is
    suspended. While the audio plays, the gesture sequence runs beside it:
    [Some task] when it is suspended, [None] when it has finished. *)
Inductive Point :=
  | AtTextToSpeech
  | AtRetry
  | AtPlayAudio (gestures : option GestureTask)
  | AtGesturePromise (task : GestureTask)
  | AtReturnToIdle
  | AtReturnToIdleInCatch.

Record Activation := mkActivation {
  aid : nat;
  event : SynchronizationEvent;
  point : Point;
}.

Record Coordinator := mkCoordinator {
  isExecuting : bool;
  eventQueue : list SynchronizationEvent;
  currentSegmentIndex : nat;
  store : Store;
  (* the runtime: suspended activations, and gesture sequences that outlive
     the activation that started them *)
  suspended : list Activation;
  orphans : list GestureTask;
  nextAid : nat;
  calls : list Call;  (* oldest first *)
  (* the requests whose sequence has started (the source logs each start),
     oldest first *)
  started : list SynchronizationEvent;
}.

Definition initialStore : Store := mkStore "" [] false false.

Definition initial : Coordinator :=
  mkCoordinator false [] 0 initialStore [] [] 0 [] [].

Definition ERROR_MESSAGE : string :=
  "Sorry, I encountered an error with speech generation. Please try again.".

Definition withExecuting (x : bool) (c : Coordinator) :=
  mkCoordinator x (eventQueue c) (currentSegmentIndex c) (store c)
    (suspended c) (orphans c) (nextAid c) (calls c) (started c).
Definition withQueue (x : list SynchronizationEvent) (c : Coordinator) :=
  mkCoordinator (isExecuting c) x (currentSegmentIndex c) (store c)
    (suspended c) (orphans c) (nextAid c) (calls c) (started c).
Definition withSegmentIndex (x : nat) (c : Coordinator) :=
  mkCoordinator (isExecuting c) (eventQueue c) x (store c)
    (suspended c) (orphans c) (nextAid c) (calls c) (started c).
Definition withStore (x : Store) (c : Coordinator) :=
  mkCoordinator (isExecuting c) (eventQueue c) (currentSegmentIndex c) x
    (suspended c) (orphans c) (nextAid c) (calls c) (started c).
Definition withSuspended (x : list Activation) (c : Coordinator) :=
  mkCoordinator (isExecuting c) (eventQueue c) (currentSegmentIndex c) (store c)
    x (orphans c) (nextAid c) (calls c) (started c).
Definition withOrphans (x : list GestureTask) (c : Coordinator) :=
  mkCoordinator (isExecuting c) (eventQueue c) (currentSegmentIndex c) (store c)
    (suspended c) x (nextAid c) (calls c) (started c).

Definition call (k : Call) (c : Coordinator) :=
  mkCoordinator (isExecuting c) (eventQueue c) (currentSegmentIndex c) (store c)
    (suspended c) (orphans c) (nextAid c) (calls c ++ [k]) (started c).

(** The setters of the store. *)
Definition setLeftPanelContent (text : string) (c : Coordinator) :=
  let s := store c in
  call (SetLeftPanelContent text)
    (withStore (mkStore text (rightPanelImages s) (isSpeaking s) (isTeaching s)) c).
Definition setRightPanelImages (urls : list string) (c : Coordinator) :=
  let s := store c in
  call (SetRightPanelImages urls)
    (withStore (mkStore (leftPanelContent s) urls (isSpeaking s) (isTeaching s)) c).
Definition setSpeaking (b : bool) (c : Coordinator) :=
  let s := store c in
  call (SetSpeaking b)
    (withStore (mkStore (leftPanelContent s) (rightPanelImages s) b (isTeaching s)) c).
Definition setIsTeaching (b : bool) (c : Coordinator) :=
  let s := store c in
  call (SetIsTeaching b)
    (withStore (mkStore (leftPanelContent s) (rightPanelImages s) (isSpeaking s) b) c).

(** Suspend the running activation, number [id], at [p]. *)
Definition suspend (id : nat) (ev : SynchronizationEvent) (p : Point)
  (c : Coordinator) :=
  mkCoordinator (isExecuting c) (eventQueue c) (currentSegmentIndex c) (store c)
    (suspended c ++ [mkActivation id ev p]) (orphans c)
    (nextAid c) (calls c) (started c).

(** A call of [executeTeachingSequence] that goes past its guard is a new
    activation; the source logs its start. *)
Definition begin (ev : SynchronizationEvent) (c : Coordinator) :=
  mkCoordinator (isExecuting c) (eventQueue c) (currentSegmentIndex c) (store c)
    (suspended c) (orphans c) (S (nextAid c)) (calls c) (started c ++ [ev]).

(** [segment.content.split(/\s+/).length]: one more than the number of
    runs of white space. *)
Fixpoint whitespaceRuns (inRun : bool) (s : string) : nat :=
  match s with
  | EmptyString => 0
  | String ch s' =>
      if isWhitespace ch
      then (if inRun then 0 else 1) + whitespaceRuns true s'
      else whitespaceRuns false s'
  end.

Definition wordCount (s : string) : nat := S (whitespaceRuns false s).

(** A whole number as a JavaScript number, that is as a double: the whole
    numbers up to 2^53 are doubles and adding one to a double below 2^53 is
    exact, and a text has far fewer words. *)
Fixpoint numberOf (n : nat) : PrimFloat.float :=
  match n with
  | 0 => 0%float
  | S n' => (numberOf n' + 1)%float
  end.

(** [Math.max(x, y)] on numbers that are not [NaN]. *)
Definition mathMax (x y : PrimFloat.float) : PrimFloat.float :=
  if (x <? y)%float then y else x.

(** [(words / 150) * 60 * 1000] and [Math.max(readingTime, 2000)], in the
    arithmetic of doubles. *)
Definition waitTime (segment : TeachingSegment) : PrimFloat.float :=
  let words := numberOf (wordCount (content segment)) in
  let readingTime := ((words / 150) * 60 * 1000)%float in
  mathMax readingTime 2000%float.

(** [executeGestureSequence] from the top of the iteration for segment
    number [i], up to its next [await] or to its end. *)
Fixpoint gestureLoop (i : nat) (segs : list TeachingSegment) (c : Coordinator)
  : Coordinator * option GestureTask :=
  match segs with
  | [] => (c, None)
  | segment :: rest =>
      let c := withSegmentIndex i c in
      match gesture segment with
      | Some g =>
          (call (RequestGesture g) c,
           Some (mkGestureTask segs i AtRequestGesture))
      | None => gestureLoop (S i) rest c
      end
  end.

(** The promise awaited by a gesture sequence is fulfilled. *)
Definition resumeGestures (task : GestureTask) (c : Coordinator)
  : Coordinator * option GestureTask :=
  match remaining task with
  | [] => (c, None)
  | segment :: rest =>
      match gpoint task with
      | AtRequestGesture =>
          (call (Delay (waitTime segment)) c,
           Some (mkGestureTask (remaining task) (index task) AtDelay))
      | AtDelay => gestureLoop (S (index task)) rest c
      end
  end.

(** [executeTeachingSequence] up to its first [await]. *)
Definition executeTeachingSequence (ev : SynchronizationEvent) (c : Coordinator)
  : Coordinator :=
  if isExecuting c then withQueue (eventQueue c ++ [ev]) c
  else
    let id := nextAid c in
    let c := begin ev c in
    let c := withExecuting true c in
    let c := withSegmentIndex 0 c in
    let c := setLeftPanelContent (fullText ev) c in
    let c :=
      match images ev with
      | [] => c
      | _ => call (LookLeft 4000) (setRightPanelImages (images ev) c)
      end in
    let c := call (TextToSpeech (fullText ev)) c in
    suspend id ev AtTextToSpeech c.

(** The [finally] block. *)
Definition finally (c : Coordinator) : Coordinator :=
  let c := withExecuting false c in
  let c := setIsTeaching false c in
  match eventQueue c with
  | [] => c
  | nextEvent :: rest => executeTeachingSequence nextEvent (withQueue rest c)
  end.

(** The [catch] block up to its [await motionManager.returnToIdle()]. *)
Definition catch (id : nat) (ev : SynchronizationEvent) (c : Coordinator)
  : Coordinator :=
  let c := setSpeaking false c in
  let c := call MotionReturnToIdle c in
  suspend id ev AtReturnToIdleInCatch c.

(** Steps 4 and 5 of the [try] block, once the audio URL is known, up to
    [await speechController.playAudio(audioUrl)]. *)
Definition startPlayback (id : nat) (ev : SynchronizationEvent)
  (audioUrl : string) (c : Coordinator) : Coordinator :=
  let '(c, gestures) := gestureLoop 0 (segments ev) c in
  let c := setSpeaking true c in
  let c := call (LookRight 5000) c in
  let c := call (PlayAudio audioUrl) c in
  suspend id ev (AtPlayAudio gestures) c.

(** Step 6 of the [try] block up to [await motionManager.returnToIdle()]. *)
Definition startReturnToIdle (id : nat) (ev : SynchronizationEvent)
  (c : Coordinator) : Coordinator :=
  suspend id ev AtReturnToIdle (call MotionReturnToIdle c).

(** The promise awaited by activation [a] is settled: fulfilled with
    [Some value] (the audio URL for a synthesis; of no use otherwise) or
    rejected ([None]). A rejection inside the [try] block leads to the
    [catch] block, one inside the [catch] block straight to the [finally]
    block. An activation that waits for its gesture sequence is not
    concerned: the promises of that sequence, those of [requestGesture] and
    of [delay], are only ever fulfilled. *)
Definition resume (a : Activation) (result : option string) (c : Coordinator)
  : option Coordinator :=
  let ev := event a in
  let id := aid a in
  match point a, result with
  | AtTextToSpeech, Some audioUrl => Some (startPlayback id ev audioUrl c)
  | AtTextToSpeech, None =>
      Some (suspend id ev AtRetry (call (TextToSpeech (fullText ev)) c))
  | AtRetry, Some audioUrl => Some (startPlayback id ev audioUrl c)
  | AtRetry, None => Some (catch id ev c)
  | AtPlayAudio gestures, Some _ =>
      let c := setSpeaking false c in
      match gestures with
      | Some task => Some (suspend id ev (AtGesturePromise task) c)
      | None => Some (startReturnToIdle id ev c)
      end
  | AtPlayAudio gestures, None =>
      let c :=
        match gestures with
        | Some task => withOrphans (orphans c ++ [task]) c
        | None => c
        end in
      Some (catch id ev c)
  | AtGesturePromise _, _ => None
  | AtReturnToIdle, Some _ => Some (finally (call LookCenter c))
  | AtReturnToIdle, None => Some (catch id ev c)
  | AtReturnToIdleInCatch, Some _ =>
      let c := call LookCenter c in
      let c := setLeftPanelContent ERROR_MESSAGE c in
      Some (finally c)
  | AtReturnToIdleInCatch, None => Some (finally c)
  end.

Definition without (id : nat) (l : list Activation) : list Activation :=
  filter (fun b => aid b ≠ id) l.

Definition settle (id : nat) (result : option string) (c : Coordinator)
  : Coordinator :=
  match List.find (fun a => aid a =? id) (suspended c) with
  | Some a =>
      match resume a result (withSuspended (without id (suspended c)) c) with
      | Some c' => c'
      | None => c
      end
  | None => c
  end.

(** The promise awaited by the gesture sequence of activation [id] is
    fulfilled. *)
Definition settleGesture (id : nat) (c : Coordinator) : Coordinator :=
  match List.find (fun a => aid a =? id) (suspended c) with
  | Some a =>
      let c0 := withSuspended (without id (suspended c)) c in
      match point a with
      | AtPlayAudio (Some task) =>
          let '(c1, gestures) := resumeGestures task c0 in
          withSuspended
            (suspended c1 ++ [mkActivation id (event a) (AtPlayAudio gestures)]) c1
      | AtGesturePromise task =>
          let '(c1, gestures) := resumeGestures task c0 in
          match gestures with
          | Some task' =>
              withSuspended
                (suspended c1 ++ [mkActivation id (event a) (AtGesturePromise task')]) c1
          | None => startReturnToIdle id (event a) c1
          end
      | _ => c
      end
  | None => c
  end.

(** The promise awaited by the [k]-th orphaned gesture sequence is
    fulfilled. *)
Definition settleOrphan (k : nat) (c : Coordinator) : Coordinator :=
  match orphans c !! k with
  | Some task =>
      let '(c1, gestures) := resumeGestures task (withOrphans (delete k (orphans c)) c) in
      match gestures with
      | Some task' => withOrphans (orphans c1 ++ [task']) c1
      | None => c1
      end
  | None => c
  end.

Definition interrupt (c : Coordinator) : Coordinator :=
  let c := call StopAudio c in
  let c := call MotionStop c in
  let c := call LookCenter c in
  let c := withQueue [] c in
  let c := withExecuting false c in
  let c := setSpeaking false c in
  setIsTeaching false c.

Inductive Event :=
  | ExecuteTeachingSequence (ev : SynchronizationEvent)
  | Interrupt
  | Settle (id : nat) (result : option string)
  | SettleGesture (id : nat)
  | SettleOrphan (k : nat).

Definition step (c : Coordinator) (e : Event) : Coordinator :=
  match e with
  | ExecuteTeachingSequence ev => executeTeachingSequence ev c
  | Interrupt => interrupt c
  | Settle id result => settle id result c
  | SettleGesture id => settleGesture id c
  | SettleOrphan k => settleOrphan k c
  end.

Definition run (events : list Event) (c : Coordinator) : Coordinator :=
  fold_left step events c.

(** The calls made since the state [before]. *)
Definition callsSince (before after : Coordinator) : list Call :=
  drop (length (calls before)) (calls after).

Definition isTextToSpeech (k : Call) : bool :=
  match k with TextToSpeech _ => true | _ => false end.

Definition isPlayback (k : Call) : bool :=
  match k with
  | RequestGesture _ | PlayAudio _ | Delay _ => true
  | _ => false
  end.

End SynchronizationCoordinator.

(** ** services/SessionManager.ts *)

Module SessionManager.

Record Exchange := mkExchange {
  userInput : string;
  aiResponse : string;
  timestamp : nat;
}.

Record SessionContext := mkContext {
  sessionId : string;
  exchanges : list Exchange;
  startTime : nat;
  lastActivityTime : nat;
}.

(** [localStorage] as the manager uses it: the item kept under
    [STORAGE_KEY], and for each of the three operations whether it throws
    when it is called (a full or a disabled storage). [JSON.stringify] and
    [JSON.parse] are inverse of each other on a context, whose fields are
    strings and whole numbers, so the item is kept as the context itself. *)
Record Storage := mkStorage {
  item : option SessionContext;
  setItemThrows : bool;
  getItemThrows : bool;
  removeItemThrows : bool;
}.

Definition emptyStorage : Storage := mkStorage None false false false.

Definition withItem (x : option SessionContext) (s : Storage) : Storage :=
  mkStorage x (setItemThrows s) (getItemThrows s) (removeItemThrows s).

(** The manager and the storage of the page. The clock ([Date.now()]) and
    the generated session identifier are arguments of the methods that
    read them. *)
Record SessionManager := mkSessionManager {
  context : option SessionContext;
  localStorage : Storage;
}.

(** The item in the storage. *)
Definition stored (m : SessionManager) : option SessionContext :=
  item (localStorage m).

Definition MAX_EXCHANGES : nat := 10.

Definition initial : SessionManager := mkSessionManager None emptyStorage.

(** [setItem] in a [try] block whose [catch] only logs. *)
Definition saveToStorage (m : SessionManager) : SessionManager :=
  match context m with
  | Some ctx =>
      if setItemThrows (localStorage m) then m
      else mkSessionManager (context m) (withItem (Some ctx) (localStorage m))
  | None => m
  end.

(** [getItem] and [JSON.parse] in a [try] block whose [catch] only logs;
    [null] when there is no item or when the storage throws. *)
Definition loadFromStorage (m : SessionManager) : option SessionContext :=
  if getItemThrows (localStorage m) then None else item (localStorage m).

(** [removeItem] in a [try] block whose [catch] only logs. *)
Definition removeFromStorage (m : SessionManager) : SessionManager :=
  if removeItemThrows (localStorage m) then m
  else mkSessionManager (context m) (withItem None (localStorage m)).

Definition initializeSession (now : nat) (id : string) (m : SessionManager)
  : SessionManager :=
  saveToStorage (mkSessionManager (Some (mkContext id [] now now)) (localStorage m)).

(** [getContext] loads the stored context when none is in memory. *)
Definition getContext (m : SessionManager) : SessionManager :=
  match context m with
  | Some _ => m
  | None => mkSessionManager (loadFromStorage m) (localStorage m)
  end.

(** [l.slice(-n)] and [l.slice(0, -n)] for a positive [n]. *)
Definition sliceLast {A} (n : nat) (l : list A) : list A := drop (length l - n) l.
Definition sliceButLast {A} (n : nat) (l : list A) : list A := take (length l - n) l.

Definition summaryOf (older : nat) : string :=
  "[Earlier conversation summary: " +:+ pretty older
  +:+ " exchanges about various topics]".

Definition summarizeContext (ctx : SessionContext) : SessionContext :=
  let recentExchanges := sliceLast MAX_EXCHANGES (exchanges ctx) in
  let olderExchanges := sliceButLast MAX_EXCHANGES (exchanges ctx) in
  if 0 <? length olderExchanges then
    mkContext (sessionId ctx)
      (mkExchange "[Context Summary]" (summaryOf (length olderExchanges))
                  (startTime ctx)
       :: recentExchanges)
      (startTime ctx) (lastActivityTime ctx)
  else ctx.

Definition addExchange (now : nat) (id : string) (input response : string)
  (m : SessionManager) : SessionManager :=
  let m :=
    match context m with
    | None => initializeSession now id m
    | Some _ => m
    end in
  match context m with
  | Some ctx =>
      let ctx :=
        mkContext (sessionId ctx)
                  (exchanges ctx ++ [mkExchange input response now])
                  (startTime ctx) now in
      let ctx :=
        if MAX_EXCHANGES <? length (exchanges ctx)
        then summarizeContext ctx else ctx in
      saveToStorage (mkSessionManager (Some ctx) (localStorage m))
  | None => m
  end.

Definition clearContext (now : nat) (id : string) (m : SessionManager)
  : SessionManager :=
  initializeSession now id (removeFromStorage (mkSessionManager None (localStorage m))).

(** [getExchangeCount] *)
Definition getExchangeCount (m : SessionManager) : nat :=
  match context m with
  | Some ctx => length (exchanges ctx)
  | None => 0
  end.

(** The exchanges in memory. *)
Definition historyOf (m : SessionManager) : list Exchange :=
  match context m with
  | Some c => exchanges c
  | None => []
  end.

(** The methods that change the manager. *)
Inductive Mutation :=
  | InitializeSession (now : nat) (id : string)
  | AddExchange (now : nat) (id : string) (input response : string)
  | ClearContext (now : nat) (id : string).

Definition apply (m : SessionManager) (op : Mutation) : SessionManager :=
  match op with
  | InitializeSession now id => initializeSession now id m
  | AddExchange now id input response => addExchange now id input response m
  | ClearContext now id => clearContext now id m
  end.

(** One call of [addExchange] for each element, in order. *)
Record Turn := mkTurn {
  at_time : nat;
  fresh_id : string;
  said : string;
  answered : string;
}.

Definition addTurn (m : SessionManager) (t : Turn) : SessionManager :=
  addExchange (at_time t) (fresh_id t) (said t) (answered t) m.

Definition addAll (turns : list Turn) (m : SessionManager) : SessionManager :=
  fold_left addTurn turns m.

Definition exchangeOf (t : Turn) : Exchange :=
  mkExchange (said t) (answered t) (at_time t).

Definition isSummary (x : Exchange) : Prop :=
  userInput x = "[Context Summary]".

(** The line feed of the template and join strings. *)
Definition LF : string := String (ascii_of_nat 10) EmptyString.

(** [`User: ${exchange.userInput}\nHaru: ${exchange.aiResponse}`] *)
Definition formatExchange (exchange : Exchange) : string :=
  "User: " +:+ userInput exchange +:+ LF +:+ "Haru: " +:+ aiResponse exchange.

(** [getConversationHistory] reads the context in memory only. *)
Definition getConversationHistory (m : SessionManager) : string :=
  match context m with
  | None => ""
  | Some ctx =>
      match exchanges ctx with
      | [] => ""
      | _ => String.concat (LF +:+ LF) (formatExchange <$> exchanges ctx)
      end
  end.

(** A manager created by a later load of the page: nothing in memory, and
    the same [localStorage]. *)
Definition reloaded (m : SessionManager) : SessionManager :=
  mkSessionManager None (localStorage m).

End SessionManager.

(** ** services/AIService.ts *)

Module AIService.

(** The part of [query] that turns the text of the response into the
    segments of the [AIResponse]: [parseTeachingContent], then
    [optimizeSegments]. *)
Definition segmentsOf (aiText : string) : list TeachingSegment :=
  let segments := GestureRouter.parseTeachingContent aiText in
  let optimizedSegments := GestureRouter.optimizeSegments segments in
  optimizedSegments.

End AIService.

(** ** utils/greetingDetector.ts *)

Module GreetingDetector.
Import JsString.

(** The alternatives of [greetingPattern]. *)
Definition greetingWords : list string :=
  ["hi"; "hello"; "hey"; "hai"; "hii"; "yo"; "sup"; "greetings"; "howdy"; "hiya"].

(** [greetingPattern.test(s)]: the pattern is anchored at both ends and
    ignores case. *)
Definition greetingPattern_test (s : string) : bool :=
  existsb
    (fun word =>
       match prefix_ci word s with
       | Some EmptyString => true
       | _ => false
       end)
    greetingWords.

Definition isGreeting (text : string) : bool :=
  let trimmed := toLowerCase (trim text) in
  greetingPattern_test trimmed.

Definition greetingPhrases : list string :=
  ["hi there"; "hello there"; "hey there"; "good morning"; "good afternoon";
   "good evening"; "nice to meet you"].

Definition isGreetingPhrase (text : string) : bool :=
  let trimmed := toLowerCase (trim text) in
  existsb (fun phrase => String.prefix phrase trimmed) greetingPhrases.

Definition shouldWave (text : string) : bool :=
  isGreeting text || isGreetingPhrase text.

End GreetingDetector.

(** ** Predicates used in the statements *)

Module Spec.

Import MotionMapping.

(** What it means for a clip to be served by the catalogue: it has an
    entry, found by [getMotionConfig], and [getMotionDuration] returns that
    entry's duration in milliseconds. *)
Definition inCatalog (clip : MotionName) : Prop :=
  ∃ config,
    getMotionConfig clip = Some config
    ∧ config ∈ MOTION_CONFIGS
    ∧ name config = clip
    ∧ getMotionDuration clip = (cfg_duration config * 1000)%Q.

Import GestureRouter.

(** No two neighbours of the list share both gesture and type. *)
Fixpoint churnFree (l : list TeachingSegment) : Prop :=
  match l with
  | a :: (b :: _) as l' => sameIntent b a = false ∧ churnFree l'
  | _ => True
  end.

Import JsString.

(** The sentences of a text: the matches of the pattern, or the whole text
    when there is none. *)
Definition sentencesOf (text : string) : list string :=
  default [text] (matchSentences text).

(** The classification as the specification words it: rules in priority
    order, the first one that applies decides, and a default. *)
Record Rule := mkRule {
  applies : string → bool;
  segmentFor : string → TeachingSegment;
}.

Definition rules : list Rule := [
  mkRule isEmphasis
         (λ s, mkSegment seg_emphasis s (Some emphasis) None None);
  mkRule isWarning
         (λ s, mkSegment seg_text s (Some warning) None None);
  mkRule hasImageReference
         (λ s, mkSegment seg_image s (Some pointRight) (Some (extractImageQuery s)) None)
].

Definition defaultSegment (s : string) : TeachingSegment :=
  mkSegment seg_text s (Some pointLeft) None None.

Definition classify (sentence : string) : TeachingSegment :=
  match List.find (λ r, applies r sentence) rules with
  | Some r => segmentFor r sentence
  | None => defaultSegment sentence
  end.

Definition parseBySpec (text : string) : list TeachingSegment :=
  classify <$> filter (λ s, s ≠ "") (trim <$> sentencesOf text).

Fixpoint allChars (p : ascii → bool) (s : string) : bool :=
  match s with
  | EmptyString => true
  | String c s' => p c && allChars p s'
  end.

(** A sentence in the sense of the pattern: characters that are not
    terminators, at least one, then terminators, at least one. *)
Definition terminated (s : string) : Prop :=
  ∃ body terminators,
    s = body +:+ terminators
    ∧ body ≠ "" ∧ terminators ≠ ""
    ∧ allChars (λ c, negb (isTerminator c)) body = true
    ∧ allChars isTerminator terminators = true.

Fixpoint concatAll (l : list string) : string :=
  match l with
  | [] => ""
  | s :: l' => s +:+ concatAll l'
  end.

(** Texts made of terminators only, and texts without any. *)
Definition terminatorsOnly (s : string) : Prop :=
  allChars isTerminator s = true.

Definition unterminated (s : string) : Prop :=
  allChars (λ c, negb (isTerminator c)) s = true.









(** The timer discipline of the eye controller: at most one timer is
    alive, it is the one whose handle the controller holds, and handles yet
    to be issued are not in use. *)
Definition oneTimer (e : EyeController.EyeController) : Prop :=
  match Timers.pending (EyeController.timers e) with
  | [] => True
  | [t] => EyeController.returnToCenterTimeout e = Some (Timers.handle t)
  | _ => False
  end.

Definition freshHandles {K} (t : Timers.table K) : Prop :=
  Forall (λ x, Timers.handle x < Timers.nextHandle t) (Timers.pending t).

Definition eyeDiscipline (e : EyeController.EyeController) : Prop :=
  oneTimer e ∧ freshHandles (EyeController.timers e).

(** The number of times the head angle was set to the centre. *)
Definition centerings (e : EyeController.EyeController) : nat :=
  length (filter (λ a, a = 0%Z) (EyeController.angleWrites e)).

(** A table of timers is well formed when its handles are distinct and
    all issued already. *)
Definition wfTable {K} (t : Timers.table K) : Prop :=
  NoDup (Timers.handle <$> Timers.pending t) ∧ freshHandles t.

(** The silence timers of the speech engine that are alive, and its timer
    discipline: a silence timer that is alive is the one whose handle the
    engine holds. *)
Definition silenceTimers (e : WebSpeechEngine.WebSpeechEngine)
  : list (Timers.timer WebSpeechEngine.Callback) :=
  filter (λ x, Timers.callback x = WebSpeechEngine.SilenceElapsed)
         (Timers.pending (WebSpeechEngine.timers e)).

Definition engineDiscipline (e : WebSpeechEngine.WebSpeechEngine) : Prop :=
  wfTable (WebSpeechEngine.timers e)
  ∧ Forall (λ x, Timers.callback x = WebSpeechEngine.SilenceElapsed →
                 WebSpeechEngine.silenceTimer e = Some (Timers.handle x))
           (Timers.pending (WebSpeechEngine.timers e)).

(** What the silence detection of the engine depends on and acts upon. *)
Definition silenceView (e : WebSpeechEngine.WebSpeechEngine) :=
  (WebSpeechEngine.accumulatedText e, WebSpeechEngine.utterances e,
   WebSpeechEngine.silenceTimer e, silenceTimers e,
   WebSpeechEngine.endCallback e, WebSpeechEngine.isActive e,
   Timers.now (WebSpeechEngine.timers e)).

(** [e'] is [e] after some callbacks have run: timers of [e] may be gone,
    and the new ones carry handles that [e] had not issued. *)
Definition laterTable {K} (t t' : Timers.table K) : Prop :=
  Timers.nextHandle t ≤ Timers.nextHandle t'
  ∧ Forall (λ y, y ∈ Timers.pending t ∨ Timers.nextHandle t ≤ Timers.handle y)
           (Timers.pending t').

(** The timers of a round are those of the table: a timer of the table
    with the handle of a timer of the round is that timer. *)
Definition coherent {K} (round : list (Timers.timer K)) (t : Timers.table K) : Prop :=
  Forall (λ x, Timers.handle x < Timers.nextHandle t
               ∧ ∀ y, y ∈ Timers.pending t → Timers.handle y = Timers.handle x → y = x)
         round.

(** The engine once the runtime has removed the timer that fires. *)
Definition fired (x : Timers.timer WebSpeechEngine.Callback)
  (e : WebSpeechEngine.WebSpeechEngine) : WebSpeechEngine.WebSpeechEngine :=
  WebSpeechEngine.withTimers
    (Timers.clearTimeout (Timers.handle x) (WebSpeechEngine.timers e)) e.

(** The engine has just received a result: its silence timer is due one
    threshold from now. *)
Definition justHeard (e : WebSpeechEngine.WebSpeechEngine) : Prop :=
  ∃ t, silenceTimers e = [t]
       ∧ Timers.due t
         = Timers.now (WebSpeechEngine.timers e) + WebSpeechEngine.SILENCE_THRESHOLD.







Definition submittedBy (e : SynchronizationCoordinator.Event)
  : list SynchronizationCoordinator.SynchronizationEvent :=
  match e with
  | SynchronizationCoordinator.ExecuteTeachingSequence ev => [ev]
  | _ => []
  end.

Definition submitted (events : list SynchronizationCoordinator.Event)
  : list SynchronizationCoordinator.SynchronizationEvent :=
  events ≫= submittedBy.

Definition taken (c : SynchronizationCoordinator.Coordinator)
  : list SynchronizationCoordinator.SynchronizationEvent :=
  SynchronizationCoordinator.started c ++ SynchronizationCoordinator.eventQueue c.

Definition wellNumbered (c : SynchronizationCoordinator.Coordinator) : Prop :=
  Forall (λ a, SynchronizationCoordinator.aid a < SynchronizationCoordinator.nextAid c)
         (SynchronizationCoordinator.suspended c).


(** What the discipline depends on: the flag, the queue, the suspended
    activations, the next identifier and the requests started. *)
Definition control (c : SynchronizationCoordinator.Coordinator) :=
  (SynchronizationCoordinator.isExecuting c,
   SynchronizationCoordinator.eventQueue c,
   SynchronizationCoordinator.suspended c,
   SynchronizationCoordinator.nextAid c,
   SynchronizationCoordinator.started c).

(** The same, once the activation running in [c] has completed: the flag
    is cleared, or the head of the queue is started. *)
Definition completed (c : SynchronizationCoordinator.Coordinator) :=
  match SynchronizationCoordinator.eventQueue c with
  | [] =>
      (false, [],
       SynchronizationCoordinator.suspended c,
       SynchronizationCoordinator.nextAid c,
       SynchronizationCoordinator.started c)
  | next :: rest =>
      (true, rest,
       SynchronizationCoordinator.suspended c
       ++ [SynchronizationCoordinator.mkActivation
             (SynchronizationCoordinator.nextAid c) next
             SynchronizationCoordinator.AtTextToSpeech],
       S (SynchronizationCoordinator.nextAid c),
       SynchronizationCoordinator.started c ++ [next])
  end.

(** The calls of steps 1 and 2 of a teaching sequence. *)
Definition publish (ev : SynchronizationCoordinator.SynchronizationEvent)
  : list SynchronizationCoordinator.Call :=
  SynchronizationCoordinator.SetLeftPanelContent
    (SynchronizationCoordinator.fullText ev)
  :: match SynchronizationCoordinator.images ev with
     | [] => []
     | _ => [SynchronizationCoordinator.SetRightPanelImages
               (SynchronizationCoordinator.images ev);
             SynchronizationCoordinator.LookLeft 4000]
     end.

(** Whether an activation passes its last await when the promise it
    awaits settles with [result]: the return to idle of the [try] block
    when it is fulfilled, that of the [catch] block however it settles. *)
Definition atLastAwait (a : SynchronizationCoordinator.Activation)
  (result : option string) : bool :=
  match SynchronizationCoordinator.point a, result with
  | SynchronizationCoordinator.AtReturnToIdle, Some _ => true
  | SynchronizationCoordinator.AtReturnToIdleInCatch, _ => true
  | _, _ => false
  end.

End Spec.

(** ** Further predicates used in the statements *)

Module Props.
Import JsString GestureRouter.

(** The contents of the segments, separated by single spaces. *)
Definition spokenText (segments : list TeachingSegment) : string :=
  String.concat " " (content <$> segments).

(** The gestures that [parseTeachingContent] assigns. *)
Definition routedGestures : list GestureType :=
  [emphasis; warning; pointRight; pointLeft].

(** A segment as [parseTeachingContent] builds them: a trimmed, non-empty
    content, one of the four routed gestures, no duration, a type that goes
    with the gesture, and an image query exactly on image segments. *)
Definition wellRouted (segment : TeachingSegment) : Prop :=
  content segment ≠ ""
  ∧ trim (content segment) = content segment
  ∧ duration segment = None
  ∧ ((type segment = seg_emphasis ∧ gesture segment = Some emphasis
      ∧ imageQuery segment = None)
     ∨ (type segment = seg_text ∧ gesture segment = Some warning
        ∧ imageQuery segment = None)
     ∨ (type segment = seg_image ∧ gesture segment = Some pointRight
        ∧ imageQuery segment = Some (extractImageQuery (content segment)))
     ∨ (type segment = seg_text ∧ gesture segment = Some pointLeft
        ∧ imageQuery segment = None)).

(** The value that each direction writes to ['ParamAngleX']. *)
Definition angleOf (d : EyeController.Direction) : Z :=
  match d with
  | EyeController.left => (-15)%Z
  | EyeController.right => 15%Z
  | EyeController.center => 0%Z
  end.

(** The events that attach a model to the eye controller. *)
Definition attachesEyes (ev : EyeController.Event) : bool :=
  match ev with
  | EyeController.SetModel _ => true
  | _ => false
  end.

(** The direction reported agrees with the last angle written, and only
    the three angles are written. *)
Definition gazeCoherent (e : EyeController.EyeController) : Prop :=
  angleOf (EyeController.currentDirection e)
  = default 0%Z (last (EyeController.angleWrites e))
  ∧ Forall (λ a, a ∈ [(-15)%Z; 0%Z; 15%Z]) (EyeController.angleWrites e).

(** What the engine may hand to its callbacks: an utterance that is
    trimmed and not empty, an error that is not ['no-speech']. *)
Definition reportable (o : WebSpeechEngine.Output) : Prop :=
  match o with
  | WebSpeechEngine.EndOfUtterance t => t ≠ "" ∧ trim t = t
  | WebSpeechEngine.ErrorReported error => error ≠ "no-speech"
  | _ => True
  end.

Definition wellReported (e : WebSpeechEngine.WebSpeechEngine) : Prop :=
  Forall reportable (WebSpeechEngine.outputs e).

(** No restart of the session is under way: no timer set by [restart] is
    pending. *)
Definition noRestartUnderWay (e : WebSpeechEngine.WebSpeechEngine) : Prop :=
  Forall (λ x, Timers.callback x ≠ WebSpeechEngine.StartRecognition)
         (Timers.pending (WebSpeechEngine.timers e)).

(** The handle that the engine holds, if any, has been issued. *)
Definition heldIssued (e : WebSpeechEngine.WebSpeechEngine) : Prop :=
  ∀ h, WebSpeechEngine.silenceTimer e = Some h
       → h < Timers.nextHandle (WebSpeechEngine.timers e).

(** The final transcripts of a list of results, each followed by a
    space, and its interim transcripts, in order. *)
Definition finalText (results : list WebSpeechEngine.Result) : string :=
  Spec.concatAll ((λ r, r.1 +:+ " ") <$> filter (λ r, r.2 = true) results).

Definition interimText (results : list WebSpeechEngine.Result) : string :=
  Spec.concatAll (fst <$> filter (λ r, r.2 = false) results).

(** The timer discipline of the motion manager: at most one timer is
    alive, it is the one whose handle the manager holds, and handles yet to
    be issued are not in use. *)
Definition oneIdleTimer (m : MotionManager.MotionManager) : Prop :=
  match Timers.pending (MotionManager.timers m) with
  | [] => True
  | [t] => MotionManager.returnToIdleTimeout m = Some (Timers.handle t)
  | _ => False
  end.

Definition timerCoherent (m : MotionManager.MotionManager) : Prop :=
  oneIdleTimer m ∧ Spec.freshHandles (MotionManager.timers m).

(** The counter of each gesture is the number of its transitions begun. *)
Definition countersCoherent (m : MotionManager.MotionManager) : Prop :=
  ∀ g, default 0 (MotionManager.gestureCounter m !! g)
       = length (filter (λ g', g' = g) (MotionManager.gestureLog m)).

(** The idle clip is played looped, and it alone. *)
Definition loopsOnlyIdle (m : MotionManager.MotionManager) : Prop :=
  Forall (λ c : MotionName * bool, c.2 = true ↔ c.1 = haru_g_idle)
         (MotionManager.motionCalls m).

Definition managerCoherent (m : MotionManager.MotionManager) : Prop :=
  timerCoherent m ∧ countersCoherent m ∧ loopsOnlyIdle m.

(** The events that attach a model to the motion manager. *)
Definition attachesMotion (ev : MotionManager.Event) : bool :=
  match ev with
  | MotionManager.SetModel _ => true
  | _ => false
  end.

(** A manager at rest with a model: no transition in progress, nothing
    queued, a coherent timer, and no promise awaited. *)
Definition atRest (m : MotionManager.MotionManager) : Prop :=
  is_Some (MotionManager.model m)
  ∧ MotionManager.isTransitioning m = false
  ∧ MotionManager.motionQueue m = []
  ∧ timerCoherent m
  ∧ MotionManager.suspended m = [].

(** The events that no client causes: a promise of the model settles, or
    time passes. *)
Definition fromEnvironment (ev : MotionManager.Event) : bool :=
  match ev with
  | MotionManager.Settle _ _ | MotionManager.Tick => true
  | _ => false
  end.

(** An activation of [returnToIdle] or [setModel], which awaits the looped
    idle clip and has nothing left to do after it. *)
Definition idleAwaited (a : MotionManager.Activation) : Prop :=
  MotionManager.owner a = MotionManager.ByOther ∧ MotionManager.loop a = true.

(** A manager that the environment cannot move: no timer is pending and
    the only promises awaited are those of the idle clip. *)
Definition quiet (m : MotionManager.MotionManager) : Prop :=
  Timers.pending (MotionManager.timers m) = []
  ∧ Forall idleAwaited (MotionManager.suspended m).

(** What the clients of the manager observe and cause. *)
Definition motionView (m : MotionManager.MotionManager) :=
  (MotionManager.motionCalls m, MotionManager.currentState m,
   MotionManager.motionQueue m, MotionManager.isTransitioning m,
   MotionManager.returnToIdleTimeout m, MotionManager.model m).

(** The clip that the next transition of a gesture plays, and the delay
    of its return to idle, in milliseconds. *)
Definition nextClip (g : GestureType) (m : MotionManager.MotionManager) : MotionName :=
  MotionMapping.getMotionForGesture g (default 0 (MotionManager.gestureCounter m !! g)).

Definition idleDelay (clip : MotionName) : nat :=
  Z.to_nat (Qfloor (MotionMapping.getMotionDuration clip)).

(** Nothing waits in the queue of a coordinator that is not executing. *)
Definition idleEmpty (c : SynchronizationCoordinator.Coordinator) : Prop :=
  SynchronizationCoordinator.isExecuting c = false
  → SynchronizationCoordinator.eventQueue c = [].

(** The calls that the gesture sequence makes for a list of segments:
    for each segment with a gesture, the request and then the delay. *)
Definition gestureScript (segments : list TeachingSegment)
  : list SynchronizationCoordinator.Call :=
  segments ≫= λ segment,
    match gesture segment with
    | Some g => [SynchronizationCoordinator.RequestGesture g;
                 SynchronizationCoordinator.Delay
                   (SynchronizationCoordinator.waitTime segment)]
    | None => []
    end.

(** The calls that a suspended gesture sequence has yet to make, and the
    number of promises it has yet to await. *)
Definition pendingCalls (t : option SynchronizationCoordinator.GestureTask)
  : list SynchronizationCoordinator.Call :=
  match t with
  | None => []
  | Some task =>
      match SynchronizationCoordinator.remaining task with
      | [] => []
      | segment :: rest =>
          match SynchronizationCoordinator.gpoint task with
          | SynchronizationCoordinator.AtRequestGesture =>
              SynchronizationCoordinator.Delay
                (SynchronizationCoordinator.waitTime segment)
              :: gestureScript rest
          | SynchronizationCoordinator.AtDelay => gestureScript rest
          end
      end
  end.

Definition awaits (t : option SynchronizationCoordinator.GestureTask) : nat :=
  match t with
  | None => 0
  | Some _ => S (length (pendingCalls t))
  end.

(** What the gesture sequence leaves alone. *)
Definition frame (c c' : SynchronizationCoordinator.Coordinator) : Prop :=
  SynchronizationCoordinator.isExecuting c' = SynchronizationCoordinator.isExecuting c
  ∧ SynchronizationCoordinator.eventQueue c' = SynchronizationCoordinator.eventQueue c
  ∧ SynchronizationCoordinator.store c' = SynchronizationCoordinator.store c
  ∧ SynchronizationCoordinator.orphans c' = SynchronizationCoordinator.orphans c
  ∧ SynchronizationCoordinator.nextAid c' = SynchronizationCoordinator.nextAid c
  ∧ SynchronizationCoordinator.started c' = SynchronizationCoordinator.started c.

(** The type that [parseTeachingContent] gives to the segments of a
    gesture. *)
Definition typeFor (g : GestureType) : SegmentType :=
  match g with
  | emphasis => seg_emphasis
  | pointRight => seg_image
  | _ => seg_text
  end.

(** A segment with some text, a routed gesture and the type of that
    gesture. *)
Definition routedShape (segment : TeachingSegment) : Prop :=
  content segment ≠ ""
  ∧ ∃ g, g ∈ routedGestures ∧ gesture segment = Some g ∧ type segment = typeFor g.

(** No two neighbours of the list are equal. *)
Fixpoint distinctNeighbours {A} (l : list A) : Prop :=
  match l with
  | a :: (b :: _) as l' => a ≠ b ∧ distinctNeighbours l'
  | _ => True
  end.

(** What is in the storage after a mutation of the session manager whose
    write is refused: what was there, or nothing when [clearContext] could
    remove it. *)
Definition leftInStorage (m : SessionManager.SessionManager)
  (op : SessionManager.Mutation) : option SessionManager.SessionContext :=
  match op with
  | SessionManager.ClearContext _ _ =>
      if SessionManager.removeItemThrows (SessionManager.localStorage m)
      then SessionManager.stored m else None
  | _ => SessionManager.stored m
  end.

End Props.

(** * Properties *)

(** ** Motion mapping *)

Section MotionMappingFacts.
Import MotionMapping Spec.

Lemma found_inCatalog clip config :
  getMotionConfig clip = Some config → inCatalog clip.
Proof.
  intros Hfind. exists config. unfold getMotionDuration. rewrite Hfind.
  split; [done |].
  unfold getMotionConfig in Hfind.
  apply find_some in Hfind as [Hin Hname].
  apply bool_decide_eq_true in Hname.
  repeat split; [by apply list_elem_of_In | done].
Qed.

Lemma MOTION_MAPPING_nonempty gesture : MOTION_MAPPING gesture ≠ [].
Proof. by destruct gesture. Qed.

Lemma motionIndex_in_range gesture index :
  motionIndex (MOTION_MAPPING gesture) index < length (MOTION_MAPPING gesture).
Proof.
  unfold motionIndex. apply Nat.mod_upper_bound.
  by destruct gesture.
Qed.

Lemma MOTION_MAPPING_inCatalog gesture :
  Forall inCatalog (MOTION_MAPPING gesture).
Proof.
  destruct gesture; cbn [MOTION_MAPPING];
    repeat (apply Forall_cons; split; [by eapply found_inCatalog |]);
    apply Forall_nil_2.
Qed.

Lemma getMotionForGesture_lookup gesture index :
  MOTION_MAPPING gesture !! motionIndex (MOTION_MAPPING gesture) index
  = Some (getMotionForGesture gesture index).
Proof.
  unfold getMotionForGesture; cbn zeta.
  rewrite bool_decide_eq_false_2.
  - apply list_lookup_lookup_total_lt, motionIndex_in_range.
  - intros Hlen. by apply MOTION_MAPPING_nonempty with gesture, nil_length_inv.
Qed.

(** C10. For every gesture of the enumeration and every counter, the
    list mapped to the gesture is not empty (the fall-back branch of
    [getMotionForGesture] is not taken), the computed index is inside
    that list and the clip returned is the one found there; this clip has
    an entry in [MOTION_CONFIGS], so that [getMotionDuration] returns the
    duration of that entry, in milliseconds, and not its default. *)
Theorem getMotionForGesture_in_catalog (gesture : GestureType) (counter : nat) :
  let motions := MOTION_MAPPING gesture in
  let clip := getMotionForGesture gesture counter in
  motions ≠ []
  ∧ motionIndex motions counter < length motions
  ∧ motions !! motionIndex motions counter = Some clip
  ∧ clip ∈ name <$> MOTION_CONFIGS
  ∧ ∃ config,
      getMotionConfig clip = Some config
      ∧ config ∈ MOTION_CONFIGS
      ∧ name config = clip
      ∧ getMotionDuration clip = (cfg_duration config * 1000)%Q.
Proof.
  intros motions clip.
  pose proof (getMotionForGesture_lookup gesture counter) as Hlookup.
  assert (Hcat : inCatalog clip).
  { eapply Forall_forall; [apply MOTION_MAPPING_inCatalog |].
    apply list_elem_of_lookup. eauto. }
  split; [apply MOTION_MAPPING_nonempty |].
  split; [apply motionIndex_in_range |].
  split; [exact Hlookup |].
  split; [| exact Hcat].
  destruct Hcat as (config & _ & Hin & Hname & _).
  apply list_elem_of_fmap. exists config. by split.
Qed.
End MotionMappingFacts.

(** ** Gesture router: merging of segments *)

Section OptimizeSegments.
Import GestureRouter Spec.

Lemma sameIntent_mergeInto segment current other :
  sameIntent segment (mergeInto current other) = sameIntent segment current.
Proof. reflexivity. Qed.

Lemma optimizeLoop_app optimized current rest :
  optimizeLoop optimized current rest = optimized ++ optimizeLoop [] current rest.
Proof.
  revert optimized current.
  induction rest as [|segment rest IH]; intros optimized current; cbn.
  - done.
  - destruct (sameIntent segment current).
    + apply IH.
    + rewrite (IH (optimized ++ [current])), (IH [current]).
      by rewrite <- app_assoc.
Qed.

(** The loop returns a list that starts with a segment of the intent of
    [current] and in which neighbours differ. *)
Lemma optimizeLoop_churnFree rest : ∀ current,
  ∃ first others,
    optimizeLoop [] current rest = first :: others
    ∧ gesture first = gesture current ∧ type first = type current
    ∧ churnFree (first :: others).
Proof.
  induction rest as [|segment rest IH]; intros current; cbn.
  - by exists current, [].
  - destruct (sameIntent segment current) eqn:Hsame.
    + destruct (IH (mergeInto current segment)) as (first & others & -> & Hg & Ht & Hfree).
      by exists first, others.
    + rewrite optimizeLoop_app.
      destruct (IH segment) as (first & others & -> & Hg & Ht & Hfree).
      exists current, (first :: others). repeat split; try done.
      unfold sameIntent in *. by rewrite Hg, Ht.
Qed.

(** On such a list the loop changes nothing. *)
Lemma optimizeLoop_fixed rest : ∀ current,
  churnFree (current :: rest) → optimizeLoop [] current rest = current :: rest.
Proof.
  induction rest as [|segment rest IH]; intros current Hfree; cbn.
  - done.
  - destruct Hfree as [Hdiff Hfree]. rewrite Hdiff.
    rewrite optimizeLoop_app. by rewrite IH.
Qed.

Lemma optimizeSegments_merge current segment rest :
  sameIntent segment current = true →
  optimizeSegments (current :: segment :: rest)
  = optimizeSegments (mergeInto current segment :: rest).
Proof. intros Hsame. cbn. by rewrite Hsame. Qed.

Lemma optimizeSegments_keep current segment rest :
  sameIntent segment current = false →
  optimizeSegments (current :: segment :: rest)
  = current :: optimizeSegments (segment :: rest).
Proof. intros Hdiff. cbn. rewrite Hdiff. by rewrite optimizeLoop_app. Qed.

(** C9. [optimizeSegments] merges a segment into its predecessor when
    both have the same gesture and type, the merged content being the two
    contents separated by one space (the other fields are those of the
    predecessor); it keeps the predecessor as it is otherwise; and
    applying it twice gives the same list as applying it once. *)
Theorem optimizeSegments_idempotent :
  (∀ current segment rest,
      gesture segment = gesture current → type segment = type current →
      optimizeSegments (current :: segment :: rest)
      = optimizeSegments
          (mkSegment (type current)
                     (content current +:+ " " +:+ content segment)
                     (gesture current) (imageQuery current) (duration current)
           :: rest))
  ∧ (∀ current segment rest,
      ¬ (gesture segment = gesture current ∧ type segment = type current) →
      optimizeSegments (current :: segment :: rest)
      = current :: optimizeSegments (segment :: rest))
  ∧ (∀ segments,
      optimizeSegments (optimizeSegments segments) = optimizeSegments segments).
Proof.
  split; [| split].
  - intros current segment rest Hg Ht.
    apply optimizeSegments_merge. unfold sameIntent.
    by rewrite !bool_decide_eq_true_2.
  - intros current segment rest Hdiff.
    apply optimizeSegments_keep. unfold sameIntent.
    apply andb_false_iff.
    destruct (decide (gesture segment = gesture current)) as [Hg|Hg].
    + right. apply bool_decide_eq_false_2. tauto.
    + left. by apply bool_decide_eq_false_2.
  - intros [|first rest]; [done |].
    cbn [optimizeSegments].
    destruct (optimizeLoop_churnFree rest first) as (a & others & -> & _ & _ & Hfree).
    cbn [optimizeSegments]. by apply optimizeLoop_fixed.
Qed.
End OptimizeSegments.

(** ** Session manager *)

Section SessionHistory.
Import SessionManager.

Lemma summarizeContext_exchanges ctx :
  MAX_EXCHANGES < length (exchanges ctx) →
  exchanges (summarizeContext ctx)
  = mkExchange "[Context Summary]"
               (summaryOf (length (exchanges ctx) - MAX_EXCHANGES)) (startTime ctx)
    :: drop (length (exchanges ctx) - MAX_EXCHANGES) (exchanges ctx).
Proof.
  unfold summarizeContext, sliceLast, sliceButLast. intros Hlen.
  assert (length (take (length (exchanges ctx) - MAX_EXCHANGES) (exchanges ctx))
          = length (exchanges ctx) - MAX_EXCHANGES) as -> by (rewrite length_take; lia).
  destruct (Nat.ltb_spec 0 (length (exchanges ctx) - MAX_EXCHANGES)); [done | lia].
Qed.

Lemma summarizeContext_length ctx :
  MAX_EXCHANGES < length (exchanges ctx) →
  length (exchanges (summarizeContext ctx)) = MAX_EXCHANGES + 1.
Proof.
  intros Hlen. rewrite summarizeContext_exchanges by done.
  cbn [length]. rewrite length_drop. lia.
Qed.

(** What [addExchange] leaves in memory. *)
Lemma getExchangeCount_history m : getExchangeCount m = length (historyOf m).
Proof. unfold getExchangeCount, historyOf. by destruct (context m). Qed.

(** The storage has no part in what is kept in memory. *)
Lemma saveToStorage_context m : context (saveToStorage m) = context m.
Proof.
  unfold saveToStorage. destruct (context m) eqn:Hctx; [| done].
  destruct (setItemThrows (localStorage m)); [done |]. by cbn.
Qed.

Lemma initializeSession_context now id m :
  context (initializeSession now id m) = Some (mkContext id [] now now).
Proof. unfold initializeSession. by rewrite saveToStorage_context. Qed.

Lemma addExchange_context now id input response m :
  ∃ sid started,
    let pushed :=
      mkContext sid (historyOf m ++ [mkExchange input response now]) started now in
    context (addExchange now id input response m)
    = Some (if MAX_EXCHANGES <? length (exchanges pushed)
            then summarizeContext pushed else pushed).
Proof.
  unfold addExchange, historyOf.
  destruct (context m) as [c|] eqn:Hctx.
  - rewrite Hctx. exists (sessionId c), (startTime c).
    by rewrite saveToStorage_context.
  - rewrite initializeSession_context. exists id, now.
    by rewrite saveToStorage_context.
Qed.

Lemma addExchange_history now id input response m :
  let pushed := historyOf m ++ [mkExchange input response now] in
  (length pushed ≤ MAX_EXCHANGES
   ∧ historyOf (addExchange now id input response m) = pushed)
  ∨ (MAX_EXCHANGES < length pushed
     ∧ ∃ summary,
         isSummary summary
         ∧ historyOf (addExchange now id input response m)
           = summary :: drop (length pushed - MAX_EXCHANGES) pushed).
Proof.
  intros pushed.
  destruct (addExchange_context now id input response m) as (sid & started & Hctx).
  cbn zeta in Hctx. cbn [exchanges] in Hctx. fold pushed in Hctx.
  destruct (Nat.ltb_spec MAX_EXCHANGES (length pushed)) as [Hgt|Hle].
  - right. split; [done |].
    unfold historyOf at 1. rewrite Hctx.
    rewrite summarizeContext_exchanges by done. cbn [exchanges].
    eexists. split; [| reflexivity]. reflexivity.
  - left. split; [done |]. unfold historyOf at 1. by rewrite Hctx.
Qed.

Lemma addExchange_bounded now id input response m :
  getExchangeCount (addExchange now id input response m) ≤ MAX_EXCHANGES + 1.
Proof.
  rewrite getExchangeCount_history.
  destruct (addExchange_history now id input response m)
    as [[Hle ->] | [Hgt (summary & _ & ->)]].
  - lia.
  - cbn [length]. rewrite length_drop. lia.
Qed.

(** The history after the turns [turns] of a session that started empty:
    the turns themselves up to [MAX_EXCHANGES] of them, and beyond that a
    summary followed by the last [MAX_EXCHANGES] turns. *)
Lemma addAll_history m turns :
  historyOf m = [] →
  (length turns ≤ MAX_EXCHANGES
   ∧ historyOf (addAll turns m) = exchangeOf <$> turns)
  ∨ (MAX_EXCHANGES < length turns
     ∧ ∃ summary,
         isSummary summary
         ∧ historyOf (addAll turns m)
           = summary :: (exchangeOf <$> drop (length turns - MAX_EXCHANGES) turns)).
Proof.
  intros Hempty. induction turns as [|t turns IH] using rev_ind.
  - left. split; [cbn; unfold MAX_EXCHANGES; lia | done].
  - unfold addAll in *. rewrite fold_left_app. cbn [fold_left].
    set (m' := fold_left addTurn turns m) in *.
    rewrite length_app. cbn [length].
    pose proof (addExchange_history (at_time t) (fresh_id t) (said t) (answered t) m')
      as Hadd.
    cbn zeta in Hadd. fold (exchangeOf t) in Hadd. fold (addTurn m' t) in Hadd.
    change [exchangeOf t] with (exchangeOf <$> [t]) in Hadd.
    destruct IH as [[Hshort Hhist] | [Hlong (old & _ & Hhist)]];
      rewrite Hhist in Hadd.
    + rewrite <- (fmap_app exchangeOf turns [t]) in Hadd.
      rewrite length_fmap, length_app in Hadd. cbn [length] in Hadd.
      destruct Hadd as [[Hle Hnew] | [Hgt (summary & Hsummary & Hnew)]].
      * left. by split.
      * right. split; [done |]. exists summary. split; [done |].
        rewrite Hnew. by rewrite fmap_drop.
    + destruct Hadd as [[Hle Hnew] | [Hgt (summary & Hsummary & Hnew)]].
      * cbn [length app] in Hle.
        rewrite length_app, length_fmap, length_drop in Hle. cbn [length] in Hle.
        unfold MAX_EXCHANGES in *. lia.
      * right. split; [lia |]. exists summary. split; [done |].
        rewrite Hnew. f_equal. cbn [app].
        rewrite <- fmap_app. cbn [length].
        rewrite length_fmap, length_app, length_drop. cbn [length].
        unfold MAX_EXCHANGES in *.
        replace (S (length turns - (length turns - 10) + 1) - 10) with 2 by lia.
        cbn [drop]. rewrite <- fmap_drop. f_equal.
        rewrite (drop_app_le (drop (length turns - 10) turns) [t] 1)
          by (rewrite length_drop; lia).
        rewrite (drop_app_le turns [t] (length turns + 1 - 10)) by lia.
        rewrite drop_drop. do 2 f_equal. lia.
Qed.

(** C7. Whatever the state of the manager, after [initializeSession],
    [addExchange] or [clearContext] the history holds at most
    [MAX_EXCHANGES + 1] exchanges, with [MAX_EXCHANGES = 10]. After 15 calls
    of [addExchange] on a manager whose history is empty, the history holds
    11 exchanges: a summary exchange first, then the exchanges of the last
    10 calls, in order. *)
Theorem history_bounded :
  MAX_EXCHANGES = 10
  ∧ (∀ m op, getExchangeCount (apply m op) ≤ MAX_EXCHANGES + 1)
  ∧ (∀ m turns,
       historyOf m = [] → length turns = 15 →
       getExchangeCount (addAll turns m) = 11
       ∧ ∃ summary,
           isSummary summary
           ∧ historyOf (addAll turns m)
             = summary :: (exchangeOf <$> drop 5 turns)).
Proof.
  split; [done |]. split.
  - intros m [now id | now id input response | now id]; cbn [apply].
    + unfold getExchangeCount. rewrite initializeSession_context. cbn. lia.
    + apply addExchange_bounded.
    + unfold getExchangeCount, clearContext.
      rewrite initializeSession_context. cbn. lia.
  - intros m turns Hempty Hlen.
    destruct (addAll_history m turns Hempty)
      as [[Hshort _] | [_ (summary & Hsummary & Hhist)]].
    + unfold MAX_EXCHANGES in Hshort. lia.
    + rewrite Hlen in Hhist. unfold MAX_EXCHANGES in Hhist. cbn [Nat.sub] in Hhist.
      split; [| by exists summary].
      rewrite getExchangeCount_history, Hhist. cbn [length].
      rewrite length_fmap, length_drop. lia.
Qed.

(** The theorem at fifteen concrete turns. *)
Lemma history_bounded_witness :
  getExchangeCount
    (addAll ((λ n, mkTurn n "session" "question" "answer") <$> seq 1 15) initial)
  = 11.
Proof.
  apply (proj2 (proj2 history_bounded) initial
           ((λ n, mkTurn n "session" "question" "answer") <$> seq 1 15)).
  - reflexivity.
  - reflexivity.
Defined.
End SessionHistory.

(** ** Gesture router: parsing *)

Section ParseTeachingContent.
Import JsString GestureRouter Spec.

Lemma append_cons c s t : String c s +:+ t = String c (s +:+ t).
Proof. reflexivity. Qed.

Lemma append_nil_r s : s +:+ "" = s.
Proof. induction s as [|c s IH]; [done |]. by rewrite append_cons, IH. Qed.

Lemma append_assoc s1 s2 s3 : (s1 +:+ s2) +:+ s3 = s1 +:+ (s2 +:+ s3).
Proof. induction s1 as [|c s1 IH]; [done |]. by rewrite !append_cons, IH. Qed.

Lemma append_nonempty_l s1 s2 : s1 ≠ "" → s1 +:+ s2 ≠ "".
Proof. by destruct s1. Qed.

Lemma isEmpty_true s : isEmpty s = true ↔ s = "".
Proof. by destruct s. Qed.

Lemma isEmpty_false s : isEmpty s = false ↔ s ≠ "".
Proof. by destruct s. Qed.

Lemma allChars_append p s1 s2 :
  allChars p (s1 +:+ s2) = allChars p s1 && allChars p s2.
Proof.
  induction s1 as [|c s1 IH]; [done |].
  rewrite append_cons. cbn [allChars]. rewrite IH. by rewrite andb_assoc.
Qed.

(** *** The loop agrees with the rules *)

Lemma parseSentence_classify segments sentence :
  parseSentence segments sentence
  = segments ++ (classify <$> filter (λ s, s ≠ "") [trim sentence]).
Proof.
  unfold parseSentence. cbn zeta.
  destruct (isEmpty (trim sentence)) eqn:Hempty.
  - apply isEmpty_true in Hempty. rewrite Hempty. cbn.
    by rewrite app_nil_r.
  - apply isEmpty_false in Hempty.
    rewrite filter_cons_True by done. cbn [filter fmap list_fmap list_filter].
    unfold classify, rules. cbn [List.find applies segmentFor].
    destruct (isEmphasis (trim sentence)); [done |].
    destruct (isWarning (trim sentence)); [done |].
    by destruct (hasImageReference (trim sentence)).
Qed.

Lemma parse_loop sentences : ∀ segments,
  fold_left parseSentence sentences segments
  = segments ++ (classify <$> filter (λ s, s ≠ "") (trim <$> sentences)).
Proof.
  induction sentences as [|sentence sentences IH]; intros segments; cbn [fold_left].
  - cbn. by rewrite app_nil_r.
  - rewrite IH, parseSentence_classify, <- app_assoc. f_equal.
    rewrite fmap_cons, <- fmap_app. f_equal.
    change (trim sentence :: (trim <$> sentences))
      with ([trim sentence] ++ (trim <$> sentences)).
    by rewrite filter_app.
Qed.

Lemma parseTeachingContent_spec text :
  parseTeachingContent text = parseBySpec text.
Proof.
  unfold parseTeachingContent, parseBySpec, sentencesOf. cbn zeta.
  rewrite parse_loop. cbn [app].
  by destruct (matchSentences text).
Qed.

Lemma classify_content sentence : content (classify sentence) = sentence.
Proof.
  unfold classify, rules. cbn [List.find applies segmentFor].
  destruct (isEmphasis sentence); [done |].
  destruct (isWarning sentence); [done |].
  by destruct (hasImageReference sentence).
Qed.

(** *** The matches are sentences *)

Lemma scanSentences_terminated s : ∀ (cur : string) (inTerminators : bool),
  (if inTerminators then terminated cur
   else allChars (λ c, negb (isTerminator c)) cur = true) →
  Forall terminated (scanSentences cur inTerminators s).
Proof.
  induction s as [|c s IH]; intros cur inTerminators Hcur; cbn [scanSentences].
  - destruct inTerminators; [by apply Forall_singleton | apply Forall_nil_2].
  - destruct (isTerminator c) eqn:Hc.
    + destruct (isEmpty cur) eqn:Hempty.
      * apply IH. apply isEmpty_true in Hempty. by subst.
      * apply isEmpty_false in Hempty. apply IH.
        destruct inTerminators.
        -- destruct Hcur as (body & terms & -> & Hbody & Hterms & Hb & Ht).
           exists body, (terms +:+ String c ""). rewrite append_assoc.
           repeat split; try done.
           ++ by apply append_nonempty_l.
           ++ rewrite allChars_append, Ht. cbn. by rewrite Hc.
        -- exists cur, (String c ""). repeat split; try done.
           cbn. by rewrite Hc.
    + destruct inTerminators.
      * apply Forall_cons. split; [done |]. apply IH. cbn. by rewrite Hc.
      * apply IH. rewrite allChars_append, Hcur. cbn. by rewrite Hc.
Qed.

Lemma matchSentences_terminated text sentences :
  matchSentences text = Some sentences → Forall terminated sentences.
Proof.
  unfold matchSentences. intros Hmatch.
  pose proof (scanSentences_terminated text "" false eq_refl) as Hall.
  destruct (scanSentences "" false text); [done |].
  by injection Hmatch as <-.
Qed.

(** *** A text made of sentences is split into exactly these sentences *)

Lemma scan_body body : ∀ cur rest,
  allChars (λ c, negb (isTerminator c)) body = true →
  scanSentences cur false (body +:+ rest) = scanSentences (cur +:+ body) false rest.
Proof.
  induction body as [|c body IH]; intros cur rest Hbody.
  - by rewrite append_nil_r.
  - cbn [allChars] in Hbody. apply andb_true_iff in Hbody as [Hc Hbody].
    apply negb_true_iff in Hc.
    rewrite append_cons. cbn [scanSentences]. rewrite Hc.
    rewrite IH by done. by rewrite append_assoc.
Qed.

Lemma scan_terminators terminators : ∀ cur rest,
  cur ≠ "" → allChars isTerminator terminators = true →
  scanSentences cur true (terminators +:+ rest)
  = scanSentences (cur +:+ terminators) true rest.
Proof.
  induction terminators as [|d terminators IH]; intros cur rest Hcur Hterms.
  - by rewrite append_nil_r.
  - cbn [allChars] in Hterms. apply andb_true_iff in Hterms as [Hd Hterms].
    rewrite append_cons. cbn [scanSentences]. rewrite Hd.
    apply isEmpty_false in Hcur. rewrite Hcur.
    rewrite IH; [by rewrite append_assoc | | done].
    apply append_nonempty_l. by apply isEmpty_false.
Qed.

Lemma scan_first_terminator cur d rest :
  cur ≠ "" → isTerminator d = true →
  scanSentences cur false (String d rest)
  = scanSentences (cur +:+ String d "") true rest.
Proof.
  intros Hcur Hd. cbn [scanSentences]. rewrite Hd.
  apply isEmpty_false in Hcur. by rewrite Hcur.
Qed.

Lemma scan_sentence cur body terminators rest :
  cur +:+ body ≠ "" → terminators ≠ "" →
  allChars (λ c, negb (isTerminator c)) body = true →
  allChars isTerminator terminators = true →
  scanSentences cur false (body +:+ terminators +:+ rest)
  = scanSentences ((cur +:+ body) +:+ terminators) true rest.
Proof.
  intros Hcur Hterms Hbody Hall.
  rewrite scan_body by done.
  destruct terminators as [|d terminators]; [done |].
  cbn [allChars] in Hall. apply andb_true_iff in Hall as [Hd Hall].
  rewrite append_cons, scan_first_terminator by done.
  rewrite scan_terminators; [| by apply append_nonempty_l | done].
  rewrite append_assoc. by rewrite append_cons.
Qed.

Lemma scan_sentences sentences : ∀ cur,
  cur ≠ "" → Forall terminated sentences →
  scanSentences cur true (concatAll sentences) = cur :: sentences.
Proof.
  induction sentences as [|s sentences IH]; intros cur Hcur Hall; [done |].
  apply Forall_cons in Hall as [(body & terms & -> & Hbody & Hterms & Hb & Ht) Hall].
  cbn [concatAll]. rewrite append_assoc.
  destruct body as [|c body]; [done |].
  cbn [allChars] in Hb. apply andb_true_iff in Hb as [Hc Hb].
  rewrite append_cons. cbn [scanSentences].
  rewrite (proj1 (negb_true_iff _) Hc). f_equal.
  rewrite scan_sentence by done.
  rewrite IH; [done | | done].
  by apply append_nonempty_l.
Qed.

Lemma sentencesOf_concatAll sentences :
  sentences ≠ [] → Forall terminated sentences →
  sentencesOf (concatAll sentences) = sentences.
Proof.
  destruct sentences as [|s sentences]; [done |]. intros _ Hall.
  apply Forall_cons in Hall as [(body & terms & -> & Hbody & Hterms & Hb & Ht) Hall].
  unfold sentencesOf, matchSentences. cbn [concatAll].
  rewrite append_assoc, scan_sentence by done.
  rewrite scan_sentences; [done | | done].
  by apply append_nonempty_l.
Qed.

(** *** The shape of a text, and the sentences that are kept *)

Lemma scan_unterminated s : ∀ cur,
  allChars (λ c, negb (isTerminator c)) s = true →
  scanSentences cur false s = [].
Proof.
  induction s as [|c s IH]; intros cur; [done |]. cbn.
  intros [Hc Hs]%andb_true_iff. apply negb_true_iff in Hc. rewrite Hc.
  by apply IH.
Qed.

Lemma scan_lead lead : ∀ rest,
  terminatorsOnly lead →
  scanSentences "" false (lead +:+ rest) = scanSentences "" false rest.
Proof.
  unfold terminatorsOnly.
  induction lead as [|c lead IH]; intros rest Hlead; [done |].
  cbn [allChars] in Hlead. apply andb_true_iff in Hlead as [Hc Hlead].
  rewrite append_cons. cbn [scanSentences isEmpty]. rewrite Hc. by apply IH.
Qed.

Lemma scan_sentences_tail sentences tail : ∀ cur,
  cur ≠ "" → Forall terminated sentences → unterminated tail →
  scanSentences cur true (concatAll sentences +:+ tail) = cur :: sentences.
Proof.
  unfold unterminated.
  induction sentences as [|s sentences IH]; intros cur Hcur Hall Htail.
  - change (concatAll [] +:+ tail) with tail. destruct tail as [|c tail]; [done |].
    cbn [allChars] in Htail. apply andb_true_iff in Htail as [Hc Htail].
    cbn [scanSentences]. rewrite (proj1 (negb_true_iff _) Hc).
    by rewrite scan_unterminated.
  - apply Forall_cons in Hall as [(body & terms & -> & Hbody & Hterms & Hb & Ht) Hall].
    cbn [concatAll]. rewrite !append_assoc.
    destruct body as [|c body]; [done |].
    cbn [allChars] in Hb. apply andb_true_iff in Hb as [Hc Hb].
    rewrite append_cons. cbn [scanSentences].
    rewrite (proj1 (negb_true_iff _) Hc). f_equal.
    rewrite scan_sentence by done.
    rewrite IH; [done | | done | done].
    by apply append_nonempty_l.
Qed.

(** The sentences of a text of a given shape: terminators, sentences, and
    a rest without terminator. The sentences are kept and the rest is not;
    when there is no sentence the whole text is taken as one. *)
Lemma sentencesOf_shape lead sentences tail :
  terminatorsOnly lead → Forall terminated sentences → unterminated tail →
  sentencesOf (lead +:+ concatAll sentences +:+ tail)
  = match sentences with
    | [] => [lead +:+ concatAll sentences +:+ tail]
    | _ => sentences
    end.
Proof.
  intros Hlead Hall Htail. unfold sentencesOf, matchSentences.
  rewrite scan_lead by done.
  destruct sentences as [|s sentences].
  - change (concatAll [] +:+ tail) with tail. by rewrite scan_unterminated.
  - apply Forall_cons in Hall as [(body & terms & -> & Hbody & Hterms & Hb & Ht) Hall].
    cbn [concatAll]. rewrite !append_assoc.
    rewrite scan_sentence by done.
    rewrite scan_sentences_tail; [done | | done | done].
    by apply append_nonempty_l.
Qed.


(** *** The rules *)












End ParseTeachingContent.

(** ** Eye controller *)

Section GazeTimers.
Import EyeController Spec.

Lemma eyeDiscipline_cases e :
  eyeDiscipline e →
  Timers.pending (timers e) = []
  ∨ ∃ t, Timers.pending (timers e) = [t]
         ∧ returnToCenterTimeout e = Some (Timers.handle t)
         ∧ Timers.handle t < Timers.nextHandle (timers e).
Proof.
  intros [Hone Hfresh]. unfold oneTimer, freshHandles in *.
  destruct (Timers.pending (timers e)) as [|t [|t' rest]]; [by left | | done].
  right. exists t. apply Forall_inv in Hfresh. by split_and!.
Qed.

(** Clearing the handle held by the controller empties the table. *)
Lemma clear_held e h :
  eyeDiscipline e → returnToCenterTimeout e = Some h →
  Timers.pending (Timers.clearTimeout h (timers e)) = [].
Proof.
  intros Hd Hheld. destruct (eyeDiscipline_cases e Hd) as [Hnone | (t & Hone & Hh & _)].
  - cbn. by rewrite Hnone.
  - cbn. rewrite Hone. rewrite Hheld in Hh. injection Hh as ->.
    by rewrite filter_cons_False, filter_nil by tauto.
Qed.

Lemma none_held e :
  eyeDiscipline e → returnToCenterTimeout e = None →
  Timers.pending (timers e) = [].
Proof.
  intros Hd Hheld. destruct (eyeDiscipline_cases e Hd) as [Hnone | (t & _ & Hh & _)];
    [done | congruence].
Qed.

(** After [scheduleReturnToCenter] the table holds the new timer only. *)
Lemma scheduleReturnToCenter_pending duration e :
  eyeDiscipline e →
  Timers.pending (timers (scheduleReturnToCenter duration e))
  = [Timers.mkTimer (Timers.nextHandle (timers e))
                    (Timers.now (timers e) + duration) CallLookCenter]
  ∧ returnToCenterTimeout (scheduleReturnToCenter duration e)
    = Some (Timers.nextHandle (timers e))
  ∧ Timers.nextHandle (timers (scheduleReturnToCenter duration e))
    = S (Timers.nextHandle (timers e))
  ∧ Timers.now (timers (scheduleReturnToCenter duration e)) = Timers.now (timers e).
Proof.
  intros Hd. unfold scheduleReturnToCenter.
  destruct (returnToCenterTimeout e) as [h|] eqn:Hheld; cbn.
  - pose proof (clear_held e h Hd Hheld) as Hclear. cbn in Hclear.
    by rewrite Hclear.
  - by rewrite (none_held e Hd Hheld).
Qed.

Lemma scheduleReturnToCenter_discipline duration e :
  eyeDiscipline e → eyeDiscipline (scheduleReturnToCenter duration e).
Proof.
  intros Hd.
  destruct (scheduleReturnToCenter_pending duration e Hd) as (Hp & Hh & Hn & _).
  split.
  - unfold oneTimer. by rewrite Hp, Hh.
  - unfold freshHandles. rewrite Hp, Hn. apply Forall_singleton. cbn. lia.
Qed.

Lemma lookCenter_pending e :
  eyeDiscipline e → usable e = true →
  Timers.pending (timers (lookCenter e)) = []
  ∧ returnToCenterTimeout (lookCenter e) = None.
Proof.
  intros Hd Husable. unfold lookCenter. rewrite Husable.
  destruct (returnToCenterTimeout e) as [h|] eqn:Hheld; cbn [timers returnToCenterTimeout].
  - by rewrite (clear_held e h Hd Hheld).
  - by rewrite (none_held e Hd Hheld).
Qed.

Lemma clearTimeout_fresh {K} h (t : Timers.table K) :
  freshHandles t → freshHandles (Timers.clearTimeout h t).
Proof.
  unfold freshHandles. cbn. intros Hall.
  apply Forall_forall. intros x Hx. apply list_elem_of_filter in Hx as [_ Hx].
  by eapply Forall_forall in Hall.
Qed.

Lemma lookCenter_discipline e : eyeDiscipline e → eyeDiscipline (lookCenter e).
Proof.
  intros Hd. destruct (usable e) eqn:Husable.
  - destruct (lookCenter_pending e Hd Husable) as [Hp Hh].
    split.
    + unfold oneTimer. by rewrite Hp.
    + unfold freshHandles. rewrite Hp. apply Forall_nil_2.
  - unfold lookCenter. by rewrite Husable.
Qed.

Lemma lookLeft_discipline duration e : eyeDiscipline e → eyeDiscipline (lookLeft duration e).
Proof.
  intros Hd. unfold lookLeft. destruct (usable e); [| done].
  by apply scheduleReturnToCenter_discipline.
Qed.

Lemma lookRight_discipline duration e : eyeDiscipline e → eyeDiscipline (lookRight duration e).
Proof.
  intros Hd. unfold lookRight. destruct (usable e); [| done].
  by apply scheduleReturnToCenter_discipline.
Qed.

Lemma destroy_discipline e : eyeDiscipline e → eyeDiscipline (destroy e).
Proof.
  intros Hd. unfold destroy.
  destruct (returnToCenterTimeout e) as [h|] eqn:Hheld.
  - split.
    + unfold oneTimer. cbn [timers]. by rewrite (clear_held e h Hd Hheld).
    + cbn [timers]. apply clearTimeout_fresh, Hd.
  - split.
    + unfold oneTimer. cbn [timers]. by rewrite (none_held e Hd Hheld).
    + apply Hd.
Qed.

(** *** The passing of time *)

Local Ltac unfold_runtime :=
  unfold tick, withTimers, Timers.elapse, Timers.expired, Timers.advanceClock,
    Timers.clearTimeout, Timers.isPending in *.

Lemma tick_empty e :
  Timers.pending (timers e) = [] →
  tick e = withTimers (Timers.elapse 1 (timers e)) e.
Proof.
  destruct e as [md dir held [now next pend] writes]. cbn. intros ->.
  unfold_runtime. cbn. do 2 f_equal. lia.
Qed.

Lemma tick_waiting e t :
  Timers.pending (timers e) = [t] → S (Timers.now (timers e)) < Timers.due t →
  tick e = withTimers (Timers.elapse 1 (timers e)) e.
Proof.
  destruct e as [md dir held [now next pend] writes]. cbn. intros -> Hlate.
  unfold_runtime. cbn.
  destruct (decide (Timers.due t ≤ S now)); [exfalso; lia |].
  cbn. do 2 f_equal. lia.
Qed.

Lemma clearTimeout_single {K} (t : Timers.timer K) now next :
  Timers.clearTimeout (Timers.handle t) (Timers.mkTable now next [t])
  = Timers.mkTable now next [].
Proof.
  unfold Timers.clearTimeout. cbn [Timers.now Timers.nextHandle Timers.pending].
  by rewrite filter_cons_False, filter_nil by tauto.
Qed.

Lemma tick_fires e t :
  Timers.pending (timers e) = [t] → Timers.due t ≤ S (Timers.now (timers e)) →
  tick e
  = runCallback (Timers.callback t)
      (withTimers (Timers.mkTable (S (Timers.now (timers e)))
                                  (Timers.nextHandle (timers e)) []) e).
Proof.
  destruct e as [md dir held [now next pend] writes]. cbn. intros -> Hdue.
  unfold tick, Timers.expired, Timers.advanceClock.
  cbn [timers withTimers Timers.now Timers.nextHandle Timers.pending].
  rewrite filter_cons_True, filter_nil by (cbn; lia).
  cbn [foldr Timers.insertByDue fire].
  unfold Timers.isPending at 1.
  cbn [timers withTimers Timers.pending existsb]. rewrite Nat.eqb_refl.
  cbn [orb]. by rewrite clearTimeout_single.
Qed.

Lemma tick_discipline e : eyeDiscipline e → eyeDiscipline (tick e).
Proof.
  intros Hd. destruct (eyeDiscipline_cases e Hd) as [Hnone | (t & Hone & Hh & Hlt)].
  - rewrite tick_empty by done. exact Hd.
  - destruct (decide (S (Timers.now (timers e)) < Timers.due t)) as [Hlate|Hdue].
    + rewrite (tick_waiting e t) by done. exact Hd.
    + rewrite (tick_fires e t) by (done || lia).
      destruct (Timers.callback t). cbn [runCallback].
      apply lookCenter_discipline. split.
      * by unfold oneTimer.
      * apply Forall_nil_2.
Qed.

Lemma step_discipline e ev : eyeDiscipline e → eyeDiscipline (step e ev).
Proof.
  intros Hd. destruct ev; cbn [step].
  - exact Hd.
  - by apply lookLeft_discipline.
  - by apply lookRight_discipline.
  - by apply lookCenter_discipline.
  - by apply destroy_discipline.
  - by apply tick_discipline.
Qed.

Lemma run_discipline events : ∀ e, eyeDiscipline e → eyeDiscipline (run events e).
Proof.
  induction events as [|ev events IH]; intros e Hd; [done |].
  cbn. apply IH. by apply step_discipline.
Qed.

Lemma initial_discipline : eyeDiscipline initial.
Proof. split; [done | apply Forall_nil_2]. Qed.

Lemma idleFor_add a b e : idleFor (a + b) e = idleFor b (idleFor a e).
Proof. revert e. induction a as [|a IH]; intros e; [done |]. cbn. apply IH. Qed.

(** While the only timer is not due, nothing happens but the clock. *)
Lemma idleFor_waiting k : ∀ e t,
  Timers.pending (timers e) = [t] → Timers.now (timers e) + k < Timers.due t →
  idleFor k e = withTimers (Timers.elapse k (timers e)) e.
Proof.
  induction k as [|k IH]; intros e t Hp Hlate.
  - destruct e as [md dir held [now next pend] writes]. cbn.
    unfold_runtime. cbn. do 2 f_equal. lia.
  - cbn [idleFor]. rewrite (tick_waiting e t) by (done || lia).
    rewrite (IH _ t); cbn; [| done | lia].
    unfold_runtime. cbn. do 2 f_equal. lia.
Qed.

Lemma idleFor_empty k : ∀ e,
  Timers.pending (timers e) = [] →
  idleFor k e = withTimers (Timers.elapse k (timers e)) e.
Proof.
  induction k as [|k IH]; intros e Hp.
  - destruct e as [md dir held [now next pend] writes]. cbn.
    unfold_runtime. cbn. do 2 f_equal. lia.
  - cbn [idleFor]. rewrite tick_empty by done.
    rewrite IH by done.
    unfold_runtime. cbn. do 2 f_equal. lia.
Qed.

(** When the timer set by [lookLeft] or [lookRight] is the only one, it
    fires [duration] milliseconds later and calls [lookCenter]. *)
Lemma idleFor_fires duration e t :
  0 < duration → usable e = true →
  Timers.pending (timers e) = [t] →
  Timers.due t = Timers.now (timers e) + duration →
  idleFor duration e
  = mkEye (model e) center None
          (Timers.mkTable (Timers.now (timers e) + duration)
                          (Timers.nextHandle (timers e)) [])
          (angleWrites e ++ [0%Z]).
Proof.
  intros Hpos Husable Hp Hdue.
  destruct duration as [|k]; [lia |].
  replace (S k) with (k + 1) at 1 by lia. rewrite idleFor_add.
  rewrite (idleFor_waiting k e t) by (done || lia).
  cbn [idleFor].
  rewrite (tick_fires _ t); cbn; [| done | lia].
  destruct (Timers.callback t). cbn [runCallback].
  destruct e as [md dir held [now next pend] writes].
  unfold lookCenter, usable, withTimers, Timers.elapse, Timers.clearTimeout in *.
  cbn in *. rewrite Husable.
  destruct held; cbn; do 2 f_equal; lia.
Qed.

(** *** What the calls do on an attached, working model *)

Lemma scheduleReturnToCenter_effect duration e :
  eyeDiscipline e →
  scheduleReturnToCenter duration e
  = mkEye (model e) (currentDirection e) (Some (Timers.nextHandle (timers e)))
          (Timers.mkTable (Timers.now (timers e)) (S (Timers.nextHandle (timers e)))
             [Timers.mkTimer (Timers.nextHandle (timers e))
                             (Timers.now (timers e) + duration) CallLookCenter])
          (angleWrites e).
Proof.
  intros Hd.
  destruct (eyeDiscipline_cases e Hd) as [Hnone | (t & Hone & Hh & _)];
    destruct e as [md dir held [now next pend] writes]; cbn in *; subst.
  - unfold scheduleReturnToCenter, Timers.clearTimeout. cbn.
    by destruct held.
  - unfold scheduleReturnToCenter. cbn [returnToCenterTimeout timers].
    by rewrite clearTimeout_single.
Qed.

Lemma lookLeft_effect duration e :
  usable e = true → eyeDiscipline e →
  lookLeft duration e
  = mkEye (model e) left (Some (Timers.nextHandle (timers e)))
          (Timers.mkTable (Timers.now (timers e)) (S (Timers.nextHandle (timers e)))
             [Timers.mkTimer (Timers.nextHandle (timers e))
                             (Timers.now (timers e) + duration) CallLookCenter])
          (angleWrites e ++ [(-15)%Z]).
Proof.
  intros Husable Hd. unfold lookLeft. rewrite Husable.
  by rewrite scheduleReturnToCenter_effect.
Qed.

Lemma lookRight_effect duration e :
  usable e = true → eyeDiscipline e →
  lookRight duration e
  = mkEye (model e) right (Some (Timers.nextHandle (timers e)))
          (Timers.mkTable (Timers.now (timers e)) (S (Timers.nextHandle (timers e)))
             [Timers.mkTimer (Timers.nextHandle (timers e))
                             (Timers.now (timers e) + duration) CallLookCenter])
          (angleWrites e ++ [15%Z]).
Proof.
  intros Husable Hd. unfold lookRight. rewrite Husable.
  by rewrite scheduleReturnToCenter_effect.
Qed.

(** A timer that was pending before the call is not pending after it. *)
Lemma look_cancels e e' t :
  eyeDiscipline e → t ∈ Timers.pending (timers e) →
  Forall (λ x, Timers.nextHandle (timers e) ≤ Timers.handle x)
         (Timers.pending (timers e')) →
  Timers.isPending (Timers.handle t) (timers e') = false.
Proof.
  intros [_ Hfresh] Hin Hnew. unfold Timers.isPending.
  apply not_true_is_false. intros Hp. apply existsb_exists in Hp as (x & Hx & Heq).
  apply Nat.eqb_eq in Heq.
  eapply Forall_forall in Hfresh; [| exact Hin].
  eapply Forall_forall in Hnew; [| apply list_elem_of_In; exact Hx].
  cbn in *. lia.
Qed.

Lemma centerings_app e writes :
  length (filter (λ a, a = 0%Z) (angleWrites e ++ writes))
  = centerings e + length (filter (λ a, a = 0%Z) writes).
Proof. unfold centerings. by rewrite filter_app, length_app. Qed.

(** C8. Whatever calls are made and however time passes, at most one
    timer of the controller is alive. On an attached, working model,
    [lookLeft] and [lookRight] turn the head and leave exactly one timer,
    due [duration] milliseconds later, whose callback is [lookCenter]: the
    direction is kept until then and is [center], with no timer left, once
    that time has passed. A timer pending before [lookLeft], [lookRight] or
    [lookCenter] is not pending after the call. In particular, after
    [lookLeft(500)] followed less than 500 ms later by [lookRight(500)], the
    direction stays [right] for the next 500 ms (the first timer does not
    fire), and after 1000 ms without a call it is [center], the head having
    been centred once. *)
Theorem gaze_single_timer :
  (∀ events, length (Timers.pending (timers (run events initial))) ≤ 1)
  ∧ (∀ e duration,
       usable e = true → eyeDiscipline e →
       (currentDirection (lookLeft duration e) = left
        ∧ Timers.pending (timers (lookLeft duration e))
          = [Timers.mkTimer (Timers.nextHandle (timers e))
                            (Timers.now (timers e) + duration) CallLookCenter]
        ∧ (∀ k, k < duration →
             currentDirection (idleFor k (lookLeft duration e)) = left)
        ∧ (0 < duration →
             currentDirection (idleFor duration (lookLeft duration e)) = center
             ∧ Timers.pending (timers (idleFor duration (lookLeft duration e))) = []))
       ∧ (currentDirection (lookRight duration e) = right
          ∧ Timers.pending (timers (lookRight duration e))
            = [Timers.mkTimer (Timers.nextHandle (timers e))
                              (Timers.now (timers e) + duration) CallLookCenter]
          ∧ (∀ k, k < duration →
               currentDirection (idleFor k (lookRight duration e)) = right)
          ∧ (0 < duration →
               currentDirection (idleFor duration (lookRight duration e)) = center
               ∧ Timers.pending (timers (idleFor duration (lookRight duration e))) = [])))
  ∧ (∀ e duration t,
       usable e = true → eyeDiscipline e → t ∈ Timers.pending (timers e) →
       Timers.isPending (Timers.handle t) (timers (lookLeft duration e)) = false
       ∧ Timers.isPending (Timers.handle t) (timers (lookRight duration e)) = false
       ∧ Timers.isPending (Timers.handle t) (timers (lookCenter e)) = false)
  ∧ (∀ e gap,
       usable e = true → eyeDiscipline e → gap < 500 →
       let turned := lookRight 500 (idleFor gap (lookLeft 500 e)) in
       (∀ k, k < 500 →
          currentDirection (idleFor k turned) = right
          ∧ centerings (idleFor k turned) = centerings e)
       ∧ currentDirection (idleFor 1000 turned) = center
       ∧ angleWrites (idleFor 1000 turned) = angleWrites e ++ [(-15)%Z; 15%Z; 0%Z]
       ∧ centerings (idleFor 1000 turned) = centerings e + 1
       ∧ Timers.pending (timers (idleFor 1000 turned)) = []).
Proof.
  split; [| split; [| split]].
  - intros events.
    pose proof (run_discipline events initial initial_discipline) as Hd.
    destruct (eyeDiscipline_cases _ Hd) as [-> | (t & -> & _)]; cbn; lia.
  - intros e duration Husable Hd. split.
    + rewrite lookLeft_effect by done. split; [done |]. split; [done |]. split.
      * intros k Hk. erewrite idleFor_waiting; [done | reflexivity | cbn; lia].
      * intros Hpos. erewrite idleFor_fires; [done | done | done | reflexivity | reflexivity].
    + rewrite lookRight_effect by done. split; [done |]. split; [done |]. split.
      * intros k Hk. erewrite idleFor_waiting; [done | reflexivity | cbn; lia].
      * intros Hpos. erewrite idleFor_fires; [done | done | done | reflexivity | reflexivity].
  - intros e duration t Husable Hd Hin. split; [| split].
    + apply (look_cancels e); [done | done |].
      rewrite lookLeft_effect by done. by apply Forall_singleton.
    + apply (look_cancels e); [done | done |].
      rewrite lookRight_effect by done. by apply Forall_singleton.
    + apply (look_cancels e); [done | done |].
      destruct (lookCenter_pending e Hd Husable) as [-> _]. apply Forall_nil_2.
  - intros e gap Husable Hd Hgap turned. subst turned.
    rewrite (lookLeft_effect 500 e) by done.
    erewrite idleFor_waiting; [| reflexivity | cbn; lia].
    rewrite lookRight_effect; [| done |]; cycle 1.
    { split; [done |]. apply Forall_singleton. cbn. lia. }
    cbn [timers withTimers Timers.elapse Timers.now Timers.nextHandle
         Timers.pending model angleWrites].
    split.
    + intros k Hk. erewrite idleFor_waiting; [| reflexivity | cbn; lia].
      split; [done |]. unfold centerings at 1. cbn [angleWrites withTimers].
      rewrite <- app_assoc, centerings_app.
      set (n := length (filter _ (_ ++ _))). vm_compute in n. lia.
    + change 1000 with (500 + 500). rewrite idleFor_add.
      erewrite (idleFor_fires 500 (mkEye _ right _ _ _));
        [| lia | done | reflexivity | reflexivity].
      rewrite idleFor_empty by done.
      cbn [currentDirection angleWrites timers withTimers Timers.pending
           Timers.elapse].
      split; [done |]. rewrite <- !app_assoc. split; [done |]. split; [| done].
      unfold centerings. cbn [angleWrites withTimers].
      rewrite filter_app, length_app.
      set (n := length (filter _ (_ ++ _))). vm_compute in n. lia.
Qed.

(** The theorem at a controller whose model has just been attached, with
    200 ms between the two calls. *)
Lemma gaze_single_timer_witness :
  let e := setModel (mkModel true) initial in
  let turned := lookRight 500 (idleFor 200 (lookLeft 500 e)) in
  currentDirection (idleFor 1000 turned) = center
  ∧ centerings (idleFor 1000 turned) = centerings e + 1.
Proof.
  intros e turned.
  assert (Husable : usable e = true) by reflexivity.
  assert (Hd : eyeDiscipline e) by (split; [exact I | apply Forall_nil_2]).
  assert (Hgap : 200 < 500) by lia.
  destruct (proj2 (proj2 (proj2 gaze_single_timer)) e 200 Husable Hd Hgap)
    as (_ & Hcenter & _ & Hcount & _).
  by split.
Defined.
End GazeTimers.

(** ** Timers *)

Section TimerTables.
Import Spec.
Context {K : Type}.
Implicit Types (t : Timers.table K) (x y : Timers.timer K).

Lemma setTimeout_pending cb delay t :
  Timers.pending (Timers.setTimeout cb delay t).2
  = Timers.pending t
    ++ [Timers.mkTimer (Timers.nextHandle t) (Timers.now t + delay) cb].
Proof. reflexivity. Qed.

Lemma setTimeout_wf cb delay t : wfTable t → wfTable (Timers.setTimeout cb delay t).2.
Proof.
  intros [Hnodup Hfresh]. unfold wfTable, freshHandles in *. cbn.
  split.
  - rewrite fmap_app. apply NoDup_app. split; [done |]. split.
    + intros h Hh Hnew. apply list_elem_of_singleton in Hnew. subst h.
      apply list_elem_of_fmap in Hh as (x & Hx & Hin).
      eapply Forall_forall in Hfresh; [| exact Hin]. cbn in *. lia.
    + apply NoDup_singleton.
  - apply Forall_app. split.
    + eapply Forall_impl; [exact Hfresh |]. cbn. intros. lia.
    + apply Forall_singleton. cbn. lia.
Qed.

Lemma clearTimeout_wf h t : wfTable t → wfTable (Timers.clearTimeout h t).
Proof.
  intros [Hnodup Hfresh]. unfold wfTable, freshHandles in *. cbn. split.
  - eapply sublist_NoDup; [exact Hnodup |].
    apply fmap_sublist, sublist_filter.
  - apply Forall_forall. intros x Hx. apply list_elem_of_filter in Hx as [_ Hx].
    by eapply Forall_forall in Hfresh.
Qed.

(** In a well-formed table a handle names one timer. *)
Lemma wfTable_handle_inj t x y :
  wfTable t → x ∈ Timers.pending t → y ∈ Timers.pending t →
  Timers.handle x = Timers.handle y → x = y.
Proof.
  intros [Hnodup _] Hx Hy Heq.
  apply list_elem_of_lookup in Hx as [i Hi]. apply list_elem_of_lookup in Hy as [j Hj].
  assert (i = j) as ->.
  { eapply NoDup_lookup; [exact Hnodup | |]; rewrite list_lookup_fmap.
    - by rewrite Hi.
    - rewrite Hj. cbn. by rewrite Heq. }
  congruence.
Qed.

Lemma elem_of_clearTimeout h t x :
  x ∈ Timers.pending (Timers.clearTimeout h t)
  ↔ Timers.handle x ≠ h ∧ x ∈ Timers.pending t.
Proof.
  unfold Timers.clearTimeout. cbn [Timers.pending].
  by rewrite list_elem_of_filter.
Qed.

Lemma isPending_true h t :
  Timers.isPending h t = true ↔ ∃ x, x ∈ Timers.pending t ∧ Timers.handle x = h.
Proof.
  unfold Timers.isPending. rewrite existsb_exists. split.
  - intros (x & Hx & Heq). exists x. split; [by apply list_elem_of_In |].
    by apply Nat.eqb_eq.
  - intros (x & Hx & Heq). exists x. split; [by apply list_elem_of_In |].
    by apply Nat.eqb_eq.
Qed.

Lemma elem_of_insertByDue x y (l : list (Timers.timer K)) :
  y ∈ Timers.insertByDue x l ↔ y = x ∨ y ∈ l.
Proof.
  induction l as [|z l IH]; cbn [Timers.insertByDue].
  - rewrite list_elem_of_singleton, elem_of_nil. tauto.
  - destruct (Timers.due x <=? Timers.due z).
    + apply elem_of_cons.
    + rewrite !elem_of_cons, IH. tauto.
Qed.

Lemma NoDup_insertByDue x (l : list (Timers.timer K)) :
  x ∉ l → NoDup l → NoDup (Timers.insertByDue x l).
Proof.
  induction l as [|z l IH]; cbn [Timers.insertByDue]; intros Hx Hl.
  - apply NoDup_singleton.
  - destruct (Timers.due x <=? Timers.due z).
    + by apply NoDup_cons.
    + apply NoDup_cons in Hl as [Hz Hl].
      apply not_elem_of_cons in Hx as [Hxz Hx].
      apply NoDup_cons. split.
      * rewrite elem_of_insertByDue. intros [-> | Hin]; tauto.
      * by apply IH.
Qed.

Lemma elem_of_expired t x :
  x ∈ Timers.expired t ↔ x ∈ Timers.pending t ∧ Timers.due x ≤ Timers.now t.
Proof.
  unfold Timers.expired.
  transitivity (x ∈ filter (λ x0, Timers.due x0 ≤ Timers.now t) (Timers.pending t)).
  - generalize (filter (λ x0, Timers.due x0 ≤ Timers.now t) (Timers.pending t)).
    intros l. induction l as [|z l IH]; cbn [foldr]; [done |].
    rewrite elem_of_insertByDue, IH, elem_of_cons. tauto.
  - rewrite list_elem_of_filter. tauto.
Qed.

Lemma NoDup_expired t : NoDup (Timers.pending t) → NoDup (Timers.expired t).
Proof.
  intros Hnodup. unfold Timers.expired.
  apply (NoDup_filter (λ x, Timers.due x ≤ Timers.now t)) in Hnodup.
  induction Hnodup as [|z l Hz Hl IH]; cbn [foldr]; [apply NoDup_nil_2 |].
  apply NoDup_insertByDue; [| done].
  intros Hin. apply Hz. clear -Hin.
  induction l as [|w l IH]; cbn [foldr] in *; [done |].
  apply elem_of_insertByDue in Hin as [-> | Hin].
  - apply list_elem_of_here.
  - by apply list_elem_of_further, IH.
Qed.

(** Timers that expire at the same time fire in the order of their
    creation. *)
Lemma expired_same_due t d :
  d ≤ Timers.now t → Forall (λ x, Timers.due x = d) (Timers.pending t) →
  Timers.expired t = Timers.pending t.
Proof.
  intros Hd Hall. unfold Timers.expired.
  induction Hall as [|x l Hx Hall IH]; [done |].
  rewrite filter_cons_True by lia. cbn [foldr]. rewrite IH.
  destruct Hall as [|y l Hy Hall]; [done |].
  cbn [Timers.insertByDue]. rewrite Hx, Hy.
  by rewrite (proj2 (Nat.leb_le d d)) by lia.
Qed.

Lemma wfTable_NoDup t : wfTable t → NoDup (Timers.pending t).
Proof. intros [Hnodup _]. by apply NoDup_fmap_1 in Hnodup. Qed.
End TimerTables.

(** ** Realtime speech engine *)

Section SilenceDetection.
Import JsString WebSpeechEngine Spec.

Lemma laterTable_refl {K} (t : Timers.table K) : laterTable t t.
Proof.
  split; [done |]. apply Forall_forall. intros y Hy. by left.
Qed.

Lemma laterTable_trans {K} (t1 t2 t3 : Timers.table K) :
  laterTable t1 t2 → laterTable t2 t3 → laterTable t1 t3.
Proof.
  intros [Hn12 H12] [Hn23 H23]. split; [lia |].
  apply Forall_forall. intros y Hy.
  eapply Forall_forall in H23 as [Hin | Hnew]; [| | exact Hy].
  - by eapply Forall_forall in H12.
  - right. lia.
Qed.

Lemma coherent_later {K} round (t t' : Timers.table K) :
  coherent round t → laterTable t t' → coherent round t'.
Proof.
  intros Hco [Hn Hlater]. apply Forall_forall. intros x Hx.
  eapply Forall_forall in Hco as [Hlt Hinj]; [| exact Hx].
  split; [lia |]. intros y Hy Heq.
  eapply Forall_forall in Hlater as [Hin | Hnew]; [| | exact Hy].
  - by apply Hinj.
  - lia.
Qed.

Lemma laterTable_clearTimeout {K} h (t : Timers.table K) :
  laterTable t (Timers.clearTimeout h t).
Proof.
  split; [done |]. apply Forall_forall. intros y Hy.
  apply elem_of_clearTimeout in Hy as [_ Hy]. by left.
Qed.

Lemma laterTable_setTimeout {K} (cb : K) delay (t : Timers.table K) :
  laterTable t (Timers.setTimeout cb delay t).2.
Proof.
  split; [cbn; lia |]. rewrite setTimeout_pending.
  apply Forall_app. split.
  - apply Forall_forall. intros y Hy. by left.
  - apply Forall_singleton. right. done.
Qed.

Lemma coherent_expired {K} (t : Timers.table K) :
  wfTable t → coherent (Timers.expired t) t.
Proof.
  intros Hwf. apply Forall_forall. intros x Hx.
  apply elem_of_expired in Hx as [Hx _]. split.
  - destruct Hwf as [_ Hfresh]. by eapply Forall_forall in Hfresh.
  - intros y Hy Heq. by eapply wfTable_handle_inj.
Qed.

Lemma fire_app r1 r2 e : fire (r1 ++ r2) e = fire r2 (fire r1 e).
Proof.
  revert e. induction r1 as [|x r1 IH]; intros e; [done |].
  cbn [app fire]. by destruct (Timers.isPending _ _).
Qed.

(** *** The discipline is kept by every operation *)

Lemma discipline_wf e : engineDiscipline e → wfTable (timers e).
Proof. by intros [Hwf _]. Qed.

Lemma filter_none {A} (P : A → Prop) `{∀ x, Decision (P x)} (l : list A) :
  Forall (λ x, ¬ P x) l → filter P l = [].
Proof.
  induction 1 as [|x l Hx Hl IH]; [done |]. by rewrite filter_cons_False.
Qed.

Lemma filter_weaken {A} (P Q : A → Prop) `{∀ x, Decision (P x)} `{∀ x, Decision (Q x)}
  (l : list A) :
  Forall (λ x, P x → Q x) l → filter P (filter Q l) = filter P l.
Proof.
  induction 1 as [|x l Hx Hl IH]; [done |].
  destruct (decide (Q x)) as [HQ|HQ].
  - rewrite (filter_cons_True Q) by done.
    destruct (decide (P x)).
    + rewrite !(filter_cons_True P) by done. by rewrite IH.
    + rewrite !(filter_cons_False P) by done. exact IH.
  - rewrite (filter_cons_False Q) by done.
    rewrite (filter_cons_False P) by tauto. exact IH.
Qed.

Lemma utterances_emit o e :
  utterances (emit o e)
  = utterances e ++ match o with EndOfUtterance t => [t] | _ => [] end.
Proof.
  unfold utterances. cbn [outputs emit]. rewrite omap_app. f_equal.
  by destruct o.
Qed.

(** With the discipline, clearing the held handle leaves no silence timer. *)
Lemma clearSilenceTimer_discipline e :
  engineDiscipline e →
  engineDiscipline (clearSilenceTimer e)
  ∧ silenceTimers (clearSilenceTimer e) = []
  ∧ laterTable (timers e) (timers (clearSilenceTimer e)).
Proof.
  intros [Hwf Hheld]. unfold clearSilenceTimer.
  destruct (silenceTimer e) as [h|] eqn:Hfield.
  - assert (Hnone : Forall (λ x, ¬ Timers.callback x = SilenceElapsed)
                      (Timers.pending (Timers.clearTimeout h (timers e)))).
    { apply Forall_forall. intros x Hx Hcb.
      apply elem_of_clearTimeout in Hx as [Hne Hx].
      eapply Forall_forall in Hheld; [| exact Hx]. specialize (Hheld Hcb).
      congruence. }
    split; [split |]; [by apply clearTimeout_wf | | split].
    + cbn [timers withSilenceTimer withTimers silenceTimer].
      eapply Forall_impl; [exact Hnone |]. cbn. tauto.
    + unfold silenceTimers. cbn [timers withSilenceTimer withTimers].
      by apply filter_none.
    + cbn [timers withSilenceTimer withTimers]. apply laterTable_clearTimeout.
  - assert (Hnone : Forall (λ x, ¬ Timers.callback x = SilenceElapsed)
                      (Timers.pending (timers e))).
    { eapply Forall_impl; [exact Hheld |]. cbn. intros x Hx Hcb.
      specialize (Hx Hcb). congruence. }
    split; [split; [done | by rewrite Hfield] |]. split; [| apply laterTable_refl].
    by apply filter_none.
Qed.

Lemma clearSilenceTimer_unchanged e :
  accumulatedText (clearSilenceTimer e) = accumulatedText e
  ∧ outputs (clearSilenceTimer e) = outputs e
  ∧ endCallback (clearSilenceTimer e) = endCallback e
  ∧ transcriptCallback (clearSilenceTimer e) = transcriptCallback e
  ∧ isActive (clearSilenceTimer e) = isActive e
  ∧ Timers.now (timers (clearSilenceTimer e)) = Timers.now (timers e)
  ∧ Timers.nextHandle (timers (clearSilenceTimer e)) = Timers.nextHandle (timers e).
Proof. unfold clearSilenceTimer. by destruct (silenceTimer e). Qed.

Lemma startSilenceTimer_discipline e :
  engineDiscipline e →
  engineDiscipline (startSilenceTimer e)
  ∧ silenceTimers (startSilenceTimer e)
    = [Timers.mkTimer (Timers.nextHandle (timers e))
                      (Timers.now (timers e) + SILENCE_THRESHOLD) SilenceElapsed]
  ∧ laterTable (timers e) (timers (startSilenceTimer e)).
Proof.
  intros Hd.
  destruct (clearSilenceTimer_discipline e Hd) as ([Hwf Hheld] & Hnone & Hlater).
  destruct (clearSilenceTimer_unchanged e) as (_ & _ & _ & _ & _ & Hnow & Hnext).
  unfold startSilenceTimer, setTimeout.
  set (e1 := clearSilenceTimer e) in *.
  cbn [timers withSilenceTimer withTimers silenceTimer Timers.setTimeout].
  split; [split |]; [| | split].
  - apply (setTimeout_wf SilenceElapsed SILENCE_THRESHOLD (timers e1) Hwf).
  - cbn [timers withSilenceTimer withTimers silenceTimer Timers.pending].
    apply Forall_app. split.
    + apply Forall_forall. intros x Hx Hcb. exfalso.
      assert (x ∈ silenceTimers e1) as Hin by (by apply list_elem_of_filter).
      rewrite Hnone in Hin. by apply elem_of_nil in Hin.
    + by apply Forall_singleton.
  - unfold silenceTimers in *.
    cbn [timers withSilenceTimer withTimers Timers.pending].
    rewrite filter_app, Hnone, filter_cons_True, filter_nil by done.
    by rewrite Hnow, Hnext.
  - eapply laterTable_trans; [exact Hlater |].
    apply (laterTable_setTimeout SilenceElapsed SILENCE_THRESHOLD (timers e1)).
Qed.

Lemma startSilenceTimer_unchanged e :
  accumulatedText (startSilenceTimer e) = accumulatedText e
  ∧ outputs (startSilenceTimer e) = outputs e
  ∧ endCallback (startSilenceTimer e) = endCallback e
  ∧ transcriptCallback (startSilenceTimer e) = transcriptCallback e
  ∧ isActive (startSilenceTimer e) = isActive e
  ∧ Timers.now (timers (startSilenceTimer e)) = Timers.now (timers e).
Proof.
  unfold startSilenceTimer, setTimeout, clearSilenceTimer.
  by destruct (silenceTimer e).
Qed.

(** *** Timers that fire *)

Lemma emit_quiet o e :
  (∀ t, o ≠ EndOfUtterance t) →
  silenceView (emit o e) = silenceView e
  ∧ (engineDiscipline e → engineDiscipline (emit o e))
  ∧ timers (emit o e) = timers e.
Proof.
  intros Ho. split; [| by split].
  unfold silenceView. rewrite utterances_emit.
  destruct o; try (by rewrite app_nil_r). by destruct (Ho finalText).
Qed.

Lemma setTimeout_quiet cb delay e :
  cb ≠ SilenceElapsed →
  silenceView (setTimeout cb delay e).2 = silenceView e
  ∧ (engineDiscipline e → engineDiscipline (setTimeout cb delay e).2)
  ∧ laterTable (timers e) (timers (setTimeout cb delay e).2).
Proof.
  intros Hcb. unfold setTimeout.
  cbn [snd timers withTimers Timers.setTimeout].
  split; [| split].
  - unfold silenceView, silenceTimers.
    cbn [timers withTimers Timers.pending Timers.now accumulatedText utterances
         outputs silenceTimer endCallback isActive].
    by rewrite filter_app, filter_cons_False, filter_nil, app_nil_r.
  - intros [Hwf Hheld]. split.
    + apply (setTimeout_wf cb delay (timers e) Hwf).
    + cbn [timers withTimers Timers.pending silenceTimer].
      apply Forall_app. split; [done |]. by apply Forall_singleton.
  - apply (laterTable_setTimeout cb delay (timers e)).
Qed.

Lemma runCallback_quiet cb e :
  cb ≠ SilenceElapsed →
  silenceView (runCallback cb e) = silenceView e
  ∧ (engineDiscipline e → engineDiscipline (runCallback cb e))
  ∧ laterTable (timers e) (timers (runCallback cb e)).
Proof.
  intros Hcb. destruct cb; [done | | |]; cbn [runCallback].
  - destruct (isActive e); [| by split_and!; [| | apply laterTable_refl]].
    unfold restart.
    destruct (emit_quiet RecognitionStop e ltac:(done)) as (Hv1 & Hd1 & Ht1).
    destruct (setTimeout_quiet StartRecognition 100 (emit RecognitionStop e) ltac:(done))
      as (Hv2 & Hd2 & Hl2).
    split_and!; [congruence | by auto | by rewrite <- Ht1].
  - destruct (isActive e); [| by split_and!; [| | apply laterTable_refl]].
    destruct (emit_quiet RecognitionStart e ltac:(done)) as (Hv1 & Hd1 & Ht1).
    split_and!; [done | done |]. rewrite Ht1. apply laterTable_refl.
  - destruct (emit_quiet RecognitionStart e ltac:(done)) as (Hv1 & Hd1 & Ht1).
    split_and!; [done | done |]. rewrite Ht1. apply laterTable_refl.
Qed.

Lemma fired_discipline x e :
  engineDiscipline e →
  engineDiscipline (fired x e) ∧ laterTable (timers e) (timers (fired x e)).
Proof.
  intros [Hwf Hheld]. unfold fired. cbn [timers withTimers]. split; [split |].
  - by apply clearTimeout_wf.
  - cbn [silenceTimer]. apply Forall_forall. intros y Hy.
    apply elem_of_clearTimeout in Hy as [_ Hy]. by eapply Forall_forall in Hheld.
  - apply laterTable_clearTimeout.
Qed.

Lemma fired_quiet x e :
  engineDiscipline e → x ∈ Timers.pending (timers e) →
  Timers.callback x ≠ SilenceElapsed →
  silenceView (fired x e) = silenceView e.
Proof.
  intros [Hwf Hheld] Hx Hcb. unfold silenceView, silenceTimers, fired.
  cbn [timers withTimers Timers.clearTimeout Timers.pending Timers.now
       accumulatedText utterances outputs silenceTimer endCallback isActive].
  rewrite filter_weaken; [done |].
  apply Forall_forall. intros y Hy Hsil Heq.
  assert (y = x) as -> by (by eapply wfTable_handle_inj). done.
Qed.

Lemma fired_silence x e :
  engineDiscipline e → x ∈ Timers.pending (timers e) →
  Timers.callback x = SilenceElapsed →
  silenceTimers (fired x e) = [].
Proof.
  intros [Hwf Hheld] Hx Hcb. unfold silenceTimers, fired.
  cbn [timers withTimers]. apply filter_none.
  apply Forall_forall. intros y Hy Hsil.
  apply elem_of_clearTimeout in Hy as [Hne Hy].
  pose proof (proj1 (Forall_forall _ _) Hheld x Hx Hcb) as Hhx.
  pose proof (proj1 (Forall_forall _ _) Hheld y Hy Hsil) as Hhy.
  congruence.
Qed.

(** A round without silence timer leaves the silence detection alone. *)
Lemma fire_quiet round : ∀ e,
  Forall (λ x, Timers.callback x ≠ SilenceElapsed) round →
  coherent round (timers e) → engineDiscipline e →
  silenceView (fire round e) = silenceView e
  ∧ engineDiscipline (fire round e)
  ∧ laterTable (timers e) (timers (fire round e)).
Proof.
  induction round as [|x round IH]; intros e Hquiet Hco Hd.
  - split_and!; [done | done | apply laterTable_refl].
  - apply Forall_cons in Hquiet as [Hx Hquiet].
    apply Forall_cons in Hco as [[Hlt Hinj] Hco].
    cbn [fire]. destruct (Timers.isPending (Timers.handle x) (timers e)) eqn:Hp.
    + apply isPending_true in Hp as (y & Hy & Heq).
      assert (y = x) as -> by (by apply Hinj).
      destruct (fired_discipline x e Hd) as [Hd1 Hl1].
      pose proof (fired_quiet x e Hd Hy Hx) as Hv1.
      destruct (runCallback_quiet (Timers.callback x) (fired x e) Hx) as (Hv2 & Hd2 & Hl2).
      fold (fired x e).
      destruct (IH (runCallback (Timers.callback x) (fired x e))) as (Hv3 & Hd3 & Hl3).
      * done.
      * eapply coherent_later; [exact Hco |]. by eapply laterTable_trans.
      * by auto.
      * split_and!; [congruence | done |].
        eapply laterTable_trans; [| exact Hl3]. by eapply laterTable_trans.
    + by apply IH.
Qed.

(** *** One millisecond *)

Lemma silenceElapsed_effect e :
  timers (silenceElapsed e) = timers e
  ∧ silenceTimer (silenceElapsed e) = silenceTimer e
  ∧ endCallback (silenceElapsed e) = endCallback e
  ∧ isActive (silenceElapsed e) = isActive e
  ∧ accumulatedText (silenceElapsed e)
    = (if isEmpty (trim (accumulatedText e)) then accumulatedText e else "")
  ∧ utterances (silenceElapsed e)
    = utterances e
      ++ (if negb (isEmpty (trim (accumulatedText e))) && endCallback e
          then [trim (accumulatedText e)] else []).
Proof.
  unfold silenceElapsed.
  destruct (isEmpty (trim (accumulatedText e))); cbn [negb andb].
  - by rewrite app_nil_r.
  - cbn [endCallback withAccumulated].
    destruct (endCallback e) eqn:Hcb.
    + rewrite utterances_emit. by cbn.
    + rewrite app_nil_r. by cbn; rewrite Hcb.
Qed.

Lemma advance_discipline e :
  engineDiscipline e → engineDiscipline (withTimers (Timers.advanceClock (timers e)) e).
Proof. by intros [[Hnodup Hfresh] Hheld]. Qed.

(** While no silence timer is due, a millisecond changes nothing for the
    silence detection but the clock. *)
Lemma tick_quiet e :
  engineDiscipline e →
  Forall (λ x, S (Timers.now (timers e)) < Timers.due x) (silenceTimers e) →
  silenceView (tick e)
  = (accumulatedText e, utterances e, silenceTimer e, silenceTimers e,
     endCallback e, isActive e, S (Timers.now (timers e)))
  ∧ engineDiscipline (tick e).
Proof.
  intros Hd Hlate. unfold tick. cbn zeta.
  set (e' := withTimers (Timers.advanceClock (timers e)) e).
  pose proof (advance_discipline e Hd) as Hd'. fold e' in Hd'.
  destruct (fire_quiet (Timers.expired (timers e')) e') as (Hv & Hd1 & _).
  - apply Forall_forall. intros x Hx Hcb.
    apply elem_of_expired in Hx as [Hx Hdue].
    assert (x ∈ silenceTimers e) as Hin by (by apply list_elem_of_filter).
    eapply Forall_forall in Hlate; [| exact Hin]. cbn in Hdue. lia.
  - apply coherent_expired, Hd'.
  - exact Hd'.
  - by rewrite Hv.
Qed.

(** When the silence timer is due, it fires, alone of its kind. *)
Lemma tick_silence e t :
  engineDiscipline e → silenceTimers e = [t] →
  Timers.due t ≤ S (Timers.now (timers e)) →
  silenceView (tick e)
  = ((if isEmpty (trim (accumulatedText e)) then accumulatedText e else ""),
     utterances e
     ++ (if negb (isEmpty (trim (accumulatedText e))) && endCallback e
         then [trim (accumulatedText e)] else []),
     silenceTimer e, [], endCallback e, isActive e, S (Timers.now (timers e)))
  ∧ engineDiscipline (tick e).
Proof.
  intros Hd Hone Hdue. unfold tick. cbn zeta.
  set (e' := withTimers (Timers.advanceClock (timers e)) e).
  pose proof (advance_discipline e Hd) as Hd'. fold e' in Hd'.
  assert (Hsil : t ∈ silenceTimers e) by (rewrite Hone; apply list_elem_of_here).
  apply list_elem_of_filter in Hsil as [Hcb Hin].
  assert (Hexp : t ∈ Timers.expired (timers e')) by (by apply elem_of_expired).
  pose proof (NoDup_expired (timers e') (wfTable_NoDup _ (discipline_wf _ Hd'))) as Hnodup.
  pose proof (coherent_expired (timers e') (discipline_wf _ Hd')) as Hco.
  assert (Hquiet : ∀ x, x ∈ Timers.expired (timers e') → x ≠ t →
                        Timers.callback x ≠ SilenceElapsed).
  { intros x Hx Hne Hs. apply elem_of_expired in Hx as [Hx _].
    assert (x ∈ silenceTimers e) as Hxs by (by apply list_elem_of_filter).
    rewrite Hone in Hxs. by apply list_elem_of_singleton in Hxs. }
  apply list_elem_of_split in Hexp as (r1 & r2 & Hsplit).
  rewrite Hsplit in Hnodup, Hco, Hquiet |- *.
  apply NoDup_app in Hnodup as (_ & Hr1 & Hr2).
  apply NoDup_cons in Hr2 as [Hr2 _].
  apply Forall_app in Hco as [Hco1 Hco2].
  apply Forall_cons in Hco2 as [_ Hco2].
  rewrite fire_app.
  destruct (fire_quiet r1 e') as (Hv1 & Hd1 & Hl1); [| done | done |].
  { apply Forall_forall. intros x Hx. apply Hquiet.
    - apply elem_of_app. by left.
    - intros ->. apply (Hr1 t Hx), list_elem_of_here. }
  set (e1 := fire r1 e') in *.
  assert (Hin1 : t ∈ Timers.pending (timers e1)).
  { assert (t ∈ silenceTimers e1) as Ht.
    { injection Hv1 as _ _ _ -> _ _ _. change (silenceTimers e') with (silenceTimers e).
      rewrite Hone. apply list_elem_of_here. }
    by apply list_elem_of_filter in Ht as [_ Ht]. }
  cbn [fire].
  rewrite (proj2 (isPending_true _ _)) by (by exists t).
  fold (fired t e1). rewrite Hcb. cbn [runCallback].
  destruct (fired_discipline t e1 Hd1) as [Hd2 Hl2].
  pose proof (fired_silence t e1 Hd1 Hin1 Hcb) as Hs2.
  destruct (silenceElapsed_effect (fired t e1)) as (Ht3 & Hf3 & Hc3 & Ha3 & Hacc3 & Hu3).
  set (e3 := silenceElapsed (fired t e1)) in *.
  assert (Hd3 : engineDiscipline e3).
  { destruct Hd2 as [Hwf2 Hheld2]. split; rewrite Ht3; [done |]. by rewrite Hf3. }
  destruct (fire_quiet r2 e3) as (Hv4 & Hd4 & _); [| | done |].
  { apply Forall_forall. intros x Hx. apply Hquiet.
    - apply elem_of_app. right. by apply list_elem_of_further.
    - by intros ->. }
  { rewrite Ht3. eapply coherent_later; [exact Hco2 |]. by eapply laterTable_trans. }
  split; [| done]. rewrite Hv4. unfold silenceView.
  unfold silenceTimers at 1. rewrite Ht3. fold (silenceTimers (fired t e1)).
  rewrite Hs2, Hacc3, Hu3, Hf3, Hc3, Ha3.
  injection Hv1 as Hacc1 Hu1 Hf1 _ Hc1 Ha1 Hn1.
  change (accumulatedText (fired t e1)) with (accumulatedText e1).
  change (utterances (fired t e1)) with (utterances e1).
  change (silenceTimer (fired t e1)) with (silenceTimer e1).
  change (endCallback (fired t e1)) with (endCallback e1).
  change (isActive (fired t e1)) with (isActive e1).
  change (Timers.now (timers (fired t e1))) with (Timers.now (timers e1)).
  by rewrite Hacc1, Hu1, Hf1, Hc1, Ha1, Hn1.
Qed.

(** *** Silence *)

Lemma silenceView_inv e a u f s c act n :
  silenceView e = (a, u, f, s, c, act, n) →
  accumulatedText e = a ∧ utterances e = u ∧ silenceTimer e = f
  ∧ silenceTimers e = s ∧ endCallback e = c ∧ isActive e = act
  ∧ Timers.now (timers e) = n.
Proof. unfold silenceView. intros H. by injection H. Qed.


Lemma silence_add a b e : silence (a + b) e = silence b (silence a e).
Proof. revert e. induction a as [|a IH]; intros e; [done |]. cbn. apply IH. Qed.

Lemma silence_quiet k : ∀ e,
  engineDiscipline e →
  Forall (λ x, Timers.now (timers e) + k < Timers.due x) (silenceTimers e) →
  silenceView (silence k e)
  = (accumulatedText e, utterances e, silenceTimer e, silenceTimers e,
     endCallback e, isActive e, Timers.now (timers e) + k)
  ∧ engineDiscipline (silence k e).
Proof.
  induction k as [|k IH]; intros e Hd Hlate.
  - cbn [silence]. by rewrite Nat.add_0_r.
  - cbn [silence].
    destruct (tick_quiet e Hd) as [Hv Hd1].
    { eapply Forall_impl; [exact Hlate |]. cbn. intros. lia. }
    apply silenceView_inv in Hv as (Hacc & Hu & Hf & Hs & Hc & Ha & Hn).
    destruct (IH (tick e) Hd1) as [Hv2 Hd2].
    { rewrite Hs, Hn. eapply Forall_impl; [exact Hlate |]. cbn. intros. lia. }
    split; [| done]. rewrite Hv2, Hacc, Hu, Hf, Hs, Hc, Ha, Hn.
    f_equal. lia.
Qed.

Lemma silence_fires duration e t :
  engineDiscipline e → silenceTimers e = [t] → 0 < duration →
  Timers.due t = Timers.now (timers e) + duration →
  silenceView (silence duration e)
  = ((if isEmpty (trim (accumulatedText e)) then accumulatedText e else ""),
     utterances e
     ++ (if negb (isEmpty (trim (accumulatedText e))) && endCallback e
         then [trim (accumulatedText e)] else []),
     silenceTimer e, [], endCallback e, isActive e,
     Timers.now (timers e) + duration)
  ∧ engineDiscipline (silence duration e).
Proof.
  intros Hd Hone Hpos Hdue.
  destruct duration as [|k]; [lia |].
  replace (S k) with (k + 1) at 1 3 by lia. rewrite silence_add.
  destruct (silence_quiet k e Hd) as [Hv Hd1].
  { rewrite Hone. apply Forall_singleton. lia. }
  apply silenceView_inv in Hv as (Hacc & Hu & Hf & Hs & Hc & Ha & Hn).
  cbn [silence].
  destruct (tick_silence (silence k e) t Hd1) as [Hv2 Hd2].
  { by rewrite Hs. }
  { rewrite Hn. lia. }
  split; [| done]. rewrite Hv2, Hacc, Hu, Hf, Hc, Ha, Hn.
  f_equal. lia.
Qed.

(** *** Results *)

Lemma onresult_effect resultIndex results e :
  engineDiscipline e →
  engineDiscipline (onresult resultIndex results e)
  ∧ silenceTimers (onresult resultIndex results e)
    = [Timers.mkTimer (Timers.nextHandle (timers e))
                      (Timers.now (timers e) + SILENCE_THRESHOLD) SilenceElapsed]
  ∧ utterances (onresult resultIndex results e) = utterances e
  ∧ endCallback (onresult resultIndex results e) = endCallback e
  ∧ isActive (onresult resultIndex results e) = isActive e
  ∧ Timers.now (timers (onresult resultIndex results e)) = Timers.now (timers e)
  ∧ accumulatedText (onresult resultIndex results e)
    = accumulate resultIndex results (accumulatedText e).
Proof.
  intros Hd. unfold onresult, accumulate.
  destruct (clearSilenceTimer_discipline e Hd) as ([Hwf1 Hheld1] & _ & _).
  destruct (clearSilenceTimer_unchanged e) as (Hacc1 & Hout1 & Hc1 & _ & Ha1 & Hn1 & Hh1).
  set (e1 := clearSilenceTimer e) in *. rewrite Hacc1.
  destruct (fold_left collect (drop resultIndex results) ("", "", accumulatedText e))
    as [[interim final] buffer].
  cbn [snd].
  set (e4 := if negb (isEmpty final) && _ then _ else _).
  assert (He4 : timers e4 = timers e1 ∧ silenceTimer e4 = silenceTimer e1
                ∧ utterances e4 = utterances e1 ∧ endCallback e4 = endCallback e1
                ∧ isActive e4 = isActive e1 ∧ accumulatedText e4 = buffer).
  { subst e4. unfold utterances.
    destruct (negb (isEmpty final) && _); destruct (negb (isEmpty interim) && _);
      cbn; rewrite ?omap_app, ?app_nil_r; done. }
  destruct He4 as (Ht4 & Hf4 & Hu4 & Hc4 & Ha4 & Hacc4).
  assert (Hd4 : engineDiscipline e4).
  { split; rewrite Ht4; [done |]. by rewrite Hf4. }
  destruct (startSilenceTimer_discipline e4 Hd4) as (Hd5 & Hs5 & _).
  destruct (startSilenceTimer_unchanged e4) as (Hacc5 & Hout5 & Hc5 & _ & Ha5 & Hn5).
  split; [done |]. split.
  { rewrite Hs5, Ht4. by rewrite Hh1, Hn1. }
  unfold utterances in *. rewrite Hout5, Hu4, Hout1.
  rewrite Hc5, Hc4, Hc1, Ha5, Ha4, Ha1, Hn5, Ht4, Hn1, Hacc5, Hacc4. done.
Qed.

Lemma trimEnd_space s : trimEnd (s +:+ " ") = trimEnd s.
Proof.
  induction s as [|c s IH]; [done |].
  rewrite append_cons. cbn [trimEnd]. by rewrite IH.
Qed.

Lemma trim_space s : trim (s +:+ " ") = trim s.
Proof.
  unfold trim. induction s as [|c s IH]; [done |].
  rewrite append_cons. cbn [trimStart].
  destruct (isWhitespace c); [exact IH |].
  by rewrite <- append_cons, trimEnd_space.
Qed.

Lemma accumulate_final transcript buffer :
  accumulate 0 [(transcript, true)] buffer = buffer +:+ transcript +:+ " ".
Proof. reflexivity. Qed.

Lemma onresult_justHeard resultIndex results e :
  engineDiscipline e → justHeard (onresult resultIndex results e).
Proof.
  intros Hd. destruct (onresult_effect resultIndex results e Hd)
    as (_ & Hs & _ & _ & _ & Hn & _).
  eexists. split; [exact Hs |]. by rewrite Hn.
Qed.

(** Less than a threshold after a result, nothing has happened. *)
Lemma justHeard_quiet k e :
  engineDiscipline e → justHeard e → k < SILENCE_THRESHOLD →
  silenceView (silence k e)
  = (accumulatedText e, utterances e, silenceTimer e, silenceTimers e,
     endCallback e, isActive e, Timers.now (timers e) + k)
  ∧ engineDiscipline (silence k e).
Proof.
  intros Hd (t & Hone & Hdue) Hk. apply silence_quiet; [done |].
  rewrite Hone. apply Forall_singleton. lia.
Qed.

(** One threshold after a result the silence timer has fired, and nothing
    more happens afterwards. *)
Lemma justHeard_fires k e :
  engineDiscipline e → justHeard e →
  silenceView (silence (SILENCE_THRESHOLD + k) e)
  = ((if isEmpty (trim (accumulatedText e)) then accumulatedText e else ""),
     utterances e
     ++ (if negb (isEmpty (trim (accumulatedText e))) && endCallback e
         then [trim (accumulatedText e)] else []),
     silenceTimer e, [], endCallback e, isActive e,
     Timers.now (timers e) + (SILENCE_THRESHOLD + k)).
Proof.
  intros Hd (t & Hone & Hdue). rewrite silence_add.
  destruct (silence_fires SILENCE_THRESHOLD e t Hd Hone) as [Hv Hd1];
    [unfold SILENCE_THRESHOLD; lia | done |].
  apply silenceView_inv in Hv as (Hacc & Hu & Hf & Hs & Hc & Ha & Hn).
  destruct (silence_quiet k (silence SILENCE_THRESHOLD e) Hd1) as [Hv2 _].
  { rewrite Hs. apply Forall_nil_2. }
  rewrite Hv2, Hacc, Hu, Hf, Hs, Hc, Ha, Hn. f_equal. lia.
Qed.

Lemma hearAll_quiet arrivals : ∀ e,
  engineDiscipline e → justHeard e →
  Forall (λ a, gap a < SILENCE_THRESHOLD) arrivals →
  engineDiscipline (hearAll arrivals e) ∧ justHeard (hearAll arrivals e)
  ∧ utterances (hearAll arrivals e) = utterances e
  ∧ endCallback (hearAll arrivals e) = endCallback e
  ∧ isActive (hearAll arrivals e) = isActive e
  ∧ accumulatedText (hearAll arrivals e) = accumulateAll arrivals (accumulatedText e).
Proof.
  induction arrivals as [|a arrivals IH]; intros e Hd Hheard Hgaps; [done |].
  apply Forall_cons in Hgaps as [Hgap Hgaps].
  change (hearAll (a :: arrivals) e) with (hearAll arrivals (hear e a)).
  change (accumulateAll (a :: arrivals) (accumulatedText e))
    with (accumulateAll arrivals
            (accumulate (resultIndex a) (results a) (accumulatedText e))).
  destruct (justHeard_quiet (gap a) e Hd Hheard Hgap) as [Hv Hd1].
  apply silenceView_inv in Hv as (Hacc & Hu & Hf & Hs & Hc & Ha & Hn).
  destruct (onresult_effect (resultIndex a) (results a) (silence (gap a) e) Hd1)
    as (Hd2 & _ & Hu2 & Hc2 & Ha2 & _ & Hacc2).
  pose proof (onresult_justHeard (resultIndex a) (results a) _ Hd1) as Hheard2.
  fold (hear e a) in Hd2, Hu2, Hc2, Ha2, Hacc2, Hheard2.
  destruct (IH _ Hd2 Hheard2 Hgaps) as (Hd3 & Hheard3 & Hu3 & Hc3 & Ha3 & Hacc3).
  split_and!; [done | done | | | |].
  - by rewrite Hu3, Hu2, Hu.
  - by rewrite Hc3, Hc2, Hc.
  - by rewrite Ha3, Ha2, Ha.
  - by rewrite Hacc3, Hacc2, Hacc.
Qed.

(** C4. The silence threshold is 1000 ms. Every recognition result leaves
    exactly one silence timer alive, due 1000 ms later. When that timer
    fires on a buffer that is not blank and an end-of-utterance callback is
    registered, the callback is called once with the trimmed buffer, the
    buffer is emptied, and the engine stays active, its recognition session
    untouched. For results that follow one another by less than 1000 ms no
    end-of-utterance callback is called, neither between them nor during
    the first 999 ms after the last; from 1000 ms after the last one, and
    for ever if nothing else arrives, exactly one has been called, with the
    trimmed text accumulated over all of them. For a single final result on
    an empty buffer this text is the trimmed transcript. *)
Theorem silence_detection :
  SILENCE_THRESHOLD = 1000
  ∧ (∀ e resultIndex results,
       engineDiscipline e →
       silenceTimers (onresult resultIndex results e)
       = [Timers.mkTimer (Timers.nextHandle (timers e))
                         (Timers.now (timers e) + 1000) SilenceElapsed])
  ∧ (∀ e,
       trim (accumulatedText e) ≠ "" → endCallback e = true →
       outputs (silenceElapsed e)
       = outputs e ++ [EndOfUtterance (trim (accumulatedText e))]
       ∧ accumulatedText (silenceElapsed e) = ""
       ∧ isActive (silenceElapsed e) = isActive e
       ∧ timers (silenceElapsed e) = timers e)
  ∧ (∀ e first arrivals,
       engineDiscipline e → Forall (λ a, gap a < 1000) arrivals →
       let heard :=
         hearAll arrivals (onresult (resultIndex first) (results first) e) in
       let buffer := accumulateAll (first :: arrivals) (accumulatedText e) in
       accumulatedText heard = buffer
       ∧ utterances heard = utterances e
       ∧ (∀ k, k < 1000 → utterances (silence k heard) = utterances e)
       ∧ (endCallback e = true → trim buffer ≠ "" →
          ∀ k,
            utterances (silence (1000 + k) heard) = utterances e ++ [trim buffer]
            ∧ accumulatedText (silence (1000 + k) heard) = ""
            ∧ isActive (silence (1000 + k) heard) = isActive e))
  ∧ (∀ e transcript,
       engineDiscipline e → endCallback e = true → accumulatedText e = "" →
       trim transcript ≠ "" →
       ∀ k,
         utterances (silence (1000 + k) (onresult 0 [(transcript, true)] e))
         = utterances e ++ [trim transcript]).
Proof.
  assert (Hmain : ∀ e first arrivals,
       engineDiscipline e → Forall (λ a, gap a < 1000) arrivals →
       let heard :=
         hearAll arrivals (onresult (resultIndex first) (results first) e) in
       let buffer := accumulateAll (first :: arrivals) (accumulatedText e) in
       accumulatedText heard = buffer
       ∧ utterances heard = utterances e
       ∧ (∀ k, k < 1000 → utterances (silence k heard) = utterances e)
       ∧ (endCallback e = true → trim buffer ≠ "" →
          ∀ k,
            utterances (silence (1000 + k) heard) = utterances e ++ [trim buffer]
            ∧ accumulatedText (silence (1000 + k) heard) = ""
            ∧ isActive (silence (1000 + k) heard) = isActive e)).
  { intros e first arrivals Hd Hgaps heard buffer.
    destruct (onresult_effect (resultIndex first) (results first) e Hd)
      as (Hd1 & _ & Hu1 & Hc1 & Ha1 & _ & Hacc1).
    pose proof (onresult_justHeard (resultIndex first) (results first) e Hd) as Hheard1.
    destruct (hearAll_quiet arrivals _ Hd1 Hheard1 Hgaps)
      as (Hd2 & Hheard2 & Hu2 & Hc2 & Ha2 & Hacc2).
    fold heard in Hd2, Hheard2, Hu2, Hc2, Ha2, Hacc2.
    assert (Hbuffer : accumulatedText heard = buffer).
    { rewrite Hacc2, Hacc1. reflexivity. }
    split; [done |]. split; [by rewrite Hu2 |]. split.
    - intros k Hk. destruct (justHeard_quiet k heard Hd2 Hheard2 Hk) as [Hv _].
      apply silenceView_inv in Hv as (_ & Hu & _ & _ & _ & _ & _).
      by rewrite Hu, Hu2.
    - intros Hcb Hblank k.
      pose proof (justHeard_fires k heard Hd2 Hheard2) as Hv.
      apply silenceView_inv in Hv as (Hacc & Hu & _ & _ & _ & Ha & _).
      change (1000 + k) with (SILENCE_THRESHOLD + k).
      rewrite Hacc, Hu, Ha, Hbuffer, Hc2, Hc1, Hcb, Hu2, Hu1, Ha2, Ha1.
      apply isEmpty_false in Hblank. by rewrite Hblank. }
  split; [done |]. split.
  { intros e resultIndex results Hd.
    by destruct (onresult_effect resultIndex results e Hd) as (_ & Hs & _). }
  split.
  { intros e Hblank Hcb. unfold silenceElapsed.
    apply isEmpty_false in Hblank. rewrite Hblank. cbn [negb].
    cbn [endCallback withAccumulated]. by rewrite Hcb. }
  split; [exact Hmain |].
  intros e transcript Hd Hcb Hempty Hblank k.
  destruct (Hmain e (mkArrival 0 0 [(transcript, true)]) [] Hd (Forall_nil_2 _))
    as (_ & _ & _ & Hfires).
  cbn [hearAll fold_left resultIndex results accumulateAll] in Hfires.
  rewrite accumulate_final, Hempty in Hfires.
  change ("" +:+ transcript +:+ " ") with (transcript +:+ " ") in Hfires.
  rewrite trim_space in Hfires.
  by destruct (Hfires Hcb Hblank k) as (Hu & _).
Qed.

(** The theorem at an engine that has just been started, for a single
    final result followed by 1000 ms of silence. *)
Lemma silence_detection_witness :
  utterances
    (silence (1000 + 0)
       (onresult 0 [("hello world", true)] (start false (onEnd initial))))
  = ["hello world"].
Proof.
  apply (proj2 (proj2 (proj2 (proj2 silence_detection)))
           (start false (onEnd initial)) "hello world").
  - split; [split; [apply NoDup_nil_2 | apply Forall_nil_2] | apply Forall_nil_2].
  - reflexivity.
  - reflexivity.
  - by vm_compute.
Defined.
End SilenceDetection.

(** ** Realtime speech engine: errors *)

Section EngineErrors.
Import JsString WebSpeechEngine Spec.

Lemma engine_tick_waiting e t :
  Timers.pending (timers e) = [t] → S (Timers.now (timers e)) < Timers.due t →
  tick e = withTimers (Timers.elapse 1 (timers e)) e.
Proof.
  destruct e as [act tcb ecb rcb acc held [now next pend] outs]. cbn. intros -> Hlate.
  unfold tick, Timers.expired, Timers.advanceClock, Timers.elapse, withTimers.
  cbn [timers Timers.now Timers.nextHandle Timers.pending isActive transcriptCallback
       endCallback errorCallback accumulatedText silenceTimer outputs].
  rewrite filter_cons_False, filter_nil by (cbn; lia).
  cbn [foldr fire]. do 2 f_equal. lia.
Qed.

Lemma engine_tick_fires e t :
  Timers.pending (timers e) = [t] → Timers.due t ≤ S (Timers.now (timers e)) →
  tick e
  = runCallback (Timers.callback t)
      (withTimers (Timers.mkTable (S (Timers.now (timers e)))
                                  (Timers.nextHandle (timers e)) []) e).
Proof.
  destruct e as [act tcb ecb rcb acc held [now next pend] outs]. cbn. intros -> Hdue.
  unfold tick, Timers.expired, Timers.advanceClock.
  cbn [timers withTimers Timers.now Timers.nextHandle Timers.pending].
  rewrite filter_cons_True, filter_nil by (cbn; lia).
  cbn [foldr Timers.insertByDue fire].
  unfold Timers.isPending at 1.
  cbn [timers withTimers Timers.pending existsb]. rewrite Nat.eqb_refl.
  cbn [orb]. by rewrite clearTimeout_single.
Qed.

Lemma engine_waiting k : ∀ e t,
  Timers.pending (timers e) = [t] → Timers.now (timers e) + k < Timers.due t →
  silence k e = withTimers (Timers.elapse k (timers e)) e.
Proof.
  induction k as [|k IH]; intros e t Hp Hlate.
  - destruct e as [act tcb ecb rcb acc held [now next pend] outs].
    unfold withTimers, Timers.elapse. cbn. do 2 f_equal. lia.
  - cbn [silence]. rewrite (engine_tick_waiting e t) by (done || lia).
    rewrite (IH _ t); cbn; [| done | lia].
    unfold withTimers, Timers.elapse. cbn. do 2 f_equal. lia.
Qed.

(** The only timer of the table fires when its delay has passed. *)
Lemma engine_fires delay e t :
  0 < delay → Timers.pending (timers e) = [t] →
  Timers.due t = Timers.now (timers e) + delay →
  silence delay e
  = runCallback (Timers.callback t)
      (withTimers (Timers.mkTable (Timers.now (timers e) + delay)
                                  (Timers.nextHandle (timers e)) []) e).
Proof.
  intros Hpos Hp Hdue. destruct delay as [|k]; [lia |].
  replace (S k) with (k + 1) at 1 by lia. rewrite silence_add.
  rewrite (engine_waiting k e t) by (done || lia).
  cbn [silence]. rewrite (engine_tick_fires _ t); cbn; [| done | lia].
  unfold withTimers. cbn. do 3 f_equal. lia.
Qed.

Lemma onerror_unfold error e :
  onerror error e
  = if bool_decide (error = "no-speech") then e
    else
      let reported := if errorCallback e then emit (ErrorReported error) e else e in
      if bool_decide (error = "network") || bool_decide (error = "audio-capture")
      then (setTimeout RestartIfActive 1000 reported).2
      else reported.
Proof. reflexivity. Qed.

Lemma restartable_cases error :
  error = "network" ∨ error = "audio-capture" →
  bool_decide (error = "no-speech") = false
  ∧ bool_decide (error = "network") || bool_decide (error = "audio-capture") = true.
Proof. intros [-> | ->]; by vm_compute. Qed.

Lemma engine_idle k : ∀ e,
  Timers.pending (timers e) = [] →
  silence k e = withTimers (Timers.elapse k (timers e)) e.
Proof.
  induction k as [|k IH]; intros e Hp.
  - destruct e as [act tcb ecb rcb acc held [now next pend] outs].
    unfold withTimers, Timers.elapse. cbn. do 2 f_equal. lia.
  - cbn [silence].
    assert (tick e = withTimers (Timers.elapse 1 (timers e)) e) as ->.
    { destruct e as [act tcb ecb rcb acc held [now next pend] outs].
      cbn in Hp. subst pend.
      unfold tick, Timers.expired, Timers.advanceClock, Timers.elapse, withTimers.
      cbn. do 2 f_equal. lia. }
    rewrite IH by done.
    unfold withTimers, Timers.elapse. cbn. do 2 f_equal. lia.
Qed.

(** The engine after a network or audio-capture error, when no other
    timer was pending. *)
Lemma onerror_restartable error e :
  error = "network" ∨ error = "audio-capture" →
  Timers.pending (timers e) = [] →
  onerror error e
  = mkEngine (isActive e) (transcriptCallback e) (endCallback e) (errorCallback e)
             (accumulatedText e) (silenceTimer e)
             (Timers.mkTable (Timers.now (timers e)) (S (Timers.nextHandle (timers e)))
                [Timers.mkTimer (Timers.nextHandle (timers e))
                                (Timers.now (timers e) + 1000) RestartIfActive])
             (outputs e ++ (if errorCallback e then [ErrorReported error] else [])).
Proof.
  intros Herr Hp.
  destruct (restartable_cases error Herr) as [Hno Hyes].
  rewrite onerror_unfold, Hno, Hyes. cbn zeta.
  destruct e as [act tcb ecb rcb acc held [now next pend] outs].
  cbn in Hp. subst pend.
  destruct rcb; cbn; by rewrite ?app_nil_r.
Qed.

(** After a network or audio-capture error on an engine without other
    timers: the error is reported if a callback is registered, nothing
    happens for 1000 ms, then the session is stopped if the engine is still
    active, and started again 100 ms later. *)
Lemma restart_after_error error e :
  error = "network" ∨ error = "audio-capture" →
  Timers.pending (timers e) = [] →
  let reported := if errorCallback e then [ErrorReported error] else [] in
  (∀ k, k < 1000 → outputs (silence k (onerror error e)) = outputs e ++ reported)
  ∧ outputs (silence 1000 (onerror error e))
    = outputs e ++ reported ++ (if isActive e then [RecognitionStop] else [])
  ∧ outputs (silence 1100 (onerror error e))
    = outputs e ++ reported
      ++ (if isActive e then [RecognitionStop; RecognitionStart] else []).
Proof.
  intros Herr Hp reported. subst reported.
  rewrite (onerror_restartable error e Herr Hp).
  destruct e as [act tcb ecb rcb acc held [now next pend] outs].
  cbn in Hp. subst pend.
  cbn [isActive transcriptCallback endCallback errorCallback accumulatedText
       silenceTimer timers outputs Timers.now Timers.nextHandle].
  set (reported := if rcb then [ErrorReported error] else []).
  set (t1 := Timers.mkTimer next (now + 1000) RestartIfActive).
  set (e1 := mkEngine act tcb ecb rcb acc held
                      (Timers.mkTable now (S next) [t1]) (outs ++ reported)).
  assert (Hfired : silence 1000 e1
                   = runCallback RestartIfActive
                       (withTimers (Timers.mkTable (now + 1000) (S next) []) e1)).
  { apply (engine_fires 1000 e1 t1); [lia | reflexivity | reflexivity]. }
  split; [| split].
  - intros k Hk. rewrite (engine_waiting k e1 t1); [done | done |].
    subst e1 t1. unfold Timers.now, timers, Timers.due. lia.
  - rewrite Hfired. subst e1. destruct act; cbn.
    + by rewrite <- app_assoc.
    + by rewrite app_nil_r.
  - replace 1100 with (1000 + 100) by lia. rewrite silence_add, Hfired.
    set (e2 := runCallback RestartIfActive _).
    destruct act.
    + assert (He2 : e2 = mkEngine true tcb ecb rcb acc held
                           (Timers.mkTable (now + 1000) (S (S next))
                              [Timers.mkTimer (S next) (now + 1000 + 100)
                                              StartRecognition])
                           ((outs ++ reported) ++ [RecognitionStop]))
        by reflexivity.
      clearbody e2. subst e2.
      rewrite (engine_fires 100 _
                 (Timers.mkTimer (S next) (now + 1000 + 100) StartRecognition));
        [| lia | reflexivity | reflexivity].
      cbn. by rewrite <- !app_assoc.
    + assert (He2 : e2 = mkEngine false tcb ecb rcb acc held
                           (Timers.mkTable (now + 1000) (S next) [])
                           (outs ++ reported))
        by reflexivity.
      clearbody e2. subst e2.
      rewrite engine_idle by reflexivity. cbn. by rewrite app_nil_r.
Qed.

(** C5, as the code has it. A ['no-speech'] error changes nothing: it is
    not forwarded and sets no timer. Every other error, ['network'] and
    ['audio-capture'] included, is forwarded to the error callback when one
    is registered. ['network'] and ['audio-capture'] moreover set a timer
    for 1000 ms later whose callback restarts the session if the engine is
    then active (it stops the session and starts it again 100 ms later);
    the other errors set no timer. *)
Theorem error_policy :
  (∀ e, onerror "no-speech" e = e)
  ∧ (∀ e error,
       error ≠ "no-speech" →
       outputs (onerror error e)
       = outputs e ++ (if errorCallback e then [ErrorReported error] else []))
  ∧ (∀ e error,
       error = "network" ∨ error = "audio-capture" →
       Timers.pending (timers (onerror error e))
       = Timers.pending (timers e)
         ++ [Timers.mkTimer (Timers.nextHandle (timers e))
                            (Timers.now (timers e) + 1000) RestartIfActive])
  ∧ (∀ e error,
       error ≠ "network" → error ≠ "audio-capture" →
       timers (onerror error e) = timers e)
  ∧ (∀ e,
       runCallback RestartIfActive e = (if isActive e then restart e else e)
       ∧ outputs (restart e) = outputs e ++ [RecognitionStop]
       ∧ Timers.pending (timers (restart e))
         = Timers.pending (timers e)
           ++ [Timers.mkTimer (Timers.nextHandle (timers e))
                              (Timers.now (timers e) + 100) StartRecognition])
  ∧ (∀ e error,
       error = "network" ∨ error = "audio-capture" →
       Timers.pending (timers e) = [] →
       let reported := if errorCallback e then [ErrorReported error] else [] in
       (∀ k, k < 1000 → outputs (silence k (onerror error e)) = outputs e ++ reported)
       ∧ outputs (silence 1000 (onerror error e))
         = outputs e ++ reported ++ (if isActive e then [RecognitionStop] else [])
       ∧ outputs (silence 1100 (onerror error e))
         = outputs e ++ reported
           ++ (if isActive e then [RecognitionStop; RecognitionStart] else [])).
Proof.
  split; [done |]. split.
  { intros e error Hne. rewrite onerror_unfold.
    rewrite bool_decide_eq_false_2 by done. cbn zeta.
    destruct (bool_decide (error = "network") || bool_decide (error = "audio-capture"));
      destruct (errorCallback e); cbn; by rewrite ?app_nil_r. }
  split.
  { intros e error Herr.
    destruct (restartable_cases error Herr) as [Hno Hyes].
    rewrite onerror_unfold, Hno, Hyes. cbn zeta.
    by destruct (errorCallback e). }
  split.
  { intros e error Hnet Hcap. rewrite onerror_unfold.
    rewrite (bool_decide_eq_false_2 (error = "network")) by done.
    rewrite (bool_decide_eq_false_2 (error = "audio-capture")) by done.
    cbn [orb]. cbn zeta.
    destruct (bool_decide (error = "no-speech")); [done |].
    by destruct (errorCallback e). }
  split; [by intros e |].
  intros e error. apply restart_after_error.
Qed.

(** The theorem at a network error on an engine that has just been
    started with an error callback. *)
Lemma error_policy_witness :
  outputs (silence 1100 (onerror "network" (start false (onError initial))))
  = [RecognitionStart; ErrorReported "network"; RecognitionStop; RecognitionStart].
Proof.
  apply (proj2 (proj2 (proj2 (proj2 (proj2 error_policy))))
           (start false (onError initial)) "network").
  - by left.
  - reflexivity.
Defined.

(** C5 as stated does not hold: a ['network'] error is forwarded to the
    registered error callback. *)
Lemma network_error_is_forwarded :
  let e := start false (onError initial) in
  reportedErrors e = []
  ∧ reportedErrors (onerror "network" e) = ["network"]
  ∧ reportedErrors (onerror "audio-capture" e) = ["audio-capture"].
Proof. by vm_compute. Qed.
End EngineErrors.

(** ** Motion manager *)

Section MotionTransitions.
Import MotionMapping MotionManager Spec.


Lemma playMotion_attached name lp o m x :
  model m = Some x →
  suspended (playMotion name lp o m)
  = suspended m ++ [mkActivation (nextAid m) o name lp MotionPromise]
  ∧ motionCalls (playMotion name lp o m) = motionCalls m ++ [(name, lp)]
  ∧ nextAid (playMotion name lp o m) = S (nextAid m).
Proof. unfold playMotion. by intros ->. Qed.




(** *** [requestGesture] *)


(** Otherwise a transition begins. *)
Lemma requestGesture_idle g m :
  isTransitioning m = false →
  ∃ w,
    let counter := default 0 (gestureCounter m !! g) in
    let clip := getMotionForGesture g counter in
    isTransitioning (requestGesture g m) = true
    ∧ motionQueue (requestGesture g m) = motionQueue m
    ∧ gestureLog (requestGesture g m) = gestureLog m ++ [g]
    ∧ gestureCounter (requestGesture g m) = <[g := counter + 1]> (gestureCounter m)
    ∧ suspended (requestGesture g m)
      = suspended m ++ [mkActivation (nextAid m) ByRequestGesture clip (isLooped g) w]
    ∧ nextAid (requestGesture g m) = S (nextAid m)
    ∧ model (requestGesture g m) = model m
    ∧ (is_Some (model m) →
       w = MotionPromise
       ∧ motionCalls (requestGesture g m) = motionCalls m ++ [(clip, isLooped g)]).
Proof.
  intros Hidle. unfold requestGesture. rewrite Hidle.
  destruct m as [md cur st tr q held cnt tm susp next mcalls glog].
  cbn in Hidle. subst tr.
  destruct md as [x|].
  - exists MotionPromise. destruct held, g; cbn; split_and!; try done; by intros _.
  - exists Resumption. destruct held, g; cbn; split_and!; try done;
      intros [? ?]; done.
Qed.






(** *** The end of a transition *)

Lemma motionStarted_effect name lp m :
  suspended (motionStarted name lp m) = suspended m
  ∧ nextAid (motionStarted name lp m) = nextAid m
  ∧ isTransitioning (motionStarted name lp m) = isTransitioning m
  ∧ motionQueue (motionStarted name lp m) = motionQueue m
  ∧ gestureLog (motionStarted name lp m) = gestureLog m
  ∧ gestureCounter (motionStarted name lp m) = gestureCounter m
  ∧ motionCalls (motionStarted name lp m) = motionCalls m
  ∧ model (motionStarted name lp m) = model m.
Proof.
  unfold motionStarted, scheduleReturnToIdle. cbn zeta.
  destruct (negb lp && _); [| done].
  by destruct (returnToIdleTimeout _).
Qed.








(** *** Timers *)



(** *** Histories *)





(** *** Three requests while the first is in transition *)


Lemma getMotionForGesture_mapped g n : getMotionForGesture g n ∈ MOTION_MAPPING g.
Proof. apply list_elem_of_lookup. eexists. apply getMotionForGesture_lookup. Qed.






End MotionTransitions.

(** ** Synchronization coordinator *)

Section TeachingSequences.
Import SynchronizationCoordinator Spec.

(** *** Finding the activation to resume *)

Lemma find_last id (l : list Activation) a :
  Forall (λ b, aid b < id) l → aid a = id →
  List.find (λ b, aid b =? id) (l ++ [a]) = Some a.
Proof.
  intros Hl Ha. induction Hl as [|b l Hb Hl IH]; cbn.
  - by rewrite Ha, Nat.eqb_refl.
  - destruct (Nat.eqb_spec (aid b) id); [lia | exact IH].
Qed.

Lemma without_last id (l : list Activation) a :
  Forall (λ b, aid b < id) l → aid a = id → without id (l ++ [a]) = l.
Proof.
  intros Hl Ha. unfold without. rewrite filter_app, filter_cons_False, filter_nil by tauto.
  rewrite app_nil_r. induction Hl as [|b l Hb Hl IH]; [done |].
  rewrite filter_cons_True by lia. by rewrite IH.
Qed.

Lemma settle_last id result c l a :
  suspended c = l ++ [a] → Forall (λ b, aid b < id) l → aid a = id →
  settle id result c
  = match resume a result (withSuspended l c) with
    | Some c' => c'
    | None => c
    end.
Proof.
  intros Hs Hl Ha. unfold settle.
  by rewrite Hs, find_last, without_last.
Qed.

Lemma callsSince_app c c' (l : list Call) :
  calls c' = calls c ++ l → callsSince c c' = l.
Proof. unfold callsSince. intros ->. by rewrite drop_app_length. Qed.

(** *** The guard *)

Lemma executeTeachingSequence_busy ev c :
  isExecuting c = true →
  executeTeachingSequence ev c = withQueue (eventQueue c ++ [ev]) c.
Proof. unfold executeTeachingSequence. by intros ->. Qed.

Lemma executeTeachingSequence_idle ev c :
  isExecuting c = false →
  isExecuting (executeTeachingSequence ev c) = true
  ∧ eventQueue (executeTeachingSequence ev c) = eventQueue c
  ∧ suspended (executeTeachingSequence ev c)
    = suspended c ++ [mkActivation (nextAid c) ev AtTextToSpeech]
  ∧ nextAid (executeTeachingSequence ev c) = S (nextAid c)
  ∧ started (executeTeachingSequence ev c) = started c ++ [ev]
  ∧ orphans (executeTeachingSequence ev c) = orphans c
  ∧ calls (executeTeachingSequence ev c)
    = calls c ++ publish ev ++ [TextToSpeech (fullText ev)]
  ∧ isSpeaking (store (executeTeachingSequence ev c)) = isSpeaking (store c)
  ∧ isTeaching (store (executeTeachingSequence ev c)) = isTeaching (store c).
Proof.
  intros Hidle. unfold executeTeachingSequence, publish. rewrite Hidle.
  destruct (images ev); cbn; rewrite <- ?app_assoc; by split_and!.
Qed.

(** *** What each block does to the control state *)

Lemma gestureLoop_control i segs c :
  control (gestureLoop i segs c).1 = control c.
Proof.
  revert i c. induction segs as [|segment rest IH]; intros i c; [done |].
  cbn [gestureLoop]. destruct (gesture segment); [done |]. by rewrite IH.
Qed.

Lemma resumeGestures_control task c :
  control (resumeGestures task c).1 = control c.
Proof.
  unfold resumeGestures. destruct (remaining task); [done |].
  destruct (gpoint task); [done |]. apply gestureLoop_control.
Qed.

Lemma suspend_control id ev p c :
  control (suspend id ev p c)
  = (isExecuting c, eventQueue c, suspended c ++ [mkActivation id ev p],
     nextAid c, started c).
Proof. done. Qed.

Lemma startPlayback_control id ev audioUrl c :
  ∃ p, control (startPlayback id ev audioUrl c)
       = (isExecuting c, eventQueue c, suspended c ++ [mkActivation id ev p],
          nextAid c, started c).
Proof.
  unfold startPlayback.
  pose proof (gestureLoop_control 0 (segments ev) c) as Hloop.
  destruct (gestureLoop 0 (segments ev) c) as [c1 gestures]. cbn in Hloop.
  exists (AtPlayAudio gestures).
  unfold control in *. injection Hloop as H1 H2 H3 H4 H5.
  cbn. by rewrite H1, H2, H3, H4, H5.
Qed.

Lemma catch_control id ev c :
  control (catch id ev c)
  = (isExecuting c, eventQueue c,
     suspended c ++ [mkActivation id ev AtReturnToIdleInCatch],
     nextAid c, started c).
Proof. done. Qed.

Lemma startReturnToIdle_control id ev c :
  control (startReturnToIdle id ev c)
  = (isExecuting c, eventQueue c,
     suspended c ++ [mkActivation id ev AtReturnToIdle],
     nextAid c, started c).
Proof. done. Qed.

Lemma finally_control c : control (finally c) = completed c.
Proof.
  destruct c as [executing queue i s susp orph n ks st].
  unfold finally, completed, control. cbn.
  destruct queue as [|next rest]; [done |].
  unfold executeTeachingSequence. cbn. by destruct (images next).
Qed.

Lemma resume_control a result c c' :
  resume a result c = Some c' →
  (atLastAwait a result = false
   ∧ ∃ p, control c'
          = (isExecuting c, eventQueue c,
             suspended c ++ [mkActivation (aid a) (event a) p],
             nextAid c, started c))
  ∨ (atLastAwait a result = true ∧ control c' = completed c).
Proof.
  unfold resume, atLastAwait. intros Hresume.
  destruct (point a) as [| |gestures|task| |], result as [audioUrl|];
    try destruct gestures as [task'|]; simplify_eq;
    try (right; split; [done |]; by rewrite finally_control);
    left; (split; [done |]);
    try apply startPlayback_control; by eexists.
Qed.

Lemma settleOrphan_control k c : control (settleOrphan k c) = control c.
Proof.
  unfold settleOrphan. destruct (orphans c !! k) as [task|]; [| done].
  pose proof (resumeGestures_control task (withOrphans (delete k (orphans c)) c))
    as Hresume.
  destruct (resumeGestures task _) as [c1 gestures]. cbn in Hresume.
  by destruct gestures.
Qed.

(** *** The discipline of single flight *)











(** *** Completion *)




Lemma settle_fresh id result ev p c :
  Forall (λ b, aid b < id) (suspended c) →
  settle id result (suspend id ev p c)
  = match resume (mkActivation id ev p) result c with
    | Some c' => c'
    | None => suspend id ev p c
    end.
Proof.
  intros Hbelow.
  rewrite (settle_last id result _ (suspended c) (mkActivation id ev p)); [| done..].
  by destruct c.
Qed.

(** *** Synthesis that fails twice *)

(** C1. From a coordinator that is not executing, a teaching sequence
    whose synthesis is rejected and whose retry is rejected too calls the
    synthesis exactly twice, requests no gesture, no delay and no audio
    playback, writes the fixed error message to the left panel, and ends
    with [isTeaching], [isSpeaking] and [isExecuting] all false. The calls
    made are, in order: the text (and the images and the glance to the
    left when there are images), the two syntheses, speaking off, return
    to idle, gaze to the centre, the error message, teaching off. The
    sequence ends when the return to idle that the [catch] block awaits is
    fulfilled, as the motion manager, which catches its own errors, always
    does. *)
Theorem synthesis_failure_aborts (ev : SynchronizationEvent) (c : Coordinator)
    (returned : string) :
  isExecuting c = false → eventQueue c = [] → wellNumbered c →
  let id := nextAid c in
  let final :=
    settle id (Some returned)
      (settle id None (settle id None (executeTeachingSequence ev c))) in
  callsSince c final
  = publish ev
    ++ [TextToSpeech (fullText ev); TextToSpeech (fullText ev);
        SetSpeaking false; MotionReturnToIdle; LookCenter;
        SetLeftPanelContent ERROR_MESSAGE; SetIsTeaching false]
  ∧ List.filter isTextToSpeech (callsSince c final)
    = [TextToSpeech (fullText ev); TextToSpeech (fullText ev)]
  ∧ List.filter isPlayback (callsSince c final) = []
  ∧ leftPanelContent (store final) = ERROR_MESSAGE
  ∧ isTeaching (store final) = false
  ∧ isSpeaking (store final) = false
  ∧ isExecuting final = false
  ∧ suspended final = suspended c.
Proof.
  intros Hidle Hqueue Hn id final. subst id final.
  unfold wellNumbered in Hn.
  unfold executeTeachingSequence. rewrite Hidle. cbv zeta.
  rewrite settle_fresh by (destruct (images ev); exact Hn).
  cbn [resume point event aid].
  rewrite settle_fresh by (destruct (images ev); exact Hn).
  cbn [resume point event aid]. unfold catch.
  rewrite settle_fresh by (destruct (images ev); exact Hn).
  cbn [resume point event aid].
  destruct c as [executing queue i s susp orph n ks st].
  cbn in Hidle, Hqueue. subst executing queue.
  unfold callsSince, publish, finally.
  destruct (images ev) as [|url urls]; cbn;
    rewrite <- !app_assoc; cbn; rewrite !drop_app_length; done.
Qed.

(** The theorem at the initial coordinator, for a text with one image. *)
Lemma synthesis_failure_aborts_witness :
  List.filter isTextToSpeech
    (calls
       (run [ExecuteTeachingSequence (mkEvent [] "Hello." ["sun.png"]);
             Settle 0 None; Settle 0 None; Settle 0 (Some "")] initial))
  = [TextToSpeech "Hello."; TextToSpeech "Hello."].
Proof.
  destruct (synthesis_failure_aborts
              (mkEvent [] "Hello." ["sun.png"]) initial "")
    as (_ & Hsyntheses & _).
  - reflexivity.
  - reflexivity.
  - constructor.
  - exact Hsyntheses.
Defined.

(** *** Single flight *)




End TeachingSequences.

(** ** Gesture router: further properties *)

Section RouterFacts.
Import JsString GestureRouter Spec Props.

(** *** Trimming *)

Lemma trimStart_head s :
  trimStart s = ""
  ∨ ∃ c t, trimStart s = String c t ∧ isWhitespace c = false.
Proof.
  induction s as [|c s IH]; cbn; [by left |].
  destruct (isWhitespace c) eqn:Hc; [done |]. right. by exists c, s.
Qed.

Lemma trimEnd_head c t :
  isWhitespace c = false → ∃ u, trimEnd (String c t) = String c u.
Proof.
  intros Hc. cbn. destruct (trimEnd t); [| by eexists].
  rewrite Hc. by eexists.
Qed.

Lemma trimEnd_idempotent s : trimEnd (trimEnd s) = trimEnd s.
Proof.
  induction s as [|c s IH]; [done |]. cbn.
  destruct (trimEnd s) as [|d u] eqn:Hs.
  - destruct (isWhitespace c) eqn:Hc; [done |]. cbn. by rewrite Hc.
  - cbn [trimEnd]. cbn [trimEnd] in IH.
    destruct (match trimEnd u with
              | "" => if isWhitespace d then "" else String d ""
              | String a s0 => String d (String a s0)
              end) eqn:Hu; [done |].
    by rewrite <- IH.
Qed.

Lemma trimStart_fixed c t :
  isWhitespace c = false → trimStart (String c t) = String c t.
Proof. intros Hc. cbn. by rewrite Hc. Qed.

Lemma trim_idempotent s : trim (trim s) = trim s.
Proof.
  unfold trim. destruct (trimStart_head s) as [-> | (c & t & -> & Hc)]; [done |].
  destruct (trimEnd_head c t Hc) as [u Hu]. rewrite Hu.
  rewrite trimStart_fixed by done. rewrite <- Hu. apply trimEnd_idempotent.
Qed.

Lemma trimStart_blank s : allChars isWhitespace s = true → trimStart s = "".
Proof.
  induction s as [|c s IH]; [done |]. cbn.
  intros [Hc Hs]%andb_true_iff. rewrite Hc. by apply IH.
Qed.

(** *** Texts without a sentence terminator *)

Lemma sentencesOf_unterminated text :
  allChars (λ c, negb (isTerminator c)) text = true →
  sentencesOf text = [text].
Proof.
  intros Htext. unfold sentencesOf, matchSentences.
  by rewrite scan_unterminated.
Qed.

Lemma whitespace_not_terminator c :
  isWhitespace c = true → isTerminator c = false.
Proof.
  unfold isWhitespace, isTerminator. cbn zeta. intros Hc.
  destruct (Nat.eqb_spec (code c) 46) as [H46|_];
    [rewrite H46 in Hc; done |].
  destruct (Nat.eqb_spec (code c) 33) as [H33|_];
    [rewrite H33 in Hc; done |].
  destruct (Nat.eqb_spec (code c) 63) as [H63|_];
    [rewrite H63 in Hc; done |].
  done.
Qed.

Lemma blank_unterminated s :
  allChars isWhitespace s = true →
  allChars (λ c, negb (isTerminator c)) s = true.
Proof.
  induction s as [|c s IH]; [done |]. cbn.
  intros [Hc Hs]%andb_true_iff.
  rewrite (whitespace_not_terminator c Hc). by apply IH.
Qed.

(** *** The segments that the parser builds *)

Lemma classify_wellRouted s : s ≠ "" → trim s = s → wellRouted (classify s).
Proof.
  intros Hs Htrim. unfold wellRouted. rewrite classify_content.
  split_and!; [done | done | |].
  - unfold classify, rules. cbn [List.find applies segmentFor].
    destruct (isEmphasis s); [done |]. destruct (isWarning s); [done |].
    by destruct (hasImageReference s).
  - unfold classify, rules. cbn [List.find applies segmentFor].
    destruct (isEmphasis s); [by left |].
    destruct (isWarning s); [by right; left |].
    destruct (hasImageReference s); [by right; right; left |].
    by right; right; right.
Qed.

Lemma parseBySpec_wellRouted text : Forall wellRouted (parseBySpec text).
Proof.
  unfold parseBySpec.
  apply Forall_fmap, Forall_forall. intros s Hs.
  apply list_elem_of_filter in Hs as [Hne Hs].
  apply list_elem_of_fmap in Hs as (x & -> & _).
  apply classify_wellRouted; [done | apply trim_idempotent].
Qed.

(** Every segment of [parseTeachingContent] has a trimmed, non-empty
    content, one of the gestures emphasis, warning, pointRight and
    pointLeft, the type that goes with it, no duration, and an image query
    exactly when it is an image segment: the query extracted from its own
    content. *)
Theorem parseTeachingContent_wellRouted (text : string) :
  Forall wellRouted (parseTeachingContent text).
Proof. rewrite parseTeachingContent_spec. apply parseBySpec_wellRouted. Qed.

(** A text that is all white space gives no segment. A text with no
    terminator ([.], [!], [?]) that is not blank gives exactly one segment,
    whose content is the whole text, trimmed. *)
Theorem parseTeachingContent_unterminated :
  (∀ text, allChars isWhitespace text = true → parseTeachingContent text = [])
  ∧ (∀ text,
       allChars (λ c, negb (isTerminator c)) text = true → trim text ≠ "" →
       ∃ segment,
         parseTeachingContent text = [segment]
         ∧ content segment = trim text
         ∧ wellRouted segment).
Proof.
  split.
  - intros text Hblank. rewrite parseTeachingContent_spec. unfold parseBySpec.
    rewrite sentencesOf_unterminated by by apply blank_unterminated.
    cbn [fmap list_fmap]. unfold trim. rewrite trimStart_blank by done.
    cbn [trimEnd]. by rewrite filter_cons_False, filter_nil by naive_solver.
  - intros text Hopen Htext. exists (classify (trim text)).
    rewrite parseTeachingContent_spec. unfold parseBySpec.
    rewrite sentencesOf_unterminated by done.
    cbn [fmap list_fmap]. rewrite filter_cons_True, filter_nil by done.
    split_and!; [done | apply classify_content |].
    apply classify_wellRouted; [done | apply trim_idempotent].
Qed.

(** The theorem on a blank text and on a text without terminator. *)
Lemma parseTeachingContent_unterminated_witness :
  parseTeachingContent "  " = []
  ∧ ∃ segment,
      parseTeachingContent " see the moon " = [segment]
      ∧ content segment = trim " see the moon "
      ∧ wellRouted segment.
Proof.
  split.
  - apply (proj1 parseTeachingContent_unterminated). reflexivity.
  - apply (proj2 parseTeachingContent_unterminated).
    + reflexivity.
    + vm_compute. discriminate.
Defined.

(** *** Planning the gestures *)

Lemma planGestureSequence_loop segments : ∀ gestures,
  fold_left
    (λ gestures segment,
       match gesture segment with
       | Some g => gestures ++ [g]
       | None => gestures
       end)
    segments gestures
  = gestures ++ omap gesture segments.
Proof.
  induction segments as [|segment segments IH]; intros gestures; cbn.
  - by rewrite app_nil_r.
  - rewrite IH. destruct (gesture segment); [| done].
    by rewrite <- app_assoc.
Qed.

Lemma wellRouted_gesture segment :
  wellRouted segment → ∃ g, gesture segment = Some g ∧ g ∈ routedGestures.
Proof.
  unfold routedGestures.
  intros (_ & _ & _ & [(_ & -> & _) | [(_ & -> & _) | [(_ & -> & _) | (_ & -> & _)]]]);
    eexists; (split; [done |]); set_solver.
Qed.

(** [planGestureSequence] returns the gestures of the segments that have
    one, in order. On the segments of [parseTeachingContent] it returns one
    gesture for each segment, all of them among emphasis, warning,
    pointRight and pointLeft. *)
Theorem planGestureSequence_parsed :
  (∀ segments, planGestureSequence segments = omap gesture segments)
  ∧ (∀ text,
       Some <$> planGestureSequence (parseTeachingContent text)
       = gesture <$> parseTeachingContent text
       ∧ length (planGestureSequence (parseTeachingContent text))
         = length (parseTeachingContent text)
       ∧ Forall (λ g, g ∈ routedGestures)
           (planGestureSequence (parseTeachingContent text))).
Proof.
  assert (∀ segments, planGestureSequence segments = omap gesture segments) as Hplan.
  { intros segments. unfold planGestureSequence.
    by rewrite planGestureSequence_loop. }
  split; [done |]. intros text. rewrite Hplan.
  assert (Forall wellRouted (parseTeachingContent text)) as Hall
    by (rewrite parseTeachingContent_spec; apply parseBySpec_wellRouted).
  induction Hall as [|segment segments Hsegment Hall IH]; [done |].
  destruct (wellRouted_gesture segment Hsegment) as (g & Hg & Hrouted).
  destruct IH as (IH1 & IH2 & IH3).
  cbn. rewrite Hg. cbn. rewrite IH2.
  split_and!; [by f_equal | done | by apply Forall_cons].
Qed.

(** *** Merging keeps the text *)

Lemma concat_merge a b (rest : list string) :
  String.concat " " ((a +:+ " " +:+ b) :: rest) = String.concat " " (a :: b :: rest).
Proof.
  destruct rest as [|c rest]; [done |].
  cbn [String.concat]. by rewrite !append_assoc.
Qed.

Lemma optimizeLoop_text rest : ∀ current,
  spokenText (optimizeLoop [] current rest) = spokenText (current :: rest)
  ∧ length (optimizeLoop [] current rest) ≤ S (length rest).
Proof.
  unfold spokenText.
  induction rest as [|segment rest IH]; intros current; cbn [optimizeLoop].
  - split; [done | cbn; lia].
  - destruct (sameIntent segment current).
    + destruct (IH (mergeInto current segment)) as [Htext Hlen].
      split; [| cbn [length]; lia].
      rewrite Htext. rewrite !fmap_cons. cbn [content mergeInto].
      apply concat_merge.
    + rewrite optimizeLoop_app.
      destruct (IH segment) as [Htext Hlen].
      destruct (optimizeLoop_churnFree rest segment) as (first & others & Hloop & _).
      rewrite Hloop in Htext, Hlen |- *.
      split; [| cbn [length app] in *; lia].
      cbn [app]. rewrite !fmap_cons in *. cbn [String.concat] in *.
      by rewrite Htext.
Qed.

(** [optimizeSegments] loses no text: the contents of its result, joined
    by single spaces, are the contents of its argument joined by single
    spaces. Its result is never longer than its argument, has no two
    neighbours with the same gesture and type, and is its argument when the
    argument has no such neighbours. *)
Theorem optimizeSegments_keeps_text :
  (∀ segments,
     spokenText (optimizeSegments segments) = spokenText segments
     ∧ length (optimizeSegments segments) ≤ length segments
     ∧ churnFree (optimizeSegments segments))
  ∧ (∀ segments, churnFree segments → optimizeSegments segments = segments).
Proof.
  split.
  - intros [|first rest]; [by split_and! |]. cbn [optimizeSegments].
    destruct (optimizeLoop_text rest first) as [Htext Hlen].
    destruct (optimizeLoop_churnFree rest first) as (a & others & Hloop & _ & _ & Hfree).
    split_and!; [done | done | by rewrite Hloop].
  - intros [|first rest] Hfree; [done |]. by apply optimizeLoop_fixed.
Qed.

(** The theorem on two segments that differ in gesture. *)
Lemma optimizeSegments_keeps_text_witness :
  optimizeSegments
    [mkSegment seg_text "One." (Some pointLeft) None None;
     mkSegment seg_text "Two!" (Some warning) None None]
  = [mkSegment seg_text "One." (Some pointLeft) None None;
     mkSegment seg_text "Two!" (Some warning) None None].
Proof.
  apply (proj2 optimizeSegments_keeps_text).
  split; [reflexivity | exact I].
Defined.
End RouterFacts.

(** ** Motion mapping: further properties *)

Section MappingFacts.
Import MotionMapping.

Lemma MOTION_CONFIGS_found config :
  config ∈ MOTION_CONFIGS → getMotionConfig (name config) = Some config.
Proof.
  unfold MOTION_CONFIGS. intros Hin.
  repeat (apply elem_of_cons in Hin as [-> | Hin]; [reflexivity |]).
  by apply elem_of_nil in Hin.
Qed.

(** The catalogue is a map from clip names: no name occurs twice in
    [MOTION_CONFIGS], [getMotionConfig] finds every entry under its own
    name, and every clip name has an entry, so that [getMotionDuration]
    never takes its default: the duration of a clip is its entry's, between
    2900 and 10000 milliseconds. *)
Theorem getMotionConfig_total :
  NoDup (name <$> MOTION_CONFIGS)
  ∧ (∀ clip, ∃ config,
       getMotionConfig clip = Some config
       ∧ config ∈ MOTION_CONFIGS
       ∧ name config = clip
       ∧ getMotionConfig (name config) = Some config
       ∧ getMotionDuration clip = (cfg_duration config * 1000)%Q
       ∧ (2900 <= getMotionDuration clip)%Q
       ∧ (getMotionDuration clip <= 10000)%Q).
Proof.
  split.
  - apply (bool_decide_unpack _). by vm_compute.
  - intros clip.
    assert (∃ config, getMotionConfig clip = Some config) as [config Hfind].
    { destruct clip; by eexists. }
    destruct (found_inCatalog clip config Hfind) as (config' & Hfind' & Hin & Hname & Hduration).
    rewrite Hfind in Hfind'. injection Hfind' as <-.
    exists config. split_and!; try done.
    + by apply MOTION_CONFIGS_found.
    + destruct clip; by vm_compute.
    + destruct clip; by vm_compute.
Qed.

Lemma MOTION_MAPPING_labels g :
  g ≠ listening →
  Forall (λ clip, ∃ config, getMotionConfig clip = Some config ∧ cfg_gesture config = g)
         (MOTION_MAPPING g).
Proof.
  intros Hg. destruct g; [| done | | | | |]; cbn [MOTION_MAPPING];
    repeat (apply Forall_cons; split; [by eexists |]); apply Forall_nil_2.
Qed.

(** [getMotionForGesture] goes round the clips of the gesture: it depends
    on the index modulo their number only, returns the [k]-th clip for
    [k] below that number, and so reaches every clip of the gesture. For
    every gesture but listening (which borrows the idle clip), the clip
    returned is labelled with that gesture in the catalogue. *)
Theorem getMotionForGesture_round_robin :
  (∀ g i,
     getMotionForGesture g (i + length (MOTION_MAPPING g)) = getMotionForGesture g i
     ∧ getMotionForGesture g (i mod length (MOTION_MAPPING g))
       = getMotionForGesture g i)
  ∧ (∀ g k clip,
       MOTION_MAPPING g !! k = Some clip → getMotionForGesture g k = clip)
  ∧ (∀ g i,
       g ≠ listening →
       ∃ config,
         getMotionConfig (getMotionForGesture g i) = Some config
         ∧ cfg_gesture config = g).
Proof.
  split_and!.
  - intros g i. unfold getMotionForGesture, motionIndex. cbn zeta.
    pose proof (MOTION_MAPPING_nonempty g) as Hne.
    assert (length (MOTION_MAPPING g) ≠ 0) as Hlen by by destruct (MOTION_MAPPING g).
    rewrite Nat.Div0.mod_mod.
    replace ((i + length (MOTION_MAPPING g)) mod length (MOTION_MAPPING g))
      with (i mod length (MOTION_MAPPING g)); [done |].
    rewrite <- (Nat.Div0.add_mod_idemp_r i (length (MOTION_MAPPING g))).
    by rewrite Nat.Div0.mod_same, Nat.add_0_r.
  - intros g k clip Hk.
    pose proof (getMotionForGesture_lookup g k) as Hlookup.
    unfold motionIndex in Hlookup.
    rewrite Nat.mod_small in Hlookup by by eapply lookup_lt_Some.
    rewrite Hk in Hlookup. by injection Hlookup as ->.
  - intros g i Hg.
    pose proof (getMotionForGesture_lookup g i) as Hlookup.
    apply list_elem_of_lookup_2 in Hlookup.
    pose proof (MOTION_MAPPING_labels g Hg) as Hall.
    rewrite Forall_forall in Hall. by apply Hall.
Qed.

(** The theorem on the clips of the warning gesture. *)
Lemma getMotionForGesture_round_robin_witness :
  getMotionForGesture warning 1 = haru_g_m21
  ∧ ∃ config,
      getMotionConfig (getMotionForGesture warning 5) = Some config
      ∧ cfg_gesture config = warning.
Proof.
  split.
  - apply (proj1 (proj2 getMotionForGesture_round_robin)). reflexivity.
  - apply (proj2 (proj2 getMotionForGesture_round_robin)). discriminate.
Defined.
End MappingFacts.

(** ** The segments of a response *)

Section ResponseSegments.
Import JsString GestureRouter AIService Spec Props.

Lemma wellRouted_shape segment : wellRouted segment → routedShape segment.
Proof.
  unfold routedGestures.
  intros (Hcontent & _ & _ & Hcases). split; [done |].
  destruct Hcases as [(Ht & Hg & _) | [(Ht & Hg & _) | [(Ht & Hg & _) | (Ht & Hg & _)]]];
    eexists; (split_and!; [| exact Hg | exact Ht]); unfold routedGestures; set_solver.
Qed.

Lemma mergeInto_shape current segment :
  routedShape current → routedShape (mergeInto current segment).
Proof.
  intros (Hcontent & g & Hg & Hgesture & Htype). split.
  - cbn. by apply append_nonempty_l.
  - by exists g.
Qed.

Lemma optimizeLoop_shape rest : ∀ optimized current,
  Forall routedShape optimized → routedShape current → Forall routedShape rest →
  Forall routedShape (optimizeLoop optimized current rest).
Proof.
  induction rest as [|segment rest IH]; intros optimized current Ho Hc Hr;
    cbn [optimizeLoop].
  - apply Forall_app. split; [done | by apply Forall_singleton].
  - apply Forall_cons in Hr as [Hs Hr]. destruct (sameIntent segment current).
    + apply IH; [done | by apply mergeInto_shape | done].
    + apply IH; [| done | done].
      apply Forall_app. split; [done | by apply Forall_singleton].
Qed.

Lemma shape_sameIntent a b :
  routedShape a → routedShape b → gesture b = gesture a → sameIntent b a = true.
Proof.
  intros (_ & g & _ & Hga & Hta) (_ & g' & _ & Hgb & Htb) Heq.
  unfold sameIntent. rewrite bool_decide_eq_true_2 by done.
  rewrite Hga, Hgb in Heq. injection Heq as ->.
  by rewrite bool_decide_eq_true_2 by congruence.
Qed.

Lemma churnFree_distinct l :
  Forall routedShape l → churnFree l → distinctNeighbours (gesture <$> l).
Proof.
  induction l as [|a [|b l] IH]; intros Hall Hfree; [done | done |].
  cbn [fmap list_fmap distinctNeighbours].
  destruct Hfree as [Hdiff Hfree].
  apply Forall_cons in Hall as [Ha Hall]. pose proof Hall as Hall'.
  apply Forall_cons in Hall' as [Hb _].
  split.
  - intros Heq. rewrite (shape_sameIntent a b Ha Hb) in Hdiff; [done | by symmetry].
  - by apply IH.
Qed.

(** The segments that [query] returns for the text of a response. Every
    segment has some text and one of the gestures emphasis, warning,
    pointRight, pointLeft; no two consecutive segments have the same
    gesture, so that the avatar is never asked for the same gesture twice
    in a row within a response; the plan of gestures has one gesture for
    each segment. The texts of the segments, joined by single spaces, are
    the sentences of the response that a terminator ends, trimmed, the
    empty ones left out, joined by single spaces: the terminators before
    the first sentence and the words after the last terminator are not in
    any segment, except that a response without any such sentence is taken
    whole. *)
Theorem response_segments (aiText : string) :
  Forall routedShape (segmentsOf aiText)
  ∧ distinctNeighbours (gesture <$> segmentsOf aiText)
  ∧ length (planGestureSequence (segmentsOf aiText)) = length (segmentsOf aiText)
  ∧ ∀ lead sentences tail,
      aiText = lead +:+ concatAll sentences +:+ tail →
      terminatorsOnly lead → Forall terminated sentences → unterminated tail →
      spokenText (segmentsOf aiText)
      = String.concat " "
          (filter (λ s, s ≠ "")
             (trim <$> match sentences with [] => [aiText] | _ => sentences end)).
Proof.
  unfold segmentsOf. cbn zeta.
  assert (Forall wellRouted (parseTeachingContent aiText)) as Hall
    by (rewrite parseTeachingContent_spec; apply parseBySpec_wellRouted).
  assert (Forall routedShape (parseTeachingContent aiText)) as Hshape.
  { eapply Forall_impl; [exact Hall |]. apply wellRouted_shape. }
  assert (Forall routedShape (optimizeSegments (parseTeachingContent aiText)))
    as Hoptimized.
  { unfold optimizeSegments.
    destruct (parseTeachingContent aiText) as [|first rest]; [done |].
    apply Forall_cons in Hshape as [Hfirst Hrest].
    by apply optimizeLoop_shape. }
  assert (churnFree (optimizeSegments (parseTeachingContent aiText))) as Hfree.
  { unfold optimizeSegments.
    destruct (parseTeachingContent aiText) as [|first rest]; [done |].
    destruct (optimizeLoop_churnFree rest first) as (a & others & -> & _ & _ & Hfree).
    exact Hfree. }
  split_and!.
  - done.
  - by apply churnFree_distinct.
  - unfold planGestureSequence. rewrite planGestureSequence_loop. cbn [app].
    clear Hfree. induction Hoptimized as [|segment l (_ & g & _ & Hg & _) _ IH]; [done |].
    cbn [omap list_omap length]. rewrite Hg. cbn [length]. f_equal. exact IH.
  - intros lead sentences tail Htext Hlead Hsentences Htail.
    assert (spokenText (optimizeSegments (parseTeachingContent aiText))
            = spokenText (parseTeachingContent aiText)) as ->.
    { unfold optimizeSegments.
      destruct (parseTeachingContent aiText) as [|first rest]; [done |].
      apply optimizeLoop_text. }
    unfold spokenText. rewrite parseTeachingContent_spec. unfold parseBySpec.
    f_equal. rewrite <- list_fmap_compose.
    pose proof (sentencesOf_shape lead sentences tail Hlead Hsentences Htail) as Hkept.
    rewrite <- Htext in Hkept. rewrite Hkept.
    etransitivity; [| apply list_fmap_id].
    apply list_fmap_ext. intros i s _. apply classify_content.
Qed.

(** The theorem on a response whose last words no terminator ends. *)
Lemma response_segments_witness :
  spokenText (segmentsOf "Plants need light. They also need water")
  = String.concat " "
      (filter (λ s, s ≠ "") (trim <$> ["Plants need light."])).
Proof.
  apply (proj2 (proj2 (proj2
           (response_segments "Plants need light. They also need water")))
           "" ["Plants need light."] " They also need water").
  - reflexivity.
  - reflexivity.
  - apply Forall_singleton. exists "Plants need light", ".". by vm_compute.
  - reflexivity.
Defined.
End ResponseSegments.

(** ** Session manager: further properties *)

Section SessionFacts.
Import SessionManager Props.

Lemma concat_last sep (l : list string) x :
  ∃ before, String.concat sep (l ++ [x]) = before +:+ x.
Proof.
  induction l as [|y l [before IH]].
  - by exists "".
  - cbn [app]. destruct (l ++ [x]) as [|z l'] eqn:Hl.
    + by destruct l.
    + cbn [String.concat] in *. rewrite IH.
      exists (y +:+ sep +:+ before). by rewrite !append_assoc.
Qed.

Lemma last_drop {A} (l : list A) k : k < length l → last (drop k l) = last l.
Proof.
  revert k. induction l as [|x l IH]; intros k Hk; [cbn in Hk; lia |].
  destruct k as [|k]; [done |]. cbn [drop]. cbn [length] in Hk.
  rewrite IH by lia. destruct l; [cbn in Hk; lia | done].
Qed.

Lemma addExchange_last now id input response m :
  last (historyOf (addExchange now id input response m))
  = Some (mkExchange input response now).
Proof.
  destruct (addExchange_history now id input response m)
    as [[_ ->] | [Hlen (summary & _ & ->)]]; cbn zeta in *.
  - apply last_snoc.
  - rewrite last_cons.
    rewrite last_drop by (unfold MAX_EXCHANGES in *; lia).
    by rewrite last_snoc.
Qed.

(** The exchange just added is the last one of the history, also when the
    addition makes the manager summarise, and the text of
    [getConversationHistory] ends with it: with its user input after
    ["User: "] and its answer after ["Haru: "] on the next line. That text
    is empty exactly when there is no exchange in memory. *)
Theorem latest_exchange_is_last :
  (∀ now id input response m,
     let m' := addExchange now id input response m in
     last (historyOf m') = Some (mkExchange input response now)
     ∧ ∃ before,
         getConversationHistory m'
         = before +:+ "User: " +:+ input +:+ LF +:+ "Haru: " +:+ response)
  ∧ (∀ m, getConversationHistory m = "" ↔ getExchangeCount m = 0).
Proof.
  split.
  - intros now id input response m m'.
    pose proof (addExchange_last now id input response m) as Hlast.
    fold m' in Hlast. split; [done |].
    unfold getConversationHistory, historyOf in *.
    destruct (context m') as [ctx|]; [| done].
    destruct (exchanges ctx) as [|x l] eqn:Hx; [done |].
    rewrite <- Hx in *. apply last_Some in Hlast as [l' Hl]. rewrite Hl.
    rewrite fmap_app. cbn [fmap list_fmap].
    destruct (concat_last (LF +:+ LF) (formatExchange <$> l')
                (formatExchange (mkExchange input response now))) as [before ->].
    exists before. destruct (l' ++ [mkExchange input response now]) eqn:Hl'.
    + by destruct l'.
    + done.
  - intros m. unfold getConversationHistory, getExchangeCount.
    destruct (context m) as [ctx|]; [| done].
    destruct (exchanges ctx) as [|x l]; [done |].
    split; [| done]. intros Hempty. exfalso.
    cbn [fmap list_fmap String.concat] in Hempty.
    destruct (formatExchange <$> l); by cbn in Hempty.
Qed.

Lemma addExchange_summarises now id input response m :
  MAX_EXCHANGES ≤ getExchangeCount m →
  ∃ started,
    historyOf (addExchange now id input response m)
    = mkExchange "[Context Summary]"
        (summaryOf (getExchangeCount m + 1 - MAX_EXCHANGES)) started
      :: drop (getExchangeCount m + 1 - MAX_EXCHANGES)
           (historyOf m ++ [mkExchange input response now]).
Proof.
  rewrite getExchangeCount_history. intros Hfull.
  destruct (addExchange_context now id input response m) as (sid & started & Hctx).
  cbn zeta in Hctx. cbn [exchanges] in Hctx.
  assert (MAX_EXCHANGES < length (historyOf m ++ [mkExchange input response now]))
    as Hlen by (rewrite length_app; cbn [length]; lia).
  destruct (Nat.ltb_spec MAX_EXCHANGES
              (length (historyOf m ++ [mkExchange input response now])));
    [| lia].
  exists started. unfold historyOf at 1. rewrite Hctx.
  rewrite summarizeContext_exchanges by done. cbn [exchanges startTime].
  by rewrite length_app.
Qed.

(** What the summary says. Below ten exchanges [addExchange] appends. On
    ten exchanges it replaces the oldest one by a summary that says
    ["1 exchanges"]. On eleven (a summary and ten exchanges) it drops the
    old summary and the oldest exchange and puts a new summary that says
    ["2 exchanges"]: from then on the summary says 2, however many
    exchanges have been dropped. *)
Theorem summary_counts (now : nat) (id input response : string) (m : SessionManager) :
  let added := mkExchange input response now in
  let m' := addExchange now id input response m in
  (getExchangeCount m < 10 → historyOf m' = historyOf m ++ [added])
  ∧ (getExchangeCount m = 10 →
     ∃ started,
       historyOf m'
       = mkExchange "[Context Summary]"
           "[Earlier conversation summary: 1 exchanges about various topics]"
           started
         :: drop 1 (historyOf m) ++ [added])
  ∧ (getExchangeCount m = 11 →
     ∃ started,
       historyOf m'
       = mkExchange "[Context Summary]"
           "[Earlier conversation summary: 2 exchanges about various topics]"
           started
         :: drop 2 (historyOf m) ++ [added]).
Proof.
  intros added m'. split_and!.
  - rewrite getExchangeCount_history. intros Hlen.
    destruct (addExchange_history now id input response m)
      as [[_ Hadd] | [Hlong _]]; [done |].
    cbn zeta in Hlong. rewrite length_app in Hlong. cbn [length] in Hlong.
    unfold MAX_EXCHANGES in Hlong. lia.
  - intros Hlen.
    destruct (addExchange_summarises now id input response m) as [started Hadd];
      [unfold MAX_EXCHANGES; lia |].
    exists started. subst m'. rewrite Hadd, Hlen.
    change (10 + 1 - MAX_EXCHANGES) with 1.
    rewrite drop_app_le by (rewrite <- getExchangeCount_history; lia).
    reflexivity.
  - intros Hlen.
    destruct (addExchange_summarises now id input response m) as [started Hadd];
      [unfold MAX_EXCHANGES; lia |].
    exists started. subst m'. rewrite Hadd, Hlen.
    change (11 + 1 - MAX_EXCHANGES) with 2.
    rewrite drop_app_le by (rewrite <- getExchangeCount_history; lia).
    reflexivity.
Qed.

(** The theorem on a history of ten exchanges and on one of eleven. *)
Lemma summary_counts_witness :
  (∃ started,
     historyOf
       (addExchange 11 "session" "question" "answer"
          (mkSessionManager
             (Some (mkContext "session" (replicate 10 (mkExchange "q" "a" 1)) 0 1))
             emptyStorage))
     = mkExchange "[Context Summary]"
         "[Earlier conversation summary: 1 exchanges about various topics]"
         started
       :: drop 1
            (historyOf
               (mkSessionManager
                  (Some (mkContext "session" (replicate 10 (mkExchange "q" "a" 1)) 0 1))
                  emptyStorage))
          ++ [mkExchange "question" "answer" 11])
  ∧ (∃ started,
       historyOf
         (addExchange 12 "session" "question" "answer"
            (mkSessionManager
               (Some (mkContext "session" (replicate 11 (mkExchange "q" "a" 1)) 0 1))
               emptyStorage))
       = mkExchange "[Context Summary]"
           "[Earlier conversation summary: 2 exchanges about various topics]"
           started
         :: drop 2
              (historyOf
                 (mkSessionManager
                    (Some (mkContext "session" (replicate 11 (mkExchange "q" "a" 1)) 0 1))
                    emptyStorage))
            ++ [mkExchange "question" "answer" 12]).
Proof.
  split.
  - apply (proj1 (proj2
      (summary_counts 11 "session" "question" "answer"
         (mkSessionManager
            (Some (mkContext "session" (replicate 10 (mkExchange "q" "a" 1)) 0 1))
            emptyStorage)))).
    reflexivity.
  - apply (proj2 (proj2
      (summary_counts 12 "session" "question" "answer"
         (mkSessionManager
            (Some (mkContext "session" (replicate 11 (mkExchange "q" "a" 1)) 0 1))
            emptyStorage)))).
    reflexivity.
Defined.

(** *** Persistence *)

Lemma apply_storage m op :
  ∃ ctx,
    context (apply m op) = Some ctx
    ∧ stored (apply m op)
      = (if setItemThrows (localStorage m) then leftInStorage m op else Some ctx)
    ∧ setItemThrows (localStorage (apply m op)) = setItemThrows (localStorage m)
    ∧ getItemThrows (localStorage (apply m op)) = getItemThrows (localStorage m)
    ∧ removeItemThrows (localStorage (apply m op)) = removeItemThrows (localStorage m).
Proof.
  destruct m as [c [it sf gf rf]].
  destruct op as [now id | now id input response | now id]; cbn [apply].
  - destruct sf; by eexists.
  - unfold addExchange, initializeSession, saveToStorage, stored.
    destruct c as [c|], sf; cbn -[Nat.ltb summarizeContext MAX_EXCHANGES];
      by eexists.
  - destruct sf, rf; by eexists.
Qed.

(** After [initializeSession], [addExchange] or [clearContext] there is a
    context in memory, and [getContext] returns it. When [setItem] does
    not throw, [localStorage] holds that same context, and a manager
    created by a later load of the page gets it back from [getContext]
    provided [getItem] does not throw. When [setItem] throws, the failure
    is swallowed: the memory has the new context while the storage keeps
    what it had (or nothing after [clearContext], when [removeItem] went
    through), so that a later manager finds a context that is out of date,
    or none. A later manager whose [getItem] throws finds none. The
    mutations leave the condition of the storage as it is, and after
    [clearContext] the history in memory is empty. *)
Theorem context_persisted (m : SessionManager) (op : Mutation) :
  let m' := apply m op in
  (∃ ctx,
     context m' = Some ctx
     ∧ getContext m' = m'
     ∧ (setItemThrows (localStorage m) = false →
        stored m' = Some ctx
        ∧ (getItemThrows (localStorage m) = false →
           context (getContext (reloaded m')) = Some ctx
           ∧ historyOf (getContext (reloaded m')) = historyOf m')))
  ∧ (setItemThrows (localStorage m) = true →
     stored m' = leftInStorage m op
     ∧ (getItemThrows (localStorage m) = false →
        context (getContext (reloaded m')) = leftInStorage m op))
  ∧ (getItemThrows (localStorage m) = true →
     context (getContext (reloaded m')) = None)
  ∧ setItemThrows (localStorage m') = setItemThrows (localStorage m)
  ∧ getItemThrows (localStorage m') = getItemThrows (localStorage m)
  ∧ removeItemThrows (localStorage m') = removeItemThrows (localStorage m)
  ∧ (∀ now id, historyOf (clearContext now id m) = []).
Proof.
  intros m'. subst m'.
  destruct (apply_storage m op) as (ctx & Hctx & Hstored & Hset & Hget & Hremove).
  assert (∀ x, getItemThrows (localStorage m) = false →
               stored (apply m op) = x →
               context (getContext (reloaded (apply m op))) = x) as Hreload.
  { intros x Hread <-. unfold getContext, reloaded, loadFromStorage.
    cbn [context localStorage]. by rewrite Hget, Hread. }
  split_and!; try done.
  - exists ctx. split_and!; [done | |].
    + unfold getContext. by rewrite Hctx.
    + intros Hwrite. rewrite Hwrite in Hstored. split; [done |].
      intros Hread. pose proof (Hreload _ Hread Hstored) as Hback.
      split; [done |]. unfold historyOf. by rewrite Hback, Hctx.
  - intros Hwrite. rewrite Hwrite in Hstored. split; [done |].
    intros Hread. by apply Hreload.
  - intros Hread. unfold getContext, reloaded, loadFromStorage.
    cbn [context localStorage]. by rewrite Hget, Hread.
  - intros now id. unfold historyOf, clearContext.
    by rewrite initializeSession_context.
Qed.

(** The theorem on a first exchange, with a storage that takes the write
    and with one that is full. *)
Lemma context_persisted_witness :
  historyOf
    (getContext (reloaded (apply initial (AddExchange 1 "session" "question" "answer"))))
  = historyOf (apply initial (AddExchange 1 "session" "question" "answer"))
  ∧ context
      (getContext
         (reloaded
            (apply (mkSessionManager None (mkStorage None true false false))
                   (AddExchange 1 "session" "question" "answer"))))
    = leftInStorage (mkSessionManager None (mkStorage None true false false))
        (AddExchange 1 "session" "question" "answer").
Proof.
  split.
  - destruct (context_persisted initial (AddExchange 1 "session" "question" "answer"))
      as ((ctx & _ & _ & Hsaved) & _).
    destruct (Hsaved eq_refl) as (_ & Hback).
    exact (proj2 (Hback eq_refl)).
  - destruct (context_persisted (mkSessionManager None (mkStorage None true false false))
                (AddExchange 1 "session" "question" "answer"))
      as (_ & Hrefused & _).
    destruct (Hrefused eq_refl) as (_ & Hback).
    exact (Hback eq_refl).
Defined.
End SessionFacts.

(** ** Eye controller: further properties *)

Section EyeFacts.
Import EyeController Spec Props.

(** *** The direction and the angle written *)

Lemma gazeCoherent_write e d :
  gazeCoherent e →
  gazeCoherent
    (mkEye (model e) d (returnToCenterTimeout e) (timers e)
           (angleWrites e ++ [angleOf d])).
Proof.
  intros [_ Hall]. split; cbn.
  - by rewrite last_snoc.
  - apply Forall_app. split; [done |]. apply Forall_singleton.
    destruct d; set_solver.
Qed.

Lemma gazeCoherent_same e e' :
  currentDirection e' = currentDirection e → angleWrites e' = angleWrites e →
  gazeCoherent e → gazeCoherent e'.
Proof. unfold gazeCoherent. by intros -> ->. Qed.

Lemma scheduleReturnToCenter_same duration e :
  currentDirection (scheduleReturnToCenter duration e) = currentDirection e
  ∧ angleWrites (scheduleReturnToCenter duration e) = angleWrites e
  ∧ model (scheduleReturnToCenter duration e) = model e.
Proof. unfold scheduleReturnToCenter. by destruct (returnToCenterTimeout e). Qed.

Lemma lookLeft_coherent duration e : gazeCoherent e → gazeCoherent (lookLeft duration e).
Proof.
  intros Hc. unfold lookLeft. destruct (usable e); [| done].
  eapply gazeCoherent_same; [apply scheduleReturnToCenter_same.. |].
  apply (gazeCoherent_write e left Hc).
Qed.

Lemma lookRight_coherent duration e : gazeCoherent e → gazeCoherent (lookRight duration e).
Proof.
  intros Hc. unfold lookRight. destruct (usable e); [| done].
  eapply gazeCoherent_same; [apply scheduleReturnToCenter_same.. |].
  apply (gazeCoherent_write e right Hc).
Qed.

Lemma lookCenter_coherent e : gazeCoherent e → gazeCoherent (lookCenter e).
Proof.
  intros Hc. unfold lookCenter. destruct (usable e); [| done].
  pose proof (gazeCoherent_write e center Hc) as Hw.
  destruct (returnToCenterTimeout e); eapply gazeCoherent_same; try exact Hw; done.
Qed.

Lemma fire_coherent round : ∀ e, gazeCoherent e → gazeCoherent (fire round e).
Proof.
  induction round as [|x round IH]; intros e Hc; [done |]. cbn [fire].
  destruct (Timers.isPending _ _); [| by apply IH].
  apply IH. destruct (Timers.callback x). cbn [runCallback].
  apply lookCenter_coherent. by eapply gazeCoherent_same.
Qed.

Lemma step_coherent e ev : gazeCoherent e → gazeCoherent (step e ev).
Proof.
  intros Hc. destruct ev; cbn [step].
  - done.
  - by apply lookLeft_coherent.
  - by apply lookRight_coherent.
  - by apply lookCenter_coherent.
  - unfold destroy. by destruct (returnToCenterTimeout e).
  - unfold tick. apply fire_coherent. by eapply gazeCoherent_same.
Qed.

(** Whatever calls are made and however time passes, the direction that
    the controller reports is the one last written to the model: the last
    value written to ['ParamAngleX'] is -15 when it reports left, 15 when
    right, 0 when centre (and nothing was written yet only when it reports
    centre); no other value is ever written. *)
Theorem direction_is_last_write (events : list Event) :
  let e := run events initial in
  angleOf (currentDirection e) = default 0%Z (last (angleWrites e))
  ∧ Forall (λ a, a ∈ [(-15)%Z; 0%Z; 15%Z]) (angleWrites e).
Proof.
  cbn zeta. change (gazeCoherent (run events initial)).
  assert (gazeCoherent initial) as Hinitial by (split; [done | apply Forall_nil_2]).
  revert Hinitial. generalize initial.
  induction events as [|ev events IH]; intros e Hc; [done |].
  cbn. apply IH. by apply step_coherent.
Qed.

(** *** Without a working model *)

Lemma fire_inert round : ∀ e,
  usable e = false →
  model (fire round e) = model e
  ∧ currentDirection (fire round e) = currentDirection e
  ∧ angleWrites (fire round e) = angleWrites e
  ∧ length (Timers.pending (timers (fire round e)))
    ≤ length (Timers.pending (timers e)).
Proof.
  induction round as [|x round IH]; intros e Husable; [by split_and! |].
  cbn [fire]. destruct (Timers.isPending _ _); [| by apply IH].
  destruct (Timers.callback x). cbn [runCallback].
  set (e1 := withTimers (Timers.clearTimeout (Timers.handle x) (timers e)) e).
  assert (usable e1 = false) as Husable1 by done.
  unfold lookCenter. rewrite Husable1.
  destruct (IH e1 Husable1) as (H1 & H2 & H3 & H4).
  rewrite H1, H2, H3. split_and!; [done.. |].
  etrans; [exact H4 |]. subst e1. cbn. apply length_filter.
Qed.

Lemma step_inert e ev :
  usable e = false → attachesEyes ev = false →
  usable (step e ev) = false
  ∧ currentDirection (step e ev) = currentDirection e
  ∧ angleWrites (step e ev) = angleWrites e
  ∧ length (Timers.pending (timers (step e ev)))
    ≤ length (Timers.pending (timers e)).
Proof.
  intros Husable Hev. destruct ev; cbn [step]; [done | | | | |].
  - unfold lookLeft. rewrite Husable. by split_and!.
  - unfold lookRight. rewrite Husable. by split_and!.
  - unfold lookCenter. rewrite Husable. by split_and!.
  - unfold destroy. destruct (returnToCenterTimeout e); cbn; split_and!; try done.
    apply length_filter.
  - unfold tick.
    set (e1 := withTimers (Timers.advanceClock (timers e)) e).
    assert (usable e1 = false) as Husable1 by done.
    destruct (fire_inert (Timers.expired (timers e1)) e1 Husable1) as (H1 & H2 & H3 & H4).
    unfold usable in *. rewrite H1. by split_and!.
Qed.

(** Without a working model the controller is inert. While no model is
    attached, or the one attached does not take parameters, [lookLeft],
    [lookRight] and [lookCenter] change nothing at all; and as long as no
    model is attached anew, whatever is called and however time passes,
    nothing is written to the model, the direction reported stays what it
    was (a timer that fires does not centre it), and no timer is added.
    This is the state of a new controller and of one that was destroyed. *)
Theorem unusable_model_is_inert :
  usable initial = false
  ∧ (∀ e, usable (destroy e) = false)
  ∧ (∀ e duration,
       usable e = false →
       lookLeft duration e = e ∧ lookRight duration e = e ∧ lookCenter e = e)
  ∧ (∀ events e,
       usable e = false → Forall (λ ev, attachesEyes ev = false) events →
       angleWrites (run events e) = angleWrites e
       ∧ currentDirection (run events e) = currentDirection e
       ∧ length (Timers.pending (timers (run events e)))
         ≤ length (Timers.pending (timers e))).
Proof.
  split_and!.
  - done.
  - intros e. unfold destroy. by destruct (returnToCenterTimeout e).
  - intros e duration Husable. unfold lookLeft, lookRight, lookCenter.
    by rewrite Husable.
  - induction events as [|ev events IH]; intros e Husable Hevents; [by split_and! |].
    apply Forall_cons in Hevents as [Hev Hevents].
    destruct (step_inert e ev Husable Hev) as (H1 & H2 & H3 & H4).
    destruct (IH (step e ev) H1 Hevents) as (IH1 & IH2 & IH3).
    change (run (ev :: events) e) with (run events (step e ev)).
    rewrite IH1, IH2, H2, H3. split_and!; [done.. | lia].
Qed.

(** The theorem on a controller destroyed while it looks left: the glance
    is never taken back. *)
Lemma unusable_model_is_inert_witness :
  currentDirection
    (run [Tick; LookRight 10; Tick; LookCenter; Tick]
       (destroy (lookLeft 2 (setModel (mkModel true) initial))))
  = left.
Proof.
  destruct (proj2 (proj2 (proj2 unusable_model_is_inert))
              [Tick; LookRight 10; Tick; LookCenter; Tick]
              (destroy (lookLeft 2 (setModel (mkModel true) initial))))
    as (_ & Hdirection & _).
  - reflexivity.
  - repeat constructor.
  - exact Hdirection.
Defined.
End EyeFacts.

(** ** Realtime speech engine: further properties *)

Section EngineFacts.
Import JsString WebSpeechEngine Spec Props.

(** *** What reaches the callbacks *)

Lemma wellReported_same e e' :
  outputs e' = outputs e → wellReported e → wellReported e'.
Proof. unfold wellReported. by intros ->. Qed.

Lemma wellReported_emit o e :
  reportable o → wellReported e → wellReported (emit o e).
Proof.
  unfold wellReported. cbn. intros Ho He. apply Forall_app. split; [done |].
  by apply Forall_singleton.
Qed.

Lemma clearSilenceTimer_reported e :
  wellReported e → wellReported (clearSilenceTimer e).
Proof. apply wellReported_same, clearSilenceTimer_unchanged. Qed.

Lemma startSilenceTimer_reported e :
  wellReported e → wellReported (startSilenceTimer e).
Proof. apply wellReported_same, startSilenceTimer_unchanged. Qed.

Lemma silenceElapsed_reported e :
  wellReported e → wellReported (silenceElapsed e).
Proof.
  intros He. unfold silenceElapsed.
  destruct (isEmpty (trim (accumulatedText e))) eqn:Hblank; [done |].
  cbn [negb]. cbn zeta. cbn [endCallback withAccumulated].
  destruct (endCallback e); [| done].
  apply wellReported_emit; [| done].
  split; [by apply isEmpty_false | apply trim_idempotent].
Qed.

Lemma onresult_reported resultIndex results e :
  wellReported e → wellReported (onresult resultIndex results e).
Proof.
  intros He. unfold onresult.
  destruct (fold_left collect _ _) as [[interim final] accumulated].
  apply startSilenceTimer_reported.
  set (e1 := withAccumulated accumulated (clearSilenceTimer e)).
  assert (wellReported e1) as H1 by by apply clearSilenceTimer_reported.
  set (e2 := if negb (isEmpty interim) && transcriptCallback e1 then _ else e1).
  assert (wellReported e2) as H2.
  { subst e2. destruct (negb (isEmpty interim) && transcriptCallback e1); [| done].
    by apply wellReported_emit. }
  clearbody e2.
  destruct (negb (isEmpty final) && transcriptCallback e2); [| done].
  by apply wellReported_emit.
Qed.

Lemma onerror_reported error e : wellReported e → wellReported (onerror error e).
Proof.
  intros He. rewrite onerror_unfold.
  destruct (bool_decide (error = "no-speech")) eqn:Hno; [done |].
  apply bool_decide_eq_false in Hno. cbn zeta.
  assert (wellReported (if errorCallback e then emit (ErrorReported error) e else e))
    as Hreported.
  { destruct (errorCallback e); [| done]. by apply wellReported_emit. }
  by destruct (_ || _).
Qed.

Lemma runCallback_reported cb e : wellReported e → wellReported (runCallback cb e).
Proof.
  intros He. destruct cb; cbn [runCallback].
  - by apply silenceElapsed_reported.
  - destruct (isActive e); [| done]. unfold restart.
    eapply wellReported_same; [| by apply (wellReported_emit RecognitionStop e)].
    done.
  - destruct (isActive e); [| done]. by apply wellReported_emit.
  - by apply wellReported_emit.
Qed.

Lemma fire_reported round : ∀ e, wellReported e → wellReported (fire round e).
Proof.
  induction round as [|x round IH]; intros e He; [done |]. cbn [fire].
  destruct (Timers.isPending _ _); [| by apply IH].
  by apply IH, runCallback_reported.
Qed.

Lemma step_reported e ev : wellReported e → wellReported (step e ev).
Proof.
  intros He. destruct ev; cbn [step]; try done.
  - unfold start. destruct throws; [done |]. by apply wellReported_emit.
  - unfold stop. apply wellReported_emit; [done |].
    by apply clearSilenceTimer_reported.
  - by apply onresult_reported.
  - by apply clearSilenceTimer_reported.
  - by apply startSilenceTimer_reported.
  - by apply onerror_reported.
  - unfold onend. by destruct (isActive e).
  - unfold tick. by apply fire_reported.
Qed.

(** Whatever is called, whatever the session sends and however time
    passes, the end-of-utterance callback is only ever given a text that is
    not empty and has no white space at either end, and the error callback
    is never given ['no-speech']. *)
Theorem callbacks_get_clean_values (events : list Event) :
  let e := run events initial in
  Forall (λ t, t ≠ "" ∧ trim t = t) (utterances e)
  ∧ Forall (λ error, error ≠ "no-speech") (reportedErrors e).
Proof.
  cbn zeta.
  assert (wellReported (run events initial)) as Hall.
  { assert (wellReported initial) as Hinitial by apply Forall_nil_2.
    revert Hinitial. generalize initial.
    induction events as [|ev events IH]; intros e He; [done |].
    cbn. apply IH. by apply step_reported. }
  unfold wellReported, utterances, reportedErrors in *.
  induction Hall as [|o outs Ho Hall [IH1 IH2]]; [by split |].
  destruct o; cbn; split; try done; by apply Forall_cons.
Qed.

(** *** After [stop] *)

Lemma sessionCalls_emit_other o e :
  o ≠ RecognitionStart → o ≠ RecognitionStop →
  sessionCalls (emit o e) = sessionCalls e.
Proof.
  intros H1 H2. unfold sessionCalls. cbn [outputs emit].
  rewrite filter_app, filter_cons_False, filter_nil by tauto.
  by rewrite app_nil_r.
Qed.

Lemma sessionCalls_emit_stop e :
  sessionCalls (emit RecognitionStop e) = sessionCalls e ++ [RecognitionStop].
Proof.
  unfold sessionCalls. cbn [outputs emit].
  by rewrite filter_app, filter_cons_True, filter_nil by tauto.
Qed.

Lemma runCallback_inactive cb e :
  isActive e = false → cb ≠ StartRecognition →
  isActive (runCallback cb e) = false
  ∧ sessionCalls (runCallback cb e) = sessionCalls e
  ∧ timers (runCallback cb e) = timers e.
Proof.
  intros Hoff Hcb. destruct cb; cbn [runCallback]; rewrite ?Hoff; [| done | done | done].
  unfold silenceElapsed. destruct (negb _); [| done]. cbn zeta.
  cbn [endCallback withAccumulated]. destruct (endCallback e); [| done].
  split_and!; [done | | done].
  by rewrite sessionCalls_emit_other.
Qed.

Lemma fire_inactive round : ∀ e,
  isActive e = false →
  Forall (λ x, Timers.callback x ≠ StartRecognition) round →
  isActive (fire round e) = false
  ∧ sessionCalls (fire round e) = sessionCalls e
  ∧ ∀ x, x ∈ Timers.pending (timers (fire round e)) → x ∈ Timers.pending (timers e).
Proof.
  induction round as [|x round IH]; intros e Hoff Hround; [by split_and! |].
  apply Forall_cons in Hround as [Hx Hround]. cbn [fire].
  destruct (Timers.isPending _ _); [| by apply IH].
  set (e1 := withTimers (Timers.clearTimeout (Timers.handle x) (timers e)) e).
  destruct (runCallback_inactive (Timers.callback x) e1 Hoff Hx) as (H1 & H2 & H3).
  destruct (IH _ H1 Hround) as (IH1 & IH2 & IH3).
  split_and!; [done | by rewrite IH2, H2 |].
  intros y Hy. apply IH3 in Hy. rewrite H3 in Hy. subst e1. cbn [timers withTimers] in Hy.
  by apply elem_of_clearTimeout in Hy as [_ Hy].
Qed.

Lemma tick_inactive e :
  isActive e = false → noRestartUnderWay e →
  isActive (tick e) = false
  ∧ sessionCalls (tick e) = sessionCalls e
  ∧ noRestartUnderWay (tick e).
Proof.
  intros Hoff Hnone. unfold tick. cbn zeta.
  set (e1 := withTimers (Timers.advanceClock (timers e)) e).
  assert (Forall (λ x, Timers.callback x ≠ StartRecognition)
            (Timers.expired (timers e1))) as Hround.
  { apply Forall_forall. intros x Hx. apply elem_of_expired in Hx as [Hx _].
    unfold noRestartUnderWay in Hnone. by eapply Forall_forall in Hnone. }
  destruct (fire_inactive (Timers.expired (timers e1)) e1 Hoff Hround) as (H1 & H2 & H3).
  split_and!; [done | done |].
  apply Forall_forall. intros x Hx. apply H3 in Hx.
  unfold noRestartUnderWay in Hnone. by eapply Forall_forall in Hnone.
Qed.

Lemma silence_inactive k : ∀ e,
  isActive e = false → noRestartUnderWay e →
  sessionCalls (silence k e) = sessionCalls e.
Proof.
  induction k as [|k IH]; intros e Hoff Hnone; [done |]. cbn [silence].
  destruct (tick_inactive e Hoff Hnone) as (H1 & H2 & H3).
  by rewrite IH.
Qed.

Lemma stop_discipline e :
  engineDiscipline e →
  engineDiscipline (stop e) ∧ silenceTimers (stop e) = [].
Proof.
  intros Hd. unfold stop.
  set (e1 := withActive false e).
  assert (engineDiscipline e1) as Hd1 by done.
  destruct (clearSilenceTimer_discipline e1 Hd1) as (Hd2 & Hnone & _).
  split; [by apply emit_quiet | done].
Qed.

(** Once [stop] has been called the engine hands nothing more to the
    end-of-utterance callback: however long the silence that follows, the
    utterances reported are those reported before, the buffer is kept as it
    was, and the engine stays inactive. And unless a restart of the session
    was under way when [stop] was called, the session itself is left alone
    after the call of its [stop]: the timers set by [onend] and [onerror]
    find the engine inactive and do nothing. *)
Theorem stop_is_final (e : WebSpeechEngine) (k : nat) :
  engineDiscipline e →
  let stopped := silence k (stop e) in
  isActive stopped = false
  ∧ utterances stopped = utterances e
  ∧ accumulatedText stopped = accumulatedText e
  ∧ (noRestartUnderWay e →
     sessionCalls stopped = sessionCalls e ++ [RecognitionStop]).
Proof.
  intros Hd stopped. subst stopped.
  destruct (stop_discipline e Hd) as [Hd' Hnone].
  destruct (silence_quiet k (stop e) Hd') as [Hview _].
  { rewrite Hnone. apply Forall_nil_2. }
  apply silenceView_inv in Hview as (Htext & Hutt & _ & _ & _ & Hact & _).
  split_and!.
  - rewrite Hact. unfold stop. cbn. by destruct (clearSilenceTimer_unchanged (withActive false e)) as (_ & _ & _ & _ & -> & _).
  - rewrite Hutt. unfold stop. rewrite utterances_emit, app_nil_r.
    unfold utterances.
    by destruct (clearSilenceTimer_unchanged (withActive false e)) as (_ & -> & _).
  - rewrite Htext. unfold stop. cbn [accumulatedText emit].
    by destruct (clearSilenceTimer_unchanged (withActive false e)) as (-> & _).
  - intros Hrestart. rewrite silence_inactive.
    + unfold stop. rewrite sessionCalls_emit_stop. f_equal. unfold sessionCalls.
      by destruct (clearSilenceTimer_unchanged (withActive false e)) as (_ & -> & _).
    + unfold stop. cbn [isActive emit].
      by destruct (clearSilenceTimer_unchanged (withActive false e)) as (_ & _ & _ & _ & -> & _).
    + unfold noRestartUnderWay, stop in *. cbn [timers emit].
      unfold clearSilenceTimer. cbn [silenceTimer withActive].
      destruct (silenceTimer e) as [h|]; [| done].
      cbn [timers withSilenceTimer withTimers withActive].
      apply Forall_forall. intros x Hx.
      apply elem_of_clearTimeout in Hx as [_ Hx]. by eapply Forall_forall in Hrestart.
Qed.

(** The theorem on an engine stopped half a second after it heard a final
    result. *)
Lemma stop_is_final_witness :
  utterances
    (silence 2000
       (stop (silence 500 (onresult 0 [("hello", true)] (start false (onEnd initial))))))
  = [].
Proof.
  destruct (stop_is_final
              (silence 500 (onresult 0 [("hello", true)] (start false (onEnd initial))))
              2000) as (_ & Hutterances & _).
  - apply justHeard_quiet; [| | unfold SILENCE_THRESHOLD; lia].
    + apply onresult_effect.
      split; [split; [apply NoDup_nil_2 | apply Forall_nil_2] | apply Forall_nil_2].
    + apply onresult_justHeard.
      split; [split; [apply NoDup_nil_2 | apply Forall_nil_2] | apply Forall_nil_2].
  - rewrite Hutterances.
    destruct (justHeard_quiet 500
                (onresult 0 [("hello", true)] (start false (onEnd initial))))
      as [Hview _].
    + apply onresult_effect.
      split; [split; [apply NoDup_nil_2 | apply Forall_nil_2] | apply Forall_nil_2].
    + apply onresult_justHeard.
      split; [split; [apply NoDup_nil_2 | apply Forall_nil_2] | apply Forall_nil_2].
    + unfold SILENCE_THRESHOLD. lia.
    + apply silenceView_inv in Hview as (_ & Hutt & _). rewrite Hutt.
      reflexivity.
Defined.

(** *** Restarts of the session *)

Lemma stop_keeps_timer act tcb ecb rcb acc held now next outs
    (t : Timers.timer Callback) :
  (∀ h, held = Some h → h < Timers.handle t) →
  stop (mkEngine act tcb ecb rcb acc held (Timers.mkTable now next [t]) outs)
  = mkEngine false tcb ecb rcb acc None (Timers.mkTable now next [t])
             (outs ++ [RecognitionStop]).
Proof.
  intros Hheld. unfold stop, clearSilenceTimer.
  cbn [silenceTimer withActive isActive transcriptCallback endCallback errorCallback
       accumulatedText timers outputs].
  destruct held as [h|]; [| reflexivity].
  unfold Timers.clearTimeout.
  cbn [withTimers withSilenceTimer emit isActive transcriptCallback endCallback
       errorCallback accumulatedText silenceTimer timers outputs
       Timers.now Timers.nextHandle Timers.pending].
  rewrite filter_cons_True, filter_nil; [done |].
  specialize (Hheld h eq_refl). lia.
Qed.

(** When the session ends: on an inactive engine [onend] does nothing; on
    an active one (no other timer pending) nothing happens for 100 ms and
    then the session is started again, once. A [stop] within those 100 ms
    cancels that: the session is stopped and never started. *)
Theorem session_end_restarts (e : WebSpeechEngine) :
  Timers.pending (timers e) = [] →
  (isActive e = false → onend e = e)
  ∧ (isActive e = true →
     (∀ k, k < 100 → outputs (silence k (onend e)) = outputs e)
     ∧ (∀ k, outputs (silence (100 + k) (onend e)) = outputs e ++ [RecognitionStart])
     ∧ (heldIssued e →
        ∀ j k, j < 100 →
          outputs (silence k (stop (silence j (onend e))))
          = outputs e ++ [RecognitionStop])).
Proof.
  intros Hp. split.
  { intros Hoff. unfold onend. by rewrite Hoff. }
  intros Hon.
  destruct e as [act tcb ecb rcb acc held [now next pend] outs].
  cbn in Hp, Hon. subst pend act. unfold heldIssued.
  cbn [outputs silenceTimer timers Timers.nextHandle].
  set (t := Timers.mkTimer next (now + 100) StartIfActive).
  assert (onend (mkEngine true tcb ecb rcb acc held (Timers.mkTable now next []) outs)
          = mkEngine true tcb ecb rcb acc held (Timers.mkTable now (S next) [t]) outs)
    as -> by reflexivity.
  set (e1 := mkEngine true tcb ecb rcb acc held (Timers.mkTable now (S next) [t]) outs).
  split_and!.
  - intros k Hk. rewrite (engine_waiting k e1 t); [done | done |].
    subst e1 t. unfold Timers.now, timers, Timers.due. lia.
  - intros k. rewrite silence_add.
    rewrite (engine_fires 100 e1 t); [| lia | done | done].
    set (e2 := runCallback _ _).
    assert (e2 = mkEngine true tcb ecb rcb acc held
                   (Timers.mkTable (now + 100) (S next) []) (outs ++ [RecognitionStart]))
      as -> by reflexivity.
    by rewrite engine_idle.
  - intros Hheld j k Hj.
    rewrite (engine_waiting j e1 t); [| done |];
      [| subst e1 t; unfold Timers.now, timers, Timers.due; lia].
    assert (withTimers (Timers.elapse j (timers e1)) e1
            = mkEngine true tcb ecb rcb acc held
                (Timers.mkTable (now + j) (S next) [t]) outs) as -> by reflexivity.
    rewrite stop_keeps_timer by (intros h Hh; apply Hheld in Hh; subst t; cbn; lia).
    set (e2 := mkEngine false tcb ecb rcb acc None
                 (Timers.mkTable (now + j) (S next) [t]) (outs ++ [RecognitionStop])).
    destruct (decide (j + k < 100)) as [Hearly|Hlate].
    + rewrite (engine_waiting k e2 t); [done | done |].
      subst e2 t. unfold Timers.now, timers, Timers.due. lia.
    + replace k with ((100 - j) + (k - (100 - j))) by lia.
      rewrite silence_add.
      rewrite (engine_fires (100 - j) e2 t); [| lia | done |];
        [| subst e2 t; unfold Timers.now, timers, Timers.due; lia].
      set (e3 := runCallback _ _).
      assert (e3 = mkEngine false tcb ecb rcb acc None
                     (Timers.mkTable (now + j + (100 - j)) (S next) [])
                     (outs ++ [RecognitionStop])) as -> by reflexivity.
      by rewrite engine_idle.
Qed.

(** The theorem on an engine that was started and whose session ended. *)
Lemma session_end_restarts_witness :
  outputs (silence (100 + 5) (onend (start false initial)))
  = [RecognitionStart; RecognitionStart]
  ∧ outputs (silence 500 (stop (silence 40 (onend (start false initial)))))
    = [RecognitionStart; RecognitionStop].
Proof.
  destruct (proj2 (session_end_restarts (start false initial) eq_refl) eq_refl)
    as (_ & Hrestart & Hstop).
  split.
  - exact (Hrestart 5).
  - apply Hstop; [| lia]. intros h Hh. discriminate Hh.
Defined.

(** A restart that is under way outlives [stop]. [restart] stops the
    session and starts it again 100 ms later without looking at the engine:
    when [stop] is called in between, the session is started all the same,
    on an engine that is inactive and stays so. *)
Theorem restart_outlives_stop (e : WebSpeechEngine) (j k : nat) :
  Timers.pending (timers e) = [] → heldIssued e → j < 100 → 100 ≤ j + k →
  let stopped := silence k (stop (silence j (restart e))) in
  outputs stopped
  = outputs e ++ [RecognitionStop; RecognitionStop; RecognitionStart]
  ∧ isActive stopped = false.
Proof.
  intros Hp Hheld Hj Hk.
  destruct e as [act tcb ecb rcb acc held [now next pend] outs].
  cbn in Hp. subst pend. unfold heldIssued in Hheld.
  cbn [silenceTimer timers Timers.nextHandle] in Hheld. cbn [outputs].
  set (t := Timers.mkTimer next (now + 100) StartRecognition).
  assert (restart (mkEngine act tcb ecb rcb acc held (Timers.mkTable now next []) outs)
          = mkEngine act tcb ecb rcb acc held (Timers.mkTable now (S next) [t])
              (outs ++ [RecognitionStop]))
    as -> by reflexivity.
  set (e1 := mkEngine act tcb ecb rcb acc held (Timers.mkTable now (S next) [t])
               (outs ++ [RecognitionStop])).
  cbn zeta.
  rewrite (engine_waiting j e1 t); [| done |];
    [| subst e1 t; unfold Timers.now, timers, Timers.due; lia].
  assert (withTimers (Timers.elapse j (timers e1)) e1
          = mkEngine act tcb ecb rcb acc held
              (Timers.mkTable (now + j) (S next) [t]) (outs ++ [RecognitionStop]))
    as -> by reflexivity.
  rewrite stop_keeps_timer by (intros h Hh; apply Hheld in Hh; subst t; cbn; lia).
  set (e2 := mkEngine false tcb ecb rcb acc None
               (Timers.mkTable (now + j) (S next) [t])
               ((outs ++ [RecognitionStop]) ++ [RecognitionStop])).
  replace k with ((100 - j) + (k - (100 - j))) by lia.
  rewrite silence_add.
  rewrite (engine_fires (100 - j) e2 t); [| lia | done |];
    [| subst e2 t; unfold Timers.now, timers, Timers.due; lia].
  set (e3 := runCallback _ _).
  assert (e3 = mkEngine false tcb ecb rcb acc None
                 (Timers.mkTable (now + j + (100 - j)) (S next) [])
                 (((outs ++ [RecognitionStop]) ++ [RecognitionStop])
                  ++ [RecognitionStart])) as -> by reflexivity.
  rewrite engine_idle by done. cbn. by rewrite <- !app_assoc.
Qed.

(** The theorem on an active engine stopped 30 ms after a restart began. *)
Lemma restart_outlives_stop_witness :
  outputs (silence 100 (stop (silence 30 (restart (start false initial)))))
  = [RecognitionStart] ++ [RecognitionStop; RecognitionStop; RecognitionStart]
  ∧ isActive (silence 100 (stop (silence 30 (restart (start false initial)))))
    = false.
Proof.
  apply (restart_outlives_stop (start false initial) 30 100).
  - reflexivity.
  - intros h Hh. discriminate Hh.
  - lia.
  - lia.
Defined.

(** *** What a recognition event does to the buffer *)

Lemma collect_all results : ∀ interim final accumulated,
  fold_left collect results (interim, final, accumulated)
  = (interim +:+ interimText results, final +:+ finalText results,
     accumulated +:+ finalText results).
Proof.
  unfold interimText, finalText.
  induction results as [|[transcript isFinal] results IH];
    intros interim final accumulated.
  - cbn. by rewrite !append_nil_r.
  - cbn [fold_left collect]. destruct isFinal.
    + rewrite IH.
      rewrite (filter_cons_True (λ r : Result, r.2 = true)) by done.
      rewrite (filter_cons_False (λ r : Result, r.2 = false)) by done.
      cbn [fmap list_fmap concatAll fst]. by rewrite !append_assoc.
    + rewrite IH.
      rewrite (filter_cons_False (λ r : Result, r.2 = true)) by done.
      rewrite (filter_cons_True (λ r : Result, r.2 = false)) by done.
      cbn [fmap list_fmap concatAll fst]. by rewrite !append_assoc.
Qed.

(** A recognition event appends to the buffer the final transcripts among
    [results[resultIndex..]], each followed by a space, and never an
    interim one. When a transcript callback is registered it is called at
    most twice, in this order: with the new buffer followed by the interim
    transcripts (not final), if there is interim text; with the new buffer
    trimmed (final), if there is final text. Nothing is handed to the
    end-of-utterance callback by the event itself. *)
Theorem onresult_buffers_finals (resultIndex : nat) (results : list Result)
    (e : WebSpeechEngine) :
  let heard := drop resultIndex results in
  let buffer := accumulatedText e +:+ finalText heard in
  accumulatedText (onresult resultIndex results e) = buffer
  ∧ outputs (onresult resultIndex results e)
    = outputs e
      ++ (if negb (isEmpty (interimText heard)) && transcriptCallback e
          then [Transcript (buffer +:+ interimText heard) false] else [])
      ++ (if negb (isEmpty (finalText heard)) && transcriptCallback e
          then [Transcript (trim buffer) true] else [])
  ∧ isActive (onresult resultIndex results e) = isActive e.
Proof.
  cbn zeta. unfold onresult.
  destruct (clearSilenceTimer_unchanged e) as (Hacc & Houts & _ & Hcb & Hact & _).
  rewrite Hacc, collect_all. cbv beta iota zeta.
  change ("" +:+ finalText (drop resultIndex results))
    with (finalText (drop resultIndex results)).
  change ("" +:+ interimText (drop resultIndex results))
    with (interimText (drop resultIndex results)).
  set (interim := interimText (drop resultIndex results)).
  set (final := finalText (drop resultIndex results)).
  assert (∀ x, accumulatedText (startSilenceTimer x) = accumulatedText x) as HsA
    by (intros x; apply startSilenceTimer_unchanged).
  assert (∀ x, outputs (startSilenceTimer x) = outputs x) as HsO
    by (intros x; apply startSilenceTimer_unchanged).
  assert (∀ x, isActive (startSilenceTimer x) = isActive x) as HsI
    by (intros x; apply startSilenceTimer_unchanged).
  rewrite HsA, HsO, HsI.
  set (c := clearSilenceTimer e) in *.
  cbn [transcriptCallback withAccumulated]. rewrite Hcb.
  destruct (negb (isEmpty interim)), (transcriptCallback e) eqn:Hregistered;
    cbn [andb transcriptCallback withAccumulated emit]; rewrite ?Hcb, ?Hregistered;
    destruct (negb (isEmpty final));
    cbn [andb transcriptCallback withAccumulated emit accumulatedText outputs isActive];
    rewrite ?Houts, ?Hact, ?app_nil_r, <- ?app_assoc; done.
Qed.
End EngineFacts.

(** ** Motion manager: further properties *)

Section ManagerFacts.
Import MotionMapping MotionManager Spec Props.

(** *** Operations that leave the observed fields alone *)

Lemma coherent_same m m' :
  timers m' = timers m → returnToIdleTimeout m' = returnToIdleTimeout m →
  gestureCounter m' = gestureCounter m → gestureLog m' = gestureLog m →
  motionCalls m' = motionCalls m →
  managerCoherent m → managerCoherent m'.
Proof.
  unfold managerCoherent, timerCoherent, oneIdleTimer, countersCoherent, loopsOnlyIdle.
  by intros -> -> -> -> ->.
Qed.

Lemma isLooped_idle g counter :
  isLooped g = true ↔ getMotionForGesture g counter = haru_g_idle.
Proof.
  split.
  - destruct g; try discriminate; intros _.
    + pose proof (getMotionForGesture_mapped idle counter) as Hin.
      cbn [MOTION_MAPPING] in Hin. by apply list_elem_of_singleton in Hin.
    + pose proof (getMotionForGesture_mapped listening counter) as Hin.
      cbn [MOTION_MAPPING] in Hin. by apply list_elem_of_singleton in Hin.
  - intros Hidle. pose proof (getMotionForGesture_mapped g counter) as Hin.
    rewrite Hidle in Hin.
    destruct g; [done | done | | | | |]; exfalso; cbn [MOTION_MAPPING] in Hin;
      repeat (apply elem_of_cons in Hin as [Hin | Hin]; [discriminate Hin |]);
      by apply elem_of_nil in Hin.
Qed.

Lemma playMotion_coherent name lp o m :
  (lp = true ↔ name = haru_g_idle) →
  managerCoherent m → managerCoherent (playMotion name lp o m).
Proof.
  intros Hloop (Ht & Hc & Hl). unfold playMotion.
  destruct (model m); [| by destruct o].
  split_and!; [done | done |].
  unfold loopsOnlyIdle. cbn. apply Forall_app. split; [done |].
  by apply Forall_singleton.
Qed.

(** *** The timer *)

Lemma timerCoherent_cases m :
  timerCoherent m →
  Timers.pending (timers m) = []
  ∨ ∃ t, Timers.pending (timers m) = [t]
         ∧ returnToIdleTimeout m = Some (Timers.handle t)
         ∧ Timers.handle t < Timers.nextHandle (timers m).
Proof.
  intros [Hone Hfresh]. unfold oneIdleTimer, freshHandles in *.
  destruct (Timers.pending (timers m)) as [|t [|u l]]; [by left | | done].
  right. exists t. split_and!; [done | done |]. by apply Forall_inv in Hfresh.
Qed.

Lemma clear_held_timer m h :
  timerCoherent m → returnToIdleTimeout m = Some h →
  Timers.pending (Timers.clearTimeout h (timers m)) = [].
Proof.
  intros Hd Hheld.
  destruct (timerCoherent_cases m Hd) as [Hnone | (t & Hone & Hh & _)].
  - cbn. by rewrite Hnone.
  - cbn. rewrite Hone. rewrite Hheld in Hh. injection Hh as ->.
    by rewrite filter_cons_False, filter_nil by tauto.
Qed.

Lemma timerCoherent_cleared m (t' : Timers.table Callback) :
  Timers.pending t' = [] → timerCoherent (withTimeout None (withTimers t' m)).
Proof.
  intros Hp. split.
  - unfold oneIdleTimer. cbn [timers withTimeout withTimers]. by rewrite Hp.
  - unfold freshHandles. cbn [timers withTimeout withTimers]. rewrite Hp.
    apply Forall_nil_2.
Qed.

Lemma unschedule_coherent m :
  managerCoherent m →
  managerCoherent
    match returnToIdleTimeout m with
    | Some h => withTimeout None (withTimers (Timers.clearTimeout h (timers m)) m)
    | None => m
    end
  ∧ Timers.pending
      (timers match returnToIdleTimeout m with
              | Some h => withTimeout None (withTimers (Timers.clearTimeout h (timers m)) m)
              | None => m
              end) = [].
Proof.
  intros (Ht & Hc & Hl). destruct (returnToIdleTimeout m) as [h|] eqn:Hheld.
  - pose proof (clear_held_timer m h Ht Hheld) as Hp.
    split; [| exact Hp]. split_and!; [by apply timerCoherent_cleared | done | done].
  - split; [done |].
    destruct (timerCoherent_cases m Ht) as [Hnone | (t & _ & Hh & _)]; [done | congruence].
Qed.

Lemma scheduleReturnToIdle_coherent duration m :
  managerCoherent m → managerCoherent (scheduleReturnToIdle duration m).
Proof.
  intros (Ht & Hc & Hl). split_and!; [| done | done].
  unfold scheduleReturnToIdle.
  assert (Timers.pending
            match returnToIdleTimeout m with
            | Some h => Timers.clearTimeout h (timers m)
            | None => timers m
            end = []) as Hp.
  { destruct (returnToIdleTimeout m) as [h|] eqn:Hheld.
    - by apply (clear_held_timer m h).
    - destruct (timerCoherent_cases m Ht) as [Hnone | (t & _ & Hh & _)];
        [done | congruence]. }
  set (cleared := match returnToIdleTimeout m with
                  | Some h => Timers.clearTimeout h (timers m)
                  | None => timers m
                  end) in *.
  split.
  - unfold oneIdleTimer. cbn. by rewrite Hp.
  - unfold freshHandles. cbn. rewrite Hp. apply Forall_singleton. cbn. lia.
Qed.

Lemma motionStarted_coherent name lp m :
  managerCoherent m → managerCoherent (motionStarted name lp m).
Proof.
  intros Hm. unfold motionStarted. cbn zeta.
  assert (managerCoherent (withCurrentMotion name m)) as H1 by exact Hm.
  destruct (negb lp && _); [| done].
  by apply scheduleReturnToIdle_coherent.
Qed.

(** *** Every operation keeps the manager coherent *)

Lemma counted_coherent g m :
  managerCoherent m →
  managerCoherent
    (logGesture g
       (withCounter (<[g := default 0 (gestureCounter m !! g) + 1]> (gestureCounter m)) m)).
Proof.
  intros (Ht & Hc & Hl). split_and!; [done | | done].
  intros g'. cbn [gestureCounter gestureLog logGesture withCounter].
  rewrite filter_app, length_app.
  destruct (decide (g' = g)) as [-> | Hne].
  - rewrite lookup_insert_eq. cbn [default].
    rewrite filter_cons_True, filter_nil by done. cbn [length]. by rewrite Hc.
  - rewrite lookup_insert_ne by done.
    rewrite filter_cons_False, filter_nil by done. cbn [length]. rewrite Hc. lia.
Qed.

Lemma requestGesture_coherent g m :
  managerCoherent m → managerCoherent (requestGesture g m).
Proof.
  intros Hm. unfold requestGesture.
  destruct (isTransitioning m); [by eapply coherent_same |]. cbn zeta.
  set (m1 := withTransitioning true m).
  assert (managerCoherent m1) as H1 by exact Hm.
  destruct (unschedule_coherent m1 H1) as [H2 _].
  set (m2 := match returnToIdleTimeout m1 with
             | Some h => _
             | None => m1
             end) in *.
  pose proof (counted_coherent g m2 H2) as H3.
  apply playMotion_coherent; [apply isLooped_idle |].
  by destruct g.
Qed.

Lemma processQueue_coherent m :
  managerCoherent m → managerCoherent (processQueue m).
Proof.
  intros Hm. unfold processQueue. destruct (motionQueue m) as [|g rest]; [done |].
  destruct (isTransitioning m); [done |].
  by apply requestGesture_coherent.
Qed.

Lemma returnToIdle_coherent m :
  managerCoherent m → managerCoherent (returnToIdle m).
Proof.
  intros Hm. unfold returnToIdle. destruct (isTransitioning m); [done |].
  by apply playMotion_coherent.
Qed.

Lemma stop_coherent m : managerCoherent m → managerCoherent (stop m).
Proof.
  intros Hm. unfold stop. cbn zeta.
  set (m1 := withQueue [] m).
  assert (managerCoherent m1) as H1 by exact Hm.
  destruct (unschedule_coherent m1 H1) as [H2 _].
  apply returnToIdle_coherent. exact H2.
Qed.

Lemma resume_coherent a fulfilled m :
  managerCoherent m → managerCoherent (resume a fulfilled m).
Proof.
  intros Hm. unfold resume. cbn zeta.
  set (m1 := match awaited a with
             | MotionPromise => _
             | Resumption => m
             end).
  assert (managerCoherent m1) as H1.
  { subst m1. destruct (awaited a); [| done]. destruct fulfilled; [| done].
    by apply motionStarted_coherent. }
  destruct (owner a); [| done].
  by apply processQueue_coherent.
Qed.

Lemma settle_coherent id fulfilled m :
  managerCoherent m → managerCoherent (settle id fulfilled m).
Proof.
  intros Hm. unfold settle. destruct (List.find _ _) as [a|]; [| done].
  by apply resume_coherent.
Qed.

Lemma runCallback_coherent cb m :
  managerCoherent m → managerCoherent (runCallback cb m).
Proof.
  intros Hm. destruct cb. cbn [runCallback]. destruct (bool_decide _); [done |].
  by apply returnToIdle_coherent.
Qed.

Lemma fired_coherent h m :
  managerCoherent m →
  managerCoherent (withTimers (Timers.clearTimeout h (timers m)) m).
Proof.
  intros (Ht & Hc & Hl). split_and!; [| done | done].
  destruct (timerCoherent_cases m Ht) as [Hnone | (t & Hone & Hh & Hlt)].
  - split.
    + unfold oneIdleTimer. cbn. by rewrite Hnone.
    + unfold freshHandles. cbn. rewrite Hnone. apply Forall_nil_2.
  - destruct (decide (Timers.handle t = h)) as [Heq|Hne].
    + split.
      * unfold oneIdleTimer. cbn. rewrite Hone.
        by rewrite filter_cons_False, filter_nil by tauto.
      * unfold freshHandles. cbn. rewrite Hone.
        rewrite filter_cons_False, filter_nil by tauto. apply Forall_nil_2.
    + split.
      * unfold oneIdleTimer. cbn. rewrite Hone.
        by rewrite filter_cons_True, filter_nil by done.
      * unfold freshHandles. cbn. rewrite Hone.
        rewrite filter_cons_True, filter_nil by done. by apply Forall_singleton.
Qed.

Lemma fire_coherent_manager round : ∀ m,
  managerCoherent m → managerCoherent (fire round m).
Proof.
  induction round as [|x round IH]; intros m Hm; [done |]. cbn [fire].
  destruct (Timers.isPending _ _); [| by apply IH].
  by apply IH, runCallback_coherent, fired_coherent.
Qed.

Lemma step_coherent_manager m ev :
  managerCoherent m → managerCoherent (step m ev).
Proof.
  intros Hm. destruct ev; cbn [step].
  - unfold setModel. by apply playMotion_coherent.
  - by apply requestGesture_coherent.
  - by apply returnToIdle_coherent.
  - unfold setListening. destruct b; [by apply requestGesture_coherent |].
    destruct (bool_decide _); [| done]. by apply returnToIdle_coherent.
  - unfold setSpeaking. cbn zeta. destruct (negb b && _); [| done].
    by apply returnToIdle_coherent.
  - by apply stop_coherent.
  - unfold destroy. eapply coherent_same; [done.. |]. by apply stop_coherent.
  - by apply settle_coherent.
  - unfold tick. by apply fire_coherent_manager.
Qed.

Lemma run_coherent_manager events : ∀ m,
  managerCoherent m → managerCoherent (run events m).
Proof.
  induction events as [|ev events IH]; intros m Hm; [done |].
  cbn. by apply IH, step_coherent_manager.
Qed.

Lemma initial_coherent_manager : managerCoherent initial.
Proof.
  split_and!.
  - split; [done | apply Forall_nil_2].
  - intros g. cbn. by rewrite lookup_empty.
  - apply Forall_nil_2.
Qed.

(** Whatever is called, whatever happens to the promises of the model and
    however time passes ([stop] and [destroy] included), at most one
    return-to-idle timer is alive, and it is the one whose handle the
    manager holds. *)
Theorem single_idle_timer (events : list Event) :
  let m := run events initial in
  length (Timers.pending (timers m)) ≤ 1
  ∧ Forall (λ t, returnToIdleTimeout m = Some (Timers.handle t)
                 ∧ Timers.callback t = ReturnToIdleIfMoved)
           (Timers.pending (timers m)).
Proof.
  cbn zeta.
  destruct (run_coherent_manager events initial initial_coherent_manager) as (Ht & _).
  destruct (timerCoherent_cases _ Ht) as [-> | (t & -> & Hh & _)].
  - split; [cbn; lia | apply Forall_nil_2].
  - split; [cbn; lia |]. apply Forall_singleton.
    split; [done |]. by destruct (Timers.callback t).
Qed.

(** The counter of a gesture is the number of transitions begun for it,
    so that with a model attached the transition that begins next for a
    gesture plays the clip of that gesture numbered by the transitions
    already begun for it, modulo the number of its clips: the clips of a
    gesture are played in turn. *)
Theorem clips_played_in_turn (events : list Event) (g : GestureType) :
  let m := run events initial in
  let begun := length (filter (λ g', g' = g) (gestureLog m)) in
  default 0 (gestureCounter m !! g) = begun
  ∧ (isTransitioning m = false → is_Some (model m) →
     motionCalls (requestGesture g m)
     = motionCalls m
       ++ [(MOTION_MAPPING g !!! (begun mod length (MOTION_MAPPING g)), isLooped g)]
     ∧ length (filter (λ g', g' = g) (gestureLog (requestGesture g m))) = begun + 1).
Proof.
  cbn zeta.
  destruct (run_coherent_manager events initial initial_coherent_manager) as (_ & Hc & _).
  set (m := run events initial) in *.
  split; [apply Hc |].
  intros Hidle [x Hx].
  destruct (requestGesture_idle g m Hidle) as (w & Hreq). cbn zeta in Hreq.
  destruct Hreq as (_ & _ & Hlog & _ & _ & _ & _ & Hcalls).
  destruct (Hcalls (ex_intro _ x Hx)) as [_ Hplayed].
  rewrite Hlog, filter_app, length_app.
  rewrite filter_cons_True, filter_nil by done. split; [| done].
  rewrite Hplayed, Hc. do 3 f_equal.
  unfold getMotionForGesture. cbn zeta.
  rewrite bool_decide_eq_false_2; [done |].
  pose proof (MOTION_MAPPING_nonempty g). by destruct (MOTION_MAPPING g).
Qed.

(** The theorem on the third greeting. *)
Lemma clips_played_in_turn_witness :
  motionCalls
    (requestGesture greeting
       (run [SetModel live2DModel; RequestGesture greeting; Settle 1 true;
             RequestGesture greeting; Settle 2 true] initial))
  = motionCalls
      (run [SetModel live2DModel; RequestGesture greeting; Settle 1 true;
            RequestGesture greeting; Settle 2 true] initial)
    ++ [(MOTION_MAPPING greeting
           !!! (length
                  (filter (λ g', g' = greeting)
                     (gestureLog
                        (run [SetModel live2DModel; RequestGesture greeting;
                              Settle 1 true; RequestGesture greeting;
                              Settle 2 true] initial)))
                mod length (MOTION_MAPPING greeting)),
         isLooped greeting)].
Proof.
  apply (proj2 (clips_played_in_turn
                  [SetModel live2DModel; RequestGesture greeting; Settle 1 true;
                   RequestGesture greeting; Settle 2 true] greeting)).
  - reflexivity.
  - by eexists.
Defined.

(** The idle clip is always played looped, and no other clip ever is:
    in the calls [model.motion(name, undefined, loop ? 3 : 0)] made by the
    manager, the loop flag is set exactly when the clip is
    ['haru_g_idle']. *)
Theorem only_idle_is_looped (events : list Event) :
  Forall (λ c : MotionName * bool, c.2 = true ↔ c.1 = haru_g_idle)
         (motionCalls (run events initial)).
Proof.
  by destruct (run_coherent_manager events initial initial_coherent_manager)
    as (_ & _ & Hl).
Qed.

(** *** The passing of time *)

Lemma manager_tick_empty m :
  Timers.pending (timers m) = [] →
  tick m = withTimers (Timers.elapse 1 (timers m)) m.
Proof.
  destruct m as [md cur st tr q held cnt [now next pend] susp nxt mcalls glog].
  cbn. intros ->.
  unfold tick, withTimers, Timers.elapse, Timers.expired, Timers.advanceClock.
  cbn. do 2 f_equal. lia.
Qed.

Lemma manager_tick_waiting m t :
  Timers.pending (timers m) = [t] → S (Timers.now (timers m)) < Timers.due t →
  tick m = withTimers (Timers.elapse 1 (timers m)) m.
Proof.
  destruct m as [md cur st tr q held cnt [now next pend] susp nxt mcalls glog].
  cbn. intros -> Hlate.
  unfold tick, Timers.expired, Timers.advanceClock, Timers.elapse, withTimers.
  cbn [timers Timers.now Timers.nextHandle Timers.pending model currentMotion
       currentState isTransitioning motionQueue returnToIdleTimeout gestureCounter
       suspended nextAid motionCalls gestureLog].
  rewrite filter_cons_False, filter_nil by (cbn; lia).
  cbn [foldr fire]. do 2 f_equal. lia.
Qed.

Lemma manager_tick_fires m t :
  Timers.pending (timers m) = [t] → Timers.due t ≤ S (Timers.now (timers m)) →
  tick m
  = runCallback (Timers.callback t)
      (withTimers (Timers.mkTable (S (Timers.now (timers m)))
                                  (Timers.nextHandle (timers m)) []) m).
Proof.
  destruct m as [md cur st tr q held cnt [now next pend] susp nxt mcalls glog].
  cbn. intros -> Hdue.
  unfold tick, Timers.expired, Timers.advanceClock.
  cbn [timers withTimers Timers.now Timers.nextHandle Timers.pending].
  rewrite filter_cons_True, filter_nil by (cbn; lia).
  cbn [foldr Timers.insertByDue fire].
  unfold Timers.isPending at 1.
  cbn [timers withTimers Timers.pending existsb]. rewrite Nat.eqb_refl.
  cbn [orb]. by rewrite clearTimeout_single.
Qed.

Lemma manager_idle k : ∀ m,
  Timers.pending (timers m) = [] →
  idleFor k m = withTimers (Timers.elapse k (timers m)) m.
Proof.
  induction k as [|k IH]; intros m Hp.
  - destruct m as [md cur st tr q held cnt [now next pend] susp nxt mcalls glog].
    unfold withTimers, Timers.elapse. cbn. do 2 f_equal. lia.
  - cbn [idleFor]. rewrite manager_tick_empty by done.
    rewrite IH by done.
    destruct m as [md cur st tr q held cnt [now next pend] susp nxt mcalls glog].
    unfold withTimers, Timers.elapse. cbn. do 2 f_equal. lia.
Qed.

Lemma manager_waiting k : ∀ m t,
  Timers.pending (timers m) = [t] → Timers.now (timers m) + k < Timers.due t →
  idleFor k m = withTimers (Timers.elapse k (timers m)) m.
Proof.
  induction k as [|k IH]; intros m t Hp Hlate.
  - destruct m as [md cur st tr q held cnt [now next pend] susp nxt mcalls glog].
    unfold withTimers, Timers.elapse. cbn. do 2 f_equal. lia.
  - cbn [idleFor]. rewrite (manager_tick_waiting m t) by (done || lia).
    rewrite (IH _ t); cbn; [| done | lia].
    destruct m as [md cur st tr q held cnt [now next pend] susp nxt mcalls glog].
    unfold withTimers, Timers.elapse. cbn. do 2 f_equal. lia.
Qed.

Lemma manager_idleFor_add a b m : idleFor (a + b) m = idleFor b (idleFor a m).
Proof. revert m. induction a as [|a IH]; intros m; [done |]. cbn. apply IH. Qed.

Lemma manager_fires delay m t :
  0 < delay → Timers.pending (timers m) = [t] →
  Timers.due t = Timers.now (timers m) + delay →
  idleFor delay m
  = runCallback (Timers.callback t)
      (withTimers (Timers.mkTable (Timers.now (timers m) + delay)
                                  (Timers.nextHandle (timers m)) []) m).
Proof.
  intros Hpos Hp Hdue. destruct delay as [|k]; [lia |].
  replace (S k) with (k + 1) at 1 by lia. rewrite manager_idleFor_add.
  rewrite (manager_waiting k m t) by (done || lia).
  cbn [idleFor]. rewrite (manager_tick_fires _ t); cbn; [| done | lia].
  unfold withTimers. cbn. do 3 f_equal. lia.
Qed.

(** *** What the environment alone can do *)

Lemma manager_settle_quiet id fulfilled m :
  quiet m →
  quiet (settle id fulfilled m) ∧ motionView (settle id fulfilled m) = motionView m.
Proof.
  intros [Hp Hs]. unfold settle.
  destruct (List.find _ (suspended m)) as [a|] eqn:Hfind; [| done].
  apply find_some in Hfind as [Hin _]. apply list_elem_of_In in Hin.
  assert (idleAwaited a) as [Ho Hl] by (rewrite Forall_forall in Hs; by apply Hs).
  assert (Forall idleAwaited (filter (λ b, aid b ≠ id) (suspended m))) as Hrest.
  { apply Forall_forall. intros x Hx. apply list_elem_of_filter in Hx as [_ Hx].
    rewrite Forall_forall in Hs. by apply Hs. }
  unfold resume, motionStarted. rewrite Ho, Hl. cbn [negb andb].
  by destruct (awaited a), fulfilled.
Qed.

Lemma manager_tick_quiet m :
  quiet m → quiet (tick m) ∧ motionView (tick m) = motionView m.
Proof. intros [Hp Hs]. by rewrite manager_tick_empty. Qed.

Lemma manager_run_quiet events : ∀ m,
  Forall (λ ev, fromEnvironment ev = true) events → quiet m →
  quiet (run events m) ∧ motionView (run events m) = motionView m.
Proof.
  induction events as [|ev events IH]; intros m Hevents Hquiet; [done |].
  apply Forall_cons in Hevents as [Hev Hevents].
  change (run (ev :: events) m) with (run events (step m ev)).
  assert (quiet (step m ev) ∧ motionView (step m ev) = motionView m) as [Hq Hv].
  { destruct ev; try discriminate Hev; cbn [step].
    - by apply manager_settle_quiet.
    - by apply manager_tick_quiet. }
  destruct (IH _ Hevents Hq) as [Hq' Hv']. split; [done | congruence].
Qed.

Lemma motionView_inv m m' :
  motionView m' = motionView m →
  motionCalls m' = motionCalls m ∧ currentState m' = currentState m
  ∧ motionQueue m' = motionQueue m ∧ isTransitioning m' = isTransitioning m.
Proof. unfold motionView. intros [= -> -> -> -> _ _]. done. Qed.

(** *** [stop] *)

Lemma stop_effect m :
  timerCoherent m →
  Timers.pending (timers (stop m)) = []
  ∧ motionQueue (stop m) = [] ∧ isTransitioning (stop m) = false
  ∧ currentState (stop m) = st_idle ∧ returnToIdleTimeout (stop m) = None
  ∧ motionCalls (stop m)
    = motionCalls m ++ match model m with Some _ => [(haru_g_idle, true)] | None => [] end
  ∧ suspended (stop m)
    = suspended m
      ++ match model m with
         | Some _ => [mkActivation (nextAid m) ByOther haru_g_idle true MotionPromise]
         | None => []
         end.
Proof.
  intros Ht.
  pose proof (clear_held_timer m) as Hclear.
  destruct (timerCoherent_cases m Ht) as [Hnone | (t & Hone & Hh & _)].
  - destruct m as [md cur st tr q held cnt [now next pend] susp nxt mcalls glog].
    cbn in Hnone. subst pend.
    destruct md, held; cbn; by rewrite ?app_nil_r.
  - specialize (Hclear (Timers.handle t) Ht Hh).
    destruct m as [md cur st tr q held cnt [now next pend] susp nxt mcalls glog].
    cbn in Hone, Hh, Hclear. subst pend held.
    unfold stop.
    cbn [returnToIdleTimeout withQueue timers].
    unfold returnToIdle, playMotion.
    destruct md; cbn; cbn in Hclear; rewrite ?Hclear, ?app_nil_r; done.
Qed.

(** [stop] empties the queue, cancels the timer, clears the transition
    flag and sets the state to idle; with a model attached it asks for the
    idle clip, looped, and without one it asks for nothing. It does not
    cancel the promises that are awaited. When these are promises of the
    idle clip only (no gesture is on its way to the model), nothing can
    happen any more without a call: whichever promises settle and however
    much time passes, nothing more is asked of the model, no timer is set,
    and the state stays idle. *)
Theorem stop_clears_queue_and_timer (m : MotionManager) :
  timerCoherent m →
  let stopped := stop m in
  motionQueue stopped = []
  ∧ isTransitioning stopped = false
  ∧ currentState stopped = st_idle
  ∧ returnToIdleTimeout stopped = None
  ∧ Timers.pending (timers stopped) = []
  ∧ motionCalls stopped
    = motionCalls m ++ match model m with Some _ => [(haru_g_idle, true)] | None => [] end
  ∧ suspended stopped
    = suspended m
      ++ match model m with
         | Some _ => [mkActivation (nextAid m) ByOther haru_g_idle true MotionPromise]
         | None => []
         end
  ∧ (Forall idleAwaited (suspended m) →
     ∀ events, Forall (λ ev, fromEnvironment ev = true) events →
       motionCalls (run events stopped) = motionCalls stopped
       ∧ currentState (run events stopped) = st_idle
       ∧ motionQueue (run events stopped) = []
       ∧ isTransitioning (run events stopped) = false
       ∧ Timers.pending (timers (run events stopped)) = []).
Proof.
  intros Ht stopped. subst stopped.
  destruct (stop_effect m Ht) as (Hp & Hq & Htr & Hst & Hheld & Hcalls & Hsusp).
  split_and!; try done.
  intros Hidle events Hevents.
  assert (quiet (stop m)) as Hquiet.
  { split; [done |]. rewrite Hsusp. apply Forall_app. split; [done |].
    destruct (model m); [by apply Forall_singleton | apply Forall_nil_2]. }
  destruct (manager_run_quiet events (stop m) Hevents Hquiet) as [[Hp' _] Hv].
  apply motionView_inv in Hv as (-> & -> & -> & ->). by split_and!.
Qed.

(** The theorem on a manager stopped while a greeting is playing. *)
Lemma stop_clears_queue_and_timer_witness :
  motionCalls
    (run [Tick; Settle 2 true; Tick]
       (stop (run [SetModel live2DModel; Settle 0 true; RequestGesture greeting;
                   Settle 1 true] initial)))
  = motionCalls
      (stop (run [SetModel live2DModel; Settle 0 true; RequestGesture greeting;
                  Settle 1 true] initial)).
Proof.
  destruct (stop_clears_queue_and_timer
              (run [SetModel live2DModel; Settle 0 true; RequestGesture greeting;
                    Settle 1 true] initial))
    as (_ & _ & _ & _ & _ & _ & _ & Hquiet).
  - split; [reflexivity | vm_compute; repeat constructor].
  - destruct (Hquiet (Forall_nil_2 _) [Tick; Settle 2 true; Tick]) as (Hcalls & _).
    + repeat constructor.
    + exact Hcalls.
Defined.

(** *** One gesture, from request to idle *)

Lemma manager_find_last id (l : list Activation) a :
  Forall (λ b, aid b < id) l → aid a = id →
  List.find (λ b, aid b =? id) (l ++ [a]) = Some a.
Proof.
  intros Hl Ha. induction Hl as [|b l Hb Hl IH]; cbn.
  - by rewrite Ha, Nat.eqb_refl.
  - destruct (Nat.eqb_spec (aid b) id); [lia | exact IH].
Qed.

Lemma manager_without_last id (l : list Activation) a :
  Forall (λ b, aid b < id) l → aid a = id →
  filter (λ b, aid b ≠ id) (l ++ [a]) = l.
Proof.
  intros Hl Ha. rewrite filter_app, filter_cons_False, filter_nil by tauto.
  rewrite app_nil_r. induction Hl as [|b l Hb Hl IH]; [done |].
  rewrite filter_cons_True by lia. by rewrite IH.
Qed.

Lemma gesture_begun g m :
  atRest m → isLooped g = false →
  requestGesture g m
  = mkManager (model m) (currentMotion m) st_gesturing true [] None
      (<[g := default 0 (gestureCounter m !! g) + 1]> (gestureCounter m))
      (Timers.mkTable (Timers.now (timers m)) (Timers.nextHandle (timers m)) [])
      [mkActivation (nextAid m) ByRequestGesture (nextClip g m) false MotionPromise]
      (S (nextAid m))
      (motionCalls m ++ [(nextClip g m, false)])
      (gestureLog m ++ [g]).
Proof.
  intros ([x Hx] & Htr & Hq & Ht & Hsusp) Hloop. unfold nextClip.
  pose proof (clear_held_timer m) as Hclear.
  destruct (timerCoherent_cases m Ht) as [Hnone | (t & Hone & Hh & _)].
  - destruct m as [md cur st tr q held cnt [now next pend] susp nxt mcalls glog].
    cbn in Hx, Htr, Hq, Hnone, Hsusp. subst md tr q pend susp.
    unfold requestGesture. cbn [isTransitioning]. cbn zeta.
    destruct held, g; try discriminate Hloop; reflexivity.
  - specialize (Hclear (Timers.handle t) Ht Hh).
    destruct m as [md cur st tr q held cnt [now next pend] susp nxt mcalls glog].
    cbn in Hx, Htr, Hq, Hone, Hh, Hclear, Hsusp. subst md tr q pend held susp.
    unfold requestGesture. cbn [isTransitioning]. cbn zeta.
    cbn [returnToIdleTimeout withTransitioning timers].
    unfold Timers.clearTimeout.
    cbn [Timers.pending Timers.now Timers.nextHandle]. rewrite Hclear.
    destruct g; try discriminate Hloop; reflexivity.
Qed.

(** The request, and [n] milliseconds during which the model has not
    settled its promise. *)
Lemma gesture_awaited g m n :
  atRest m → isLooped g = false →
  idleFor n (requestGesture g m)
  = mkManager (model m) (currentMotion m) st_gesturing true [] None
      (<[g := default 0 (gestureCounter m !! g) + 1]> (gestureCounter m))
      (Timers.mkTable (Timers.now (timers m) + n) (Timers.nextHandle (timers m)) [])
      [mkActivation (nextAid m) ByRequestGesture (nextClip g m) false MotionPromise]
      (S (nextAid m))
      (motionCalls m ++ [(nextClip g m, false)])
      (gestureLog m ++ [g]).
Proof.
  intros Hrest Hloop. rewrite (gesture_begun g m Hrest Hloop).
  by rewrite manager_idle.
Qed.

Lemma nextClip_not_idle g m : isLooped g = false → nextClip g m ≠ haru_g_idle.
Proof.
  intros Hloop Hidle. apply isLooped_idle in Hidle. congruence.
Qed.

Lemma idleDelay_positive clip : 0 < idleDelay clip.
Proof. destruct clip; vm_compute; lia. Qed.

(** The manager once the model has started the clip, [n] milliseconds
    after the request. *)
Lemma gesture_playing g m n :
  atRest m → isLooped g = false →
  settle (nextAid m) true (idleFor n (requestGesture g m))
  = mkManager (model m) (nextClip g m) st_gesturing false []
      (Some (Timers.nextHandle (timers m)))
      (<[g := default 0 (gestureCounter m !! g) + 1]> (gestureCounter m))
      (Timers.mkTable (Timers.now (timers m) + n)
         (S (Timers.nextHandle (timers m)))
         [Timers.mkTimer (Timers.nextHandle (timers m))
            (Timers.now (timers m) + n + idleDelay (nextClip g m))
            ReturnToIdleIfMoved])
      [] (S (nextAid m))
      (motionCalls m ++ [(nextClip g m, false)]) (gestureLog m ++ [g]).
Proof.
  intros Hrest Hloop. rewrite (gesture_awaited g m n Hrest Hloop).
  pose proof (nextClip_not_idle g m Hloop) as Hclip.
  unfold settle. cbn [suspended List.find aid]. rewrite Nat.eqb_refl.
  rewrite filter_cons_False, filter_nil by (cbn; tauto).
  unfold resume, motionStarted.
  cbn [awaited owner motionName loop negb andb].
  by rewrite bool_decide_eq_false_2 by done.
Qed.

(** The manager when the timer of the clip fires. *)
Lemma gesture_over g m n :
  atRest m → isLooped g = false →
  idleFor (idleDelay (nextClip g m))
    (settle (nextAid m) true (idleFor n (requestGesture g m)))
  = mkManager (model m) (nextClip g m) st_idle false []
      (Some (Timers.nextHandle (timers m)))
      (<[g := default 0 (gestureCounter m !! g) + 1]> (gestureCounter m))
      (Timers.mkTable (Timers.now (timers m) + n + idleDelay (nextClip g m))
         (S (Timers.nextHandle (timers m))) [])
      [mkActivation (S (nextAid m)) ByOther haru_g_idle true MotionPromise]
      (S (S (nextAid m)))
      (motionCalls m ++ [(nextClip g m, false); (haru_g_idle, true)])
      (gestureLog m ++ [g]).
Proof.
  intros Hrest Hloop. rewrite (gesture_playing g m n Hrest Hloop).
  pose proof (nextClip_not_idle g m Hloop) as Hclip.
  destruct Hrest as ([x Hx] & _).
  erewrite manager_fires;
    [| apply idleDelay_positive | reflexivity | reflexivity].
  cbn [runCallback Timers.callback].
  unfold withTimers, returnToIdle, playMotion.
  cbn [currentMotion isTransitioning model timers Timers.now Timers.nextHandle].
  rewrite bool_decide_eq_false_2 by done. rewrite Hx.
  unfold suspend, callMotion, withCurrentState. cbn.
  by rewrite <- app_assoc.
Qed.

(** A gesture that plays. On a manager at rest with a model and with no
    promise awaited, a request for a gesture other than idle and listening
    asks the model for the next clip of the gesture, not looped. For as
    long as the model has not started the clip ([n] milliseconds) nothing
    more happens, and no promise but that of the clip can settle. When the
    model has started it, the clip is the current motion, no promise is
    awaited, and one timer is set for the duration that the catalogue
    gives the clip. Until that time nothing more is asked of the model,
    the state is gesturing and no promise can settle; at that time the
    manager asks for the idle clip, looped, and its state is idle. From then on
    nothing happens without a call, whichever promises settle and however
    much time passes. *)
Theorem gesture_returns_to_idle (g : GestureType) (m : MotionManager) (n : nat) :
  atRest m → isLooped g = false →
  let clip := nextClip g m in
  let awaiting := idleFor n (requestGesture g m) in
  let playing := settle (nextAid m) true awaiting in
  let over := idleFor (idleDelay clip) playing in
  motionCalls awaiting = motionCalls m ++ [(clip, false)]
  ∧ currentState awaiting = st_gesturing
  ∧ isTransitioning awaiting = true
  ∧ Timers.pending (timers awaiting) = []
  ∧ (∀ id fulfilled, id ≠ nextAid m → settle id fulfilled awaiting = awaiting)
  ∧ currentMotion playing = clip
  ∧ isTransitioning playing = false
  ∧ suspended playing = []
  ∧ Timers.pending (timers playing)
    = [Timers.mkTimer (Timers.nextHandle (timers m))
         (Timers.now (timers m) + n + idleDelay clip) ReturnToIdleIfMoved]
  ∧ (∀ k, k < idleDelay clip →
       motionCalls (idleFor k playing) = motionCalls m ++ [(clip, false)]
       ∧ currentState (idleFor k playing) = st_gesturing
       ∧ ∀ id fulfilled,
           settle id fulfilled (idleFor k playing) = idleFor k playing)
  ∧ motionCalls over = motionCalls m ++ [(clip, false); (haru_g_idle, true)]
  ∧ currentState over = st_idle
  ∧ (∀ events, Forall (λ ev, fromEnvironment ev = true) events →
       motionCalls (run events over) = motionCalls over
       ∧ currentState (run events over) = st_idle
       ∧ Timers.pending (timers (run events over)) = []).
Proof.
  intros Hrest Hloop clip awaiting playing over.
  pose proof (gesture_awaited g m n Hrest Hloop) as Hawaiting.
  pose proof (gesture_playing g m n Hrest Hloop) as Hplaying.
  pose proof (gesture_over g m n Hrest Hloop) as Hover.
  pose proof (idleDelay_positive (nextClip g m)) as Hdelay.
  fold clip in Hawaiting, Hplaying, Hover, Hdelay.
  fold awaiting in Hawaiting, Hplaying, Hover.
  fold playing in Hplaying, Hover. fold over in Hover.
  split_and!; try by (rewrite ?Hawaiting, ?Hplaying, ?Hover).
  - intros id fulfilled Hid. rewrite Hawaiting.
    unfold settle. cbn [suspended List.find aid].
    by destruct (Nat.eqb_spec (nextAid m) id).
  - intros k Hk.
    erewrite manager_waiting;
      [| by rewrite Hplaying | rewrite Hplaying; cbn; lia].
    by rewrite Hplaying.
  - intros events Hevents.
    assert (quiet over) as Hquiet.
    { rewrite Hover. split; [done |]. by apply Forall_singleton. }
    destruct (manager_run_quiet events over Hevents Hquiet) as [[Hp _] Hv].
    apply motionView_inv in Hv as (-> & -> & _).
    split_and!; [done | by rewrite Hover | done].
Qed.

(** The theorem on the first emphasis after the model was attached and has
    started its idle clip, when the model takes 20 ms to start the clip of
    the emphasis. *)
Lemma gesture_returns_to_idle_witness :
  motionCalls
    (idleFor (idleDelay (nextClip emphasis (settle 0 true (setModel live2DModel initial))))
       (settle 1 true
          (idleFor 20
             (requestGesture emphasis (settle 0 true (setModel live2DModel initial))))))
  = [(haru_g_idle, true)]
    ++ [(nextClip emphasis (settle 0 true (setModel live2DModel initial)), false);
        (haru_g_idle, true)].
Proof.
  destruct (gesture_returns_to_idle emphasis
              (settle 0 true (setModel live2DModel initial)) 20)
    as (_ & _ & _ & _ & _ & _ & _ & _ & _ & _ & Hcalls & _).
  - split_and!; [by eexists | reflexivity | reflexivity | | reflexivity].
    split; [exact I | apply Forall_nil_2].
  - reflexivity.
  - exact Hcalls.
Defined.

(** A gesture that fails. On a manager at rest with a model and with no
    promise awaited, when the model rejects the motion of a gesture, after
    [n] milliseconds, the current motion is not changed and no timer is
    set: the transition flag is cleared, no promise is awaited, and the
    state is gesturing. It stays so until the next call, whichever
    promises settle and however much time passes, and nothing more is
    asked of the model. *)
Theorem failed_motion_stays_gesturing (g : GestureType) (m : MotionManager)
    (n : nat) (events : list Event) :
  atRest m → isLooped g = false →
  Forall (λ ev, fromEnvironment ev = true) events →
  let failed := settle (nextAid m) false (idleFor n (requestGesture g m)) in
  suspended failed = []
  ∧ currentState (run events failed) = st_gesturing
  ∧ currentMotion failed = currentMotion m
  ∧ isTransitioning (run events failed) = false
  ∧ Timers.pending (timers (run events failed)) = []
  ∧ motionCalls (run events failed) = motionCalls m ++ [(nextClip g m, false)].
Proof.
  intros Hrest Hloop Hevents failed.
  assert (failed
          = mkManager (model m) (currentMotion m) st_gesturing false [] None
              (<[g := default 0 (gestureCounter m !! g) + 1]> (gestureCounter m))
              (Timers.mkTable (Timers.now (timers m) + n)
                 (Timers.nextHandle (timers m)) [])
              [] (S (nextAid m))
              (motionCalls m ++ [(nextClip g m, false)]) (gestureLog m ++ [g]))
    as Hfailed.
  { subst failed. rewrite (gesture_awaited g m n Hrest Hloop).
    unfold settle. cbn [suspended List.find aid]. rewrite Nat.eqb_refl.
    by rewrite filter_cons_False, filter_nil by (cbn; tauto). }
  assert (quiet failed) as Hquiet.
  { rewrite Hfailed. split; [done | apply Forall_nil_2]. }
  destruct (manager_run_quiet events failed Hevents Hquiet) as [[Hp _] Hv].
  apply motionView_inv in Hv as (-> & -> & _ & ->).
  split_and!; try done; by rewrite Hfailed.
Qed.

(** The theorem on a first emphasis that the model rejects. *)
Lemma failed_motion_stays_gesturing_witness :
  currentState
    (run [Tick; Settle 1 true; Tick]
       (settle 1 false
          (idleFor 20
             (requestGesture emphasis (settle 0 true (setModel live2DModel initial))))))
  = st_gesturing.
Proof.
  destruct (failed_motion_stays_gesturing emphasis
              (settle 0 true (setModel live2DModel initial)) 20
              [Tick; Settle 1 true; Tick])
    as (_ & Hstate & _).
  - split_and!; [by eexists | reflexivity | reflexivity | | reflexivity].
    split; [exact I | apply Forall_nil_2].
  - reflexivity.
  - repeat constructor.
  - exact Hstate.
Defined.

(** *** A transition in flight when [stop] is called *)

Lemma stopped_in_flight g m :
  atRest m → isLooped g = false →
  stop (requestGesture g m)
  = mkManager (model m) (currentMotion m) st_idle false [] None
      (<[g := default 0 (gestureCounter m !! g) + 1]> (gestureCounter m))
      (Timers.mkTable (Timers.now (timers m)) (Timers.nextHandle (timers m)) [])
      [mkActivation (nextAid m) ByRequestGesture (nextClip g m) false MotionPromise;
       mkActivation (S (nextAid m)) ByOther haru_g_idle true MotionPromise]
      (S (S (nextAid m)))
      (motionCalls m ++ [(nextClip g m, false); (haru_g_idle, true)])
      (gestureLog m ++ [g]).
Proof.
  intros Hrest Hloop. rewrite (gesture_begun g m Hrest Hloop).
  destruct Hrest as ([x Hx] & _).
  unfold stop, returnToIdle, playMotion. cbn. rewrite Hx.
  unfold suspend, callMotion, withCurrentState. cbn.
  by rewrite <- app_assoc.
Qed.

Lemma resumed_after_stop g m :
  atRest m → isLooped g = false →
  settle (nextAid m) true (stop (requestGesture g m))
  = mkManager (model m) (nextClip g m) st_idle false []
      (Some (Timers.nextHandle (timers m)))
      (<[g := default 0 (gestureCounter m !! g) + 1]> (gestureCounter m))
      (Timers.mkTable (Timers.now (timers m)) (S (Timers.nextHandle (timers m)))
         [Timers.mkTimer (Timers.nextHandle (timers m))
            (Timers.now (timers m) + idleDelay (nextClip g m)) ReturnToIdleIfMoved])
      [mkActivation (S (nextAid m)) ByOther haru_g_idle true MotionPromise]
      (S (S (nextAid m)))
      (motionCalls m ++ [(nextClip g m, false); (haru_g_idle, true)])
      (gestureLog m ++ [g]).
Proof.
  intros Hrest Hloop. rewrite (stopped_in_flight g m Hrest Hloop).
  pose proof (nextClip_not_idle g m Hloop) as Hclip.
  unfold settle. cbn [suspended List.find aid]. rewrite Nat.eqb_refl.
  rewrite filter_cons_False by (cbn; tauto).
  rewrite filter_cons_True by (cbn; lia). rewrite filter_nil.
  unfold resume, motionStarted.
  cbn [awaited owner motionName loop negb andb].
  by rewrite bool_decide_eq_false_2 by done.
Qed.

(** [stop] does not cancel a transition that is in flight. When it is
    called after a request for a gesture whose motion the model has not
    started yet, the state is idle and no timer is left, but the promise
    of the motion is still awaited. When the model then fulfils it, the
    clip becomes the current motion and a timer is set for its duration,
    in a manager whose state is idle; when the timer fires the manager
    asks the model for the idle clip once more, with no call from a
    client. It does not when the model has meanwhile fulfilled the promise
    of the idle clip that [stop] asked for: the current motion is then the
    idle clip, and the timer does nothing. *)
Theorem stop_spares_motion_in_flight (g : GestureType) (m : MotionManager) :
  atRest m → isLooped g = false →
  let clip := nextClip g m in
  let stopped := stop (requestGesture g m) in
  let resumed := settle (nextAid m) true stopped in
  currentState stopped = st_idle
  ∧ Timers.pending (timers stopped) = []
  ∧ motionCalls stopped = motionCalls m ++ [(clip, false); (haru_g_idle, true)]
  ∧ suspended stopped
    = [mkActivation (nextAid m) ByRequestGesture clip false MotionPromise;
       mkActivation (S (nextAid m)) ByOther haru_g_idle true MotionPromise]
  ∧ currentMotion resumed = clip
  ∧ currentState resumed = st_idle
  ∧ Timers.pending (timers resumed)
    = [Timers.mkTimer (Timers.nextHandle (timers m))
         (Timers.now (timers m) + idleDelay clip) ReturnToIdleIfMoved]
  ∧ (∀ k, k < idleDelay clip →
       motionCalls (idleFor k resumed) = motionCalls stopped)
  ∧ motionCalls (idleFor (idleDelay clip) resumed)
    = motionCalls stopped ++ [(haru_g_idle, true)]
  ∧ motionCalls (idleFor (idleDelay clip) (settle (S (nextAid m)) true resumed))
    = motionCalls stopped.
Proof.
  intros Hrest Hloop clip stopped resumed.
  pose proof (stopped_in_flight g m Hrest Hloop) as Hstopped.
  pose proof (resumed_after_stop g m Hrest Hloop) as Hresumed.
  pose proof (nextClip_not_idle g m Hloop) as Hclip.
  pose proof (idleDelay_positive (nextClip g m)) as Hdelay.
  destruct Hrest as ([x Hx] & _).
  fold clip in Hstopped, Hresumed, Hclip, Hdelay.
  fold stopped in Hstopped, Hresumed. fold resumed in Hresumed.
  split_and!; try by (rewrite ?Hstopped, ?Hresumed).
  - intros k Hk.
    erewrite manager_waiting;
      [| by rewrite Hresumed | rewrite Hresumed; cbn; lia].
    by rewrite Hresumed, Hstopped.
  - erewrite manager_fires;
      [| done | by rewrite Hresumed | by rewrite Hresumed].
    rewrite Hresumed, Hstopped. cbn [runCallback Timers.callback].
    unfold withTimers, returnToIdle, playMotion.
    cbn [currentMotion isTransitioning model].
    rewrite bool_decide_eq_false_2 by done. by rewrite Hx.
  - rewrite Hresumed, Hstopped.
    unfold settle. cbn [suspended List.find aid].
    rewrite Nat.eqb_refl. rewrite filter_cons_False, filter_nil by (cbn; tauto).
    unfold resume, motionStarted. cbn [awaited owner motionName loop negb andb].
    erewrite manager_fires; [| done | reflexivity | reflexivity].
    cbn [runCallback Timers.callback]. unfold withTimers.
    cbn [currentMotion]. by rewrite bool_decide_eq_true_2 by done.
Qed.

(** The theorem on an emphasis requested and stopped before the model has
    started its clip. *)
Lemma stop_spares_motion_in_flight_witness :
  motionCalls
    (idleFor (idleDelay (nextClip emphasis (settle 0 true (setModel live2DModel initial))))
       (settle 1 true
          (stop (requestGesture emphasis (settle 0 true (setModel live2DModel initial))))))
  = motionCalls
      (stop (requestGesture emphasis (settle 0 true (setModel live2DModel initial))))
    ++ [(haru_g_idle, true)].
Proof.
  destruct (stop_spares_motion_in_flight emphasis
              (settle 0 true (setModel live2DModel initial)))
    as (_ & _ & _ & _ & _ & _ & _ & _ & Hcalls & _).
  - split_and!; [by eexists | reflexivity | reflexivity | | reflexivity].
    split; [exact I | apply Forall_nil_2].
  - reflexivity.
  - exact Hcalls.
Defined.

(** *** Without a model *)

Lemma silent_same m m' :
  model m' = model m → motionCalls m' = motionCalls m →
  model m = None → model m' = None ∧ motionCalls m' = motionCalls m.
Proof. by intros -> ->. Qed.

Lemma playMotion_silent name lp o m :
  model m = None →
  model (playMotion name lp o m) = None
  ∧ motionCalls (playMotion name lp o m) = motionCalls m.
Proof. intros Hm. unfold playMotion. rewrite Hm. by destruct o. Qed.

Lemma motionStarted_silent name lp m :
  model m = None →
  model (motionStarted name lp m) = None
  ∧ motionCalls (motionStarted name lp m) = motionCalls m.
Proof.
  intros Hm. destruct (motionStarted_effect name lp m) as (_ & _ & _ & _ & _ & _ & Hc & Hmd).
  by rewrite Hc, Hmd.
Qed.

Lemma requestGesture_silent g m :
  model m = None →
  model (requestGesture g m) = None
  ∧ motionCalls (requestGesture g m) = motionCalls m.
Proof.
  intros Hm. unfold requestGesture. destruct (isTransitioning m); [done |]. cbn zeta.
  set (m5 := match g with idle => _ | _ => _ end).
  assert (model m5 = None ∧ motionCalls m5 = motionCalls m) as [H5 H5'].
  { subst m5. destruct (returnToIdleTimeout (withTransitioning true m)), g; by cbn. }
  destruct (playMotion_silent
              (getMotionForGesture g
                 (default 0
                    (gestureCounter
                       match returnToIdleTimeout (withTransitioning true m) with
                       | Some h =>
                           withTimeout None
                             (withTimers
                                (Timers.clearTimeout h (timers (withTransitioning true m)))
                                (withTransitioning true m))
                       | None => withTransitioning true m
                       end !! g)))
              (isLooped g) ByRequestGesture m5 H5) as [H6 H6'].
  by rewrite H6, H6'.
Qed.

Lemma returnToIdle_silent m :
  model m = None →
  model (returnToIdle m) = None ∧ motionCalls (returnToIdle m) = motionCalls m.
Proof.
  intros Hm. unfold returnToIdle. destruct (isTransitioning m); [done |].
  by apply (playMotion_silent haru_g_idle true ByOther (withCurrentState st_idle m)).
Qed.

Lemma processQueue_silent m :
  model m = None →
  model (processQueue m) = None ∧ motionCalls (processQueue m) = motionCalls m.
Proof.
  intros Hm. unfold processQueue. destruct (motionQueue m) as [|g rest]; [done |].
  destruct (isTransitioning m); [done |].
  by apply (requestGesture_silent g (withQueue rest m)).
Qed.

Lemma stop_silent m :
  model m = None → model (stop m) = None ∧ motionCalls (stop m) = motionCalls m.
Proof.
  intros Hm. unfold stop. cbn zeta.
  set (m2 := withTransitioning false _).
  assert (model m2 = None ∧ motionCalls m2 = motionCalls m) as [H2 H2'].
  { subst m2. by destruct (returnToIdleTimeout (withQueue [] m)). }
  destruct (returnToIdle_silent m2 H2) as [H3 H3']. by rewrite H3, H3'.
Qed.

Lemma resume_silent a fulfilled m :
  model m = None →
  model (resume a fulfilled m) = None
  ∧ motionCalls (resume a fulfilled m) = motionCalls m.
Proof.
  intros Hm. unfold resume. cbn zeta.
  set (m1 := match awaited a with MotionPromise => _ | Resumption => m end).
  assert (model m1 = None ∧ motionCalls m1 = motionCalls m) as [H1 H1'].
  { subst m1. destruct (awaited a); [| done]. destruct fulfilled; [| done].
    by apply motionStarted_silent. }
  destruct (owner a); [| done].
  destruct (processQueue_silent (withTransitioning false m1) H1) as [H2 H2'].
  by rewrite H2, H2'.
Qed.

Lemma fire_silent round : ∀ m,
  model m = None →
  model (fire round m) = None ∧ motionCalls (fire round m) = motionCalls m.
Proof.
  induction round as [|x round IH]; intros m Hm; [done |]. cbn [fire].
  destruct (Timers.isPending _ _); [| by apply IH].
  set (m1 := withTimers _ m).
  assert (model (runCallback (Timers.callback x) m1) = None
          ∧ motionCalls (runCallback (Timers.callback x) m1) = motionCalls m)
    as [H1 H1'].
  { destruct (Timers.callback x). cbn [runCallback].
    destruct (bool_decide _); [done |]. by apply (returnToIdle_silent m1). }
  destruct (IH _ H1) as [H2 H2']. by rewrite H2, H2'.
Qed.

Lemma step_silent m ev :
  model m = None → attachesMotion ev = false →
  model (step m ev) = None ∧ motionCalls (step m ev) = motionCalls m.
Proof.
  intros Hm Hev. destruct ev; try discriminate Hev; cbn [step].
  - by apply requestGesture_silent.
  - by apply returnToIdle_silent.
  - unfold setListening. destruct b; [by apply requestGesture_silent |].
    destruct (bool_decide _); [| done]. by apply returnToIdle_silent.
  - unfold setSpeaking. cbn zeta. destruct (negb b && _); [| done].
    by apply (returnToIdle_silent (withCurrentState _ m)).
  - by apply stop_silent.
  - unfold destroy. destruct (stop_silent m Hm) as [_ H2]. by split.
  - unfold settle. destruct (List.find _ _) as [a|]; [| done].
    by apply (resume_silent a fulfilled (withSuspended _ m)).
  - unfold tick. by apply (fire_silent _ (withTimers _ m)).
Qed.

(** Without a model nothing is asked of the model. A new manager has no
    model and a destroyed one has none; and from a manager without model,
    as long as no model is attached, whatever is called, whatever promises
    are settled and however time passes, no call of [model.motion] is
    made. *)
Theorem no_model_no_motion :
  model initial = None
  ∧ (∀ m, model (destroy m) = None)
  ∧ (∀ events m,
       model m = None → Forall (λ ev, attachesMotion ev = false) events →
       motionCalls (run events m) = motionCalls m
       ∧ model (run events m) = None).
Proof.
  split_and!; [done | done |].
  induction events as [|ev events IH]; intros m Hm Hevents; [done |].
  apply Forall_cons in Hevents as [Hev Hevents].
  destruct (step_silent m ev Hm Hev) as [H1 H1'].
  destruct (IH (step m ev) H1 Hevents) as [H2 H2'].
  change (run (ev :: events) m) with (run events (step m ev)).
  by rewrite H2, H2'.
Qed.

(** The theorem on a manager destroyed while a greeting was in transition. *)
Lemma no_model_no_motion_witness :
  motionCalls
    (run [Settle 1 true; RequestGesture emphasis; Tick; Settle 3 true; ReturnToIdle]
       (destroy (run [SetModel live2DModel; RequestGesture greeting] initial)))
  = motionCalls (destroy (run [SetModel live2DModel; RequestGesture greeting] initial)).
Proof.
  destruct (proj2 (proj2 no_model_no_motion)
              [Settle 1 true; RequestGesture emphasis; Tick; Settle 3 true; ReturnToIdle]
              (destroy (run [SetModel live2DModel; RequestGesture greeting] initial)))
    as [Hcalls _].
  - reflexivity.
  - repeat constructor.
  - exact Hcalls.
Defined.
End ManagerFacts.

(** ** Synchronization coordinator: further properties *)

Section Delays.
Import SynchronizationCoordinator PrimFloat.

(** The delay after a gesture is computed on doubles: for a segment of
    nine words it is 3599.9999999999995 ms, which is not 3600 ms, and for a
    segment of up to five words it is the minimum, 2000 ms. *)
Lemma waitTime_nine_words :
  waitTime (mkSegment seg_text "a b c d e f g h i" (Some pointLeft) None None)
  = 0x1.c1fffffffffffp+11%float
  ∧ 0x1.c1fffffffffffp+11%float ≠ 3600%float
  ∧ waitTime (mkSegment seg_text "a b c d e" (Some pointLeft) None None)
    = 2000%float.
Proof. split_and!; [reflexivity | discriminate | reflexivity]. Qed.
End Delays.

Section CoordinatorFacts.
Import SynchronizationCoordinator Spec Props.

(** *** Requests are started at most once, in order *)

Lemma control_inv c (b : bool) q l n st :
  control c = (b, q, l, n, st) →
  isExecuting c = b ∧ eventQueue c = q ∧ suspended c = l ∧ nextAid c = n
  ∧ started c = st.
Proof. unfold control. intros H. by injection H. Qed.

Lemma taken_control c c' : control c' = control c → taken c' = taken c.
Proof.
  intros Hc. apply control_inv in Hc as (_ & Hq & _ & _ & Hs).
  unfold taken. by rewrite Hq, Hs.
Qed.

Lemma resume_taken a result c c' :
  resume a result c = Some c' → taken c' = taken c.
Proof.
  intros Hresume. apply resume_control in Hresume as [[_ [p Hc]] | [_ Hc]].
  - apply control_inv in Hc as (_ & Hq & _ & _ & Hs).
    unfold taken. by rewrite Hq, Hs.
  - unfold completed in Hc. unfold taken.
    destruct (eventQueue c) as [|next rest];
      apply control_inv in Hc as (_ & Hq & _ & _ & Hs); rewrite Hq, Hs;
      [by rewrite app_nil_r | by rewrite <- app_assoc].
Qed.

Lemma settle_taken id result c : taken (settle id result c) = taken c.
Proof.
  unfold settle. destruct (List.find _ _) as [a|]; [| done].
  destruct (resume a result _) as [c'|] eqn:Hresume; [| done].
  by apply resume_taken in Hresume.
Qed.

Lemma settleGesture_taken id c : taken (settleGesture id c) = taken c.
Proof.
  unfold settleGesture. destruct (List.find _ _) as [a|]; [| done].
  destruct (point a) as [| |[task|]|task| |]; try done.
  - pose proof (resumeGestures_control task (withSuspended (without id (suspended c)) c))
      as Hresume.
    destruct (resumeGestures task _) as [c1 gestures]. cbn [fst] in Hresume.
    apply control_inv in Hresume as (_ & Hq & _ & _ & Hs).
    unfold taken. cbn. by rewrite Hq, Hs.
  - pose proof (resumeGestures_control task (withSuspended (without id (suspended c)) c))
      as Hresume.
    destruct (resumeGestures task _) as [c1 [task'|]]; cbn [fst] in Hresume;
      apply control_inv in Hresume as (_ & Hq & _ & _ & Hs);
      unfold taken; cbn; by rewrite Hq, Hs.
Qed.

Lemma idleEmpty_control c c' :
  isExecuting c' = isExecuting c → eventQueue c' = eventQueue c →
  idleEmpty c → idleEmpty c'.
Proof. unfold idleEmpty. by intros -> ->. Qed.

Lemma resume_idleEmpty a result c c' :
  resume a result c = Some c' → idleEmpty c → idleEmpty c'.
Proof.
  intros Hresume Hc. apply resume_control in Hresume as [[_ [p Hc']] | [_ Hc']].
  - apply control_inv in Hc' as (Hb & Hq & _).
    by apply (idleEmpty_control c).
  - unfold completed in Hc'. unfold idleEmpty.
    destruct (eventQueue c) as [|next rest];
      apply control_inv in Hc' as (Hb & Hq & _); rewrite Hb, Hq; done.
Qed.

Lemma step_requested c e :
  idleEmpty c →
  idleEmpty (step c e)
  ∧ taken (step c e) `sublist_of` taken c ++ submittedBy e.
Proof.
  intros Hidle.
  destruct e as [ev| |id result|id|k]; cbn [step submittedBy]; rewrite ?app_nil_r.
  - destruct (isExecuting c) eqn:Hbusy.
    + rewrite executeTeachingSequence_busy by done. split.
      * unfold idleEmpty. cbn. by rewrite Hbusy.
      * unfold taken. cbn. by rewrite app_assoc.
    + destruct (executeTeachingSequence_idle ev c Hbusy) as (Hb & Hq & _ & _ & Hs & _).
      split; [unfold idleEmpty; by rewrite Hb |].
      unfold taken. rewrite Hq, Hs, (Hidle Hbusy). by rewrite !app_nil_r.
  - split; [done |]. unfold taken. cbn. rewrite app_nil_r. by apply sublist_inserts_r.
  - rewrite settle_taken. split; [| done].
    unfold settle. destruct (List.find _ _) as [a|]; [| done].
    destruct (resume a result _) as [c'|] eqn:Hresume; [| done].
    by apply resume_idleEmpty in Hresume.
  - rewrite settleGesture_taken. split; [| done].
    unfold settleGesture. destruct (List.find _ _) as [a|]; [| done].
    destruct (point a) as [| |[task|]|task| |]; try done.
    + pose proof (resumeGestures_control task
                    (withSuspended (without id (suspended c)) c)) as Hresume.
      destruct (resumeGestures task _) as [c1 gestures]. cbn [fst] in Hresume.
      apply control_inv in Hresume as (Hb & Hq & _).
      by apply (idleEmpty_control c).
    + pose proof (resumeGestures_control task
                    (withSuspended (without id (suspended c)) c)) as Hresume.
      destruct (resumeGestures task _) as [c1 [task'|]]; cbn [fst] in Hresume;
        apply control_inv in Hresume as (Hb & Hq & _);
        by apply (idleEmpty_control c).
  - pose proof (settleOrphan_control k c) as Hc.
    rewrite (taken_control c _ Hc). split; [| done].
    apply control_inv in Hc as (Hb & Hq & _). by apply (idleEmpty_control c).
Qed.

Lemma run_requested events :
  idleEmpty (run events initial)
  ∧ taken (run events initial) `sublist_of` submitted events.
Proof.
  induction events as [|e events [IHidle IH]] using rev_ind; [done |].
  unfold run, submitted. rewrite fold_left_app, bind_app. cbn [fold_left].
  destruct (step_requested (run events initial) e IHidle) as [Hidle Hstep].
  split; [done |]. etrans; [exact Hstep |].
  apply sublist_app; [exact IH |]. cbn. by rewrite app_nil_r.
Qed.

(** In every history, interruptions included, the requests whose sequence
    has started, followed by those that wait in the queue, are requests
    that were made, in the order in which they were made, none of them
    twice: the coordinator starts nothing that was not asked for, starts no
    request twice, and never starts a request before an older one that it
    still holds. And nothing waits in the queue while the coordinator is
    not executing. *)
Theorem started_were_requested (events : list Event) :
  started (run events initial) ++ eventQueue (run events initial)
  `sublist_of` submitted events
  ∧ (isExecuting (run events initial) = true ∨ eventQueue (run events initial) = []).
Proof.
  destruct (run_requested events) as [Hidle Htaken]. split; [done |].
  unfold idleEmpty in Hidle.
  destruct (isExecuting (run events initial)); [by left | right; by apply Hidle].
Qed.

(** *** The gesture sequence *)

Lemma frame_refl c : frame c c.
Proof. by split_and!. Qed.

Lemma frame_trans c1 c2 c3 : frame c1 c2 → frame c2 c3 → frame c1 c3.
Proof.
  unfold frame. intros (H1 & H2 & H3 & H4 & H5 & H6) (K1 & K2 & K3 & K4 & K5 & K6).
  split_and!; congruence.
Qed.

Lemma gestureScript_cons segment rest :
  gestureScript (segment :: rest)
  = match gesture segment with
    | Some g => [RequestGesture g; Delay (waitTime segment)]
    | None => []
    end ++ gestureScript rest.
Proof. reflexivity. Qed.

Lemma gestureLoop_script segs : ∀ i c,
  calls (gestureLoop i segs c).1 = calls c ++ take 1 (gestureScript segs)
  ∧ pendingCalls (gestureLoop i segs c).2 = drop 1 (gestureScript segs)
  ∧ ((gestureLoop i segs c).2 = None ↔ gestureScript segs = [])
  ∧ suspended (gestureLoop i segs c).1 = suspended c
  ∧ frame c (gestureLoop i segs c).1.
Proof.
  induction segs as [|segment rest IH]; intros i c.
  - cbn. rewrite app_nil_r. split_and!; (done || apply frame_refl).
  - rewrite gestureScript_cons. cbn [gestureLoop].
    destruct (gesture segment) as [g|] eqn:Hg.
    + cbn. rewrite ?Hg. split_and!; (done || apply frame_refl).
    + cbn [app]. destruct (IH (S i) (withSegmentIndex i c)) as (H1 & H2 & H3 & H4 & H5).
      rewrite H1, H2, H4. by split_and!.
Qed.

Lemma resumeGestures_script task c :
  calls (resumeGestures task c).1 = calls c ++ take 1 (pendingCalls (Some task))
  ∧ pendingCalls (resumeGestures task c).2 = drop 1 (pendingCalls (Some task))
  ∧ ((resumeGestures task c).2 = None ↔ pendingCalls (Some task) = [])
  ∧ suspended (resumeGestures task c).1 = suspended c
  ∧ frame c (resumeGestures task c).1.
Proof.
  unfold resumeGestures. cbn [pendingCalls].
  destruct (remaining task) as [|segment rest] eqn:Hremaining.
  - cbn. rewrite app_nil_r. split_and!; (done || apply frame_refl).
  - destruct (gpoint task) eqn:Hpoint.
    + cbn. rewrite ?Hremaining. split_and!; (done || apply frame_refl).
    + apply gestureLoop_script.
Qed.

Lemma awaits_resumed task c :
  awaits (resumeGestures task c).2 = awaits (Some task) - 1.
Proof.
  destruct (resumeGestures_script task c) as (_ & Hpending & Hnone & _).
  destruct (resumeGestures task c).2 as [task'|] eqn:Hresumed.
  - unfold awaits. rewrite Hpending, length_drop.
    destruct (pendingCalls (Some task)) as [|k l] eqn:Hp.
    + exfalso. rewrite ?Hp in Hnone. by specialize (proj2 Hnone eq_refl).
    + cbn [length]. lia.
  - unfold awaits. by rewrite (proj1 Hnone eq_refl).
Qed.

Lemma settleGesture_last id c l a :
  suspended c = l ++ [a] → Forall (λ b, aid b < id) l → aid a = id →
  settleGesture id c
  = match point a with
    | AtPlayAudio (Some task) =>
        let '(c1, gestures) := resumeGestures task (withSuspended l c) in
        withSuspended
          (suspended c1 ++ [mkActivation id (event a) (AtPlayAudio gestures)]) c1
    | AtGesturePromise task =>
        let '(c1, gestures) := resumeGestures task (withSuspended l c) in
        match gestures with
        | Some task' =>
            withSuspended
              (suspended c1 ++ [mkActivation id (event a) (AtGesturePromise task')]) c1
        | None => startReturnToIdle id (event a) c1
        end
    | _ => c
    end.
Proof.
  intros Hs Hl Ha. unfold settleGesture.
  by rewrite Hs, find_last, without_last.
Qed.

Lemma take_step {A} k (p : list A) : take 1 p ++ take k (drop 1 p) = take (S k) p.
Proof. by destruct p, k. Qed.

Lemma run_replicate_S n e c :
  run (replicate (S n) e) c = run (replicate n e) (step c e).
Proof. reflexivity. Qed.

(** The gesture sequence while the audio plays. *)
Lemma gestures_while_playing k : ∀ c l id ev t,
  suspended c = l ++ [mkActivation id ev (AtPlayAudio t)] →
  Forall (λ b, aid b < id) l → k ≤ awaits t →
  ∃ t',
    suspended (run (replicate k (SettleGesture id)) c)
    = l ++ [mkActivation id ev (AtPlayAudio t')]
    ∧ calls (run (replicate k (SettleGesture id)) c)
      = calls c ++ take k (pendingCalls t)
    ∧ pendingCalls t' = drop k (pendingCalls t)
    ∧ awaits t' = awaits t - k
    ∧ frame c (run (replicate k (SettleGesture id)) c).
Proof.
  induction k as [|k IH]; intros c l id ev t Hs Hl Hk.
  - exists t. cbn. rewrite app_nil_r, Nat.sub_0_r.
    split_and!; (done || apply frame_refl).
  - destruct t as [task|]; [| cbn in Hk; lia].
    rewrite run_replicate_S. cbn [step].
    rewrite (settleGesture_last id c l _ Hs Hl eq_refl). cbn [point event].
    destruct (resumeGestures_script task (withSuspended l c))
      as (Hcalls & Hpending & _ & Hsusp & Hframe).
    pose proof (awaits_resumed task (withSuspended l c)) as Hawaits.
    destruct (resumeGestures task (withSuspended l c)) as [c1 gestures].
    cbn [fst snd] in *.
    set (c2 := withSuspended _ c1).
    destruct (IH c2 l id ev gestures) as (t' & H1 & H2 & H3 & H4 & H5);
      [by subst c2; cbn; rewrite Hsusp | done | lia |].
    exists t'. rewrite H1, H2, H3, H4. subst c2. cbn [calls withSuspended].
    rewrite Hcalls, Hpending. cbn [calls withSuspended].
    rewrite <- app_assoc, take_step, drop_drop.
    split_and!; [done | done | done | lia |].
    eapply frame_trans; [| exact H5]. exact Hframe.
Qed.

(** The gesture sequence once the audio has ended. *)
Lemma gestures_after_audio n : ∀ c l id ev task,
  suspended c = l ++ [mkActivation id ev (AtGesturePromise task)] →
  Forall (λ b, aid b < id) l → n = awaits (Some task) →
  suspended (run (replicate n (SettleGesture id)) c)
  = l ++ [mkActivation id ev AtReturnToIdle]
  ∧ calls (run (replicate n (SettleGesture id)) c)
    = calls c ++ pendingCalls (Some task) ++ [MotionReturnToIdle]
  ∧ frame c (run (replicate n (SettleGesture id)) c).
Proof.
  induction n as [|n IH]; intros c l id ev task Hs Hl Hn; [done |].
  rewrite run_replicate_S. cbn [step].
  rewrite (settleGesture_last id c l _ Hs Hl eq_refl). cbn [point event].
  destruct (resumeGestures_script task (withSuspended l c))
    as (Hcalls & Hpending & Hnone & Hsusp & Hframe).
  pose proof (awaits_resumed task (withSuspended l c)) as Hawaits.
  destruct (resumeGestures task (withSuspended l c)) as [c1 [task'|]].
  - cbn [fst snd] in *. set (c2 := withSuspended _ c1).
    destruct (IH c2 l id ev task') as (H1 & H2 & H3);
      [by subst c2; cbn; rewrite Hsusp | done | lia |].
    rewrite H1, H2. subst c2. cbn [calls withSuspended]. rewrite Hcalls, Hpending.
    cbn [calls withSuspended]. rewrite <- !app_assoc.
    split_and!; [done | |].
    + f_equal. rewrite app_assoc. f_equal.
      by destruct (pendingCalls (Some task)).
    + eapply frame_trans; [| exact H3]. exact Hframe.
  - cbn [fst snd] in *.
    assert (n = 0) as -> by (unfold awaits in Hawaits, Hn; lia).
    cbn [replicate run fold_left].
    rewrite (proj1 Hnone eq_refl) in *. cbn [take app] in Hcalls.
    unfold startReturnToIdle, suspend. cbn. rewrite Hsusp, Hcalls.
    cbn. rewrite app_nil_r.
    split_and!; [done | done |].
    destruct Hframe as (F1 & F2 & F3 & F4 & F5 & F6). by split_and!.
Qed.

(** *** The phases of a sequence that succeeds *)

Lemma startPlayback_effect id ev url c :
  ∃ t,
    suspended (startPlayback id ev url c)
    = suspended c ++ [mkActivation id ev (AtPlayAudio t)]
    ∧ pendingCalls t = drop 1 (gestureScript (segments ev))
    ∧ awaits t = length (gestureScript (segments ev))
    ∧ calls (startPlayback id ev url c)
      = calls c ++ take 1 (gestureScript (segments ev))
        ++ [SetSpeaking true; LookRight 5000; PlayAudio url]
    ∧ isExecuting (startPlayback id ev url c) = isExecuting c
    ∧ eventQueue (startPlayback id ev url c) = eventQueue c
    ∧ leftPanelContent (store (startPlayback id ev url c)) = leftPanelContent (store c)
    ∧ isSpeaking (store (startPlayback id ev url c)) = true.
Proof.
  unfold startPlayback.
  destruct (gestureLoop_script (segments ev) 0 c)
    as (Hcalls & Hpending & Hnone & Hsusp & (F1 & F2 & F3 & _)).
  destruct (gestureLoop 0 (segments ev) c) as [c1 t]. cbn [fst snd] in *.
  exists t. cbn. rewrite Hsusp, Hcalls, F1, F2, F3, <- !app_assoc.
  split_and!; try done.
  unfold awaits. destruct t as [task|].
  - rewrite Hpending, length_drop.
    destruct (gestureScript (segments ev)) as [|k l] eqn:Hscript.
    + by specialize (proj2 Hnone eq_refl).
    + cbn [length]. lia.
  - by rewrite (proj1 Hnone eq_refl).
Qed.

Lemma phase_synthesized id ev url c l p :
  suspended c = l ++ [mkActivation id ev p] → Forall (λ b, aid b < id) l →
  p = AtTextToSpeech ∨ p = AtRetry →
  ∃ t,
    suspended (settle id (Some url) c) = l ++ [mkActivation id ev (AtPlayAudio t)]
    ∧ pendingCalls t = drop 1 (gestureScript (segments ev))
    ∧ awaits t = length (gestureScript (segments ev))
    ∧ calls (settle id (Some url) c)
      = calls c ++ take 1 (gestureScript (segments ev))
        ++ [SetSpeaking true; LookRight 5000; PlayAudio url]
    ∧ isExecuting (settle id (Some url) c) = isExecuting c
    ∧ eventQueue (settle id (Some url) c) = eventQueue c
    ∧ leftPanelContent (store (settle id (Some url) c)) = leftPanelContent (store c)
    ∧ isSpeaking (store (settle id (Some url) c)) = true.
Proof.
  intros Hs Hl Hp. rewrite (settle_last id (Some url) c l _ Hs Hl eq_refl).
  assert (resume (mkActivation id ev p) (Some url) (withSuspended l c)
          = Some (startPlayback id ev url (withSuspended l c))) as ->
    by (by destruct Hp as [-> | ->]).
  apply (startPlayback_effect id ev url (withSuspended l c)).
Qed.

Lemma phase_audio_ended id played c l ev t :
  suspended c = l ++ [mkActivation id ev (AtPlayAudio t)] →
  Forall (λ b, aid b < id) l →
  let c' := run (Settle id (Some played) :: replicate (awaits t) (SettleGesture id)) c in
  suspended c' = l ++ [mkActivation id ev AtReturnToIdle]
  ∧ calls c' = calls c ++ [SetSpeaking false] ++ pendingCalls t ++ [MotionReturnToIdle]
  ∧ isExecuting c' = isExecuting c
  ∧ eventQueue c' = eventQueue c
  ∧ leftPanelContent (store c') = leftPanelContent (store c)
  ∧ isSpeaking (store c') = false.
Proof.
  intros Hs Hl c'. subst c'.
  change (run (Settle id (Some played) :: ?l) c)
    with (run l (settle id (Some played) c)).
  rewrite (settle_last id (Some played) c l _ Hs Hl eq_refl).
  destruct t as [task|].
  - cbn [resume point event aid].
    set (c1 := suspend id ev (AtGesturePromise task) _).
    destruct (gestures_after_audio (awaits (Some task)) c1 l id ev task)
      as (H1 & H2 & (F1 & F2 & F3 & _)); [done.. |].
    rewrite H1, H2, F1, F2, F3. subst c1. cbn. by rewrite <- !app_assoc.
  - cbn. by rewrite <- !app_assoc.
Qed.

Lemma phase_finished id returned c l ev :
  suspended c = l ++ [mkActivation id ev AtReturnToIdle] →
  Forall (λ b, aid b < id) l → eventQueue c = [] →
  let c' := settle id (Some returned) c in
  suspended c' = l
  ∧ calls c' = calls c ++ [LookCenter; SetIsTeaching false]
  ∧ isExecuting c' = false
  ∧ isTeaching (store c') = false
  ∧ isSpeaking (store c') = isSpeaking (store c)
  ∧ leftPanelContent (store c') = leftPanelContent (store c).
Proof.
  intros Hs Hl Hq c'. subst c'.
  rewrite (settle_last id (Some returned) c l _ Hs Hl eq_refl).
  destruct c as [executing queue i s susp orph n ks st]. cbn in Hq. subst queue.
  cbn. by rewrite <- !app_assoc.
Qed.

(** A return to idle that is rejected leads to the [catch] block. *)
Lemma phase_return_rejected id c l ev :
  suspended c = l ++ [mkActivation id ev AtReturnToIdle] →
  Forall (λ b, aid b < id) l →
  let c' := settle id None c in
  suspended c' = l ++ [mkActivation id ev AtReturnToIdleInCatch]
  ∧ calls c' = calls c ++ [SetSpeaking false; MotionReturnToIdle]
  ∧ isExecuting c' = isExecuting c
  ∧ isTeaching (store c') = isTeaching (store c)
  ∧ isSpeaking (store c') = false
  ∧ leftPanelContent (store c') = leftPanelContent (store c).
Proof.
  intros Hs Hl c'. subst c'.
  rewrite (settle_last id None c l _ Hs Hl eq_refl).
  destruct c as [executing queue i s susp orph n ks st].
  cbn. by rewrite <- !app_assoc.
Qed.

Lemma run_app a b c : run (a ++ b) c = run b (run a c).
Proof. apply fold_left_app. Qed.

Lemma executeTeachingSequence_text ev c :
  isExecuting c = false →
  leftPanelContent (store (executeTeachingSequence ev c)) = fullText ev.
Proof.
  intros Hidle. unfold executeTeachingSequence. rewrite Hidle.
  by destruct (images ev).
Qed.

(** A teaching sequence whose synthesis and audio succeed, whatever the
    order in which the audio and the gestures end. From a coordinator
    that is not executing: the text is shown (and the images, with a
    glance to the left); the speech is synthesized, at the first attempt
    or at the second; the first gesture is requested, speaking is set, the
    eyes turn right and the audio starts; the gesture sequence goes on
    beside the audio, each gesture followed by its delay, in the order of
    the segments; when the audio ends speaking is cleared, whether
    gestures remain or not; when both have ended, and not before, the
    motion manager is asked to return to idle. When that call is
    fulfilled the eyes return to the centre and teaching and executing are
    cleared. When it is rejected the [catch] block runs instead: speaking
    is cleared, the return to idle is asked again, and the sequence is
    still executing, suspended at that second call. [k] is the number of
    promises of the gesture sequence settled before the audio ends. *)
Theorem teaching_sequence_succeeds (ev : SynchronizationEvent) (c : Coordinator)
    (url played : string) (returned : option string) (retried : bool) (k : nat) :
  isExecuting c = false → eventQueue c = [] → wellNumbered c →
  let id := nextAid c in
  let script := gestureScript (segments ev) in
  k ≤ length script →
  let final :=
    run ((if retried then [Settle id None] else [])
         ++ [Settle id (Some url)]
         ++ replicate k (SettleGesture id)
         ++ [Settle id (Some played)]
         ++ replicate (length script - k) (SettleGesture id)
         ++ [Settle id returned])
        (executeTeachingSequence ev c) in
  callsSince c final
  = publish ev
    ++ (if retried then [TextToSpeech (fullText ev)] else [])
    ++ [TextToSpeech (fullText ev)]
    ++ take 1 script
    ++ [SetSpeaking true; LookRight 5000; PlayAudio url]
    ++ take k (drop 1 script)
    ++ [SetSpeaking false]
    ++ drop k (drop 1 script)
    ++ [MotionReturnToIdle]
    ++ match returned with
       | Some _ => [LookCenter; SetIsTeaching false]
       | None => [SetSpeaking false; MotionReturnToIdle]
       end
  ∧ isSpeaking (store final) = false
  ∧ leftPanelContent (store final) = fullText ev
  ∧ match returned with
    | Some _ =>
        isExecuting final = false
        ∧ isTeaching (store final) = false
        ∧ suspended final = suspended c
    | None =>
        isExecuting final = true
        ∧ suspended final = suspended c ++ [mkActivation id ev AtReturnToIdleInCatch]
    end.
Proof.
  intros Hidle Hqueue Hn id script Hk final. unfold wellNumbered in Hn.
  destruct (executeTeachingSequence_idle ev c Hidle)
    as (E1 & E2 & E3 & _ & _ & _ & E7 & _).
  pose proof (executeTeachingSequence_text ev c Hidle) as E10.
  set (s0 := executeTeachingSequence ev c) in *.
  set (sA := run (if retried then [Settle id None] else []) s0).
  assert (suspended sA
          = suspended c
            ++ [mkActivation id ev (if retried then AtRetry else AtTextToSpeech)]
          ∧ calls sA
            = calls c ++ publish ev
              ++ (if retried then [TextToSpeech (fullText ev)] else [])
              ++ [TextToSpeech (fullText ev)]
          ∧ isExecuting sA = true ∧ eventQueue sA = []
          ∧ leftPanelContent (store sA) = fullText ev)
    as (A1 & A2 & A3 & A4 & A5).
  { subst sA. destruct retried.
    - cbn [run fold_left step].
      rewrite (settle_last id None s0 (suspended c) _ E3 Hn eq_refl).
      cbn [resume point event aid]. cbn. rewrite E7, E1, E2, Hqueue, E10.
      rewrite <- !app_assoc. by split_and!.
    - cbn [run fold_left]. rewrite E3, E7, E1, E2, Hqueue, E10. by split_and!. }
  destruct (phase_synthesized id ev url sA (suspended c)
              (if retried then AtRetry else AtTextToSpeech) A1 Hn)
    as (t & B1 & B2 & B3 & B4 & B5 & B6 & B7 & B8);
    [by destruct retried; [right | left] |].
  set (s1 := settle id (Some url) sA) in *.
  destruct (gestures_while_playing k s1 (suspended c) id ev t B1 Hn)
    as (t' & C1 & C2 & C3 & C4 & (C5 & C6 & C7 & _)); [fold script in B3; lia |].
  set (s2 := run (replicate k (SettleGesture id)) s1) in *.
  destruct (phase_audio_ended id played s2 (suspended c) ev t' C1 Hn)
    as (D1 & D2 & D3 & D4 & D5 & D6).
  set (s4 := run (Settle id (Some played) :: replicate (awaits t') (SettleGesture id)) s2)
    in *.
  assert (final = settle id returned s4) as ->.
  { subst final s4 s2 s1 sA. rewrite !run_app.
    rewrite C4, B3. fold script. reflexivity. }
  destruct returned as [returned|].
  - destruct (phase_finished id returned s4 (suspended c) ev D1 Hn)
      as (F1 & F2 & F3 & F4 & F5 & F6).
    { by rewrite D4, C6, B6. }
    split_and!.
    + apply callsSince_app. rewrite F2, D2, C2, B4, A2, C3, B2. fold script.
      by rewrite <- !app_assoc.
    + by rewrite F5.
    + by rewrite F6, D5, C7, B7.
    + done.
    + done.
    + done.
  - destruct (phase_return_rejected id s4 (suspended c) ev D1 Hn)
      as (F1 & F2 & F3 & F4 & F5 & F6).
    split_and!.
    + apply callsSince_app. rewrite F2, D2, C2, B4, A2, C3, B2. fold script.
      by rewrite <- !app_assoc.
    + done.
    + by rewrite F6, D5, C7, B7.
    + by rewrite F3, D3, C5, B5.
    + done.
Qed.

(** The theorem on a text with one emphasised sentence, whose synthesis
    succeeds at the second attempt and whose audio ends during the delay
    of the gesture. *)
Lemma teaching_sequence_succeeds_witness :
  isExecuting
    (run [Settle 0 None; Settle 0 (Some "speech.mp3"); SettleGesture 0;
          Settle 0 (Some ""); SettleGesture 0; Settle 0 (Some "")]
       (executeTeachingSequence
          (mkEvent [mkSegment seg_emphasis "Remember this." (Some emphasis) None None]
                   "Remember this." [])
          initial))
  = false.
Proof.
  destruct (teaching_sequence_succeeds
              (mkEvent [mkSegment seg_emphasis "Remember this." (Some emphasis) None None]
                       "Remember this." [])
              initial "speech.mp3" "" (Some "") true 1)
    as (_ & _ & _ & Hdone & _).
  - reflexivity.
  - reflexivity.
  - constructor.
  - cbn. lia.
  - exact Hdone.
Defined.

(** *** Interruption *)

(** [interrupt] stops the audio and the motion, centres the eyes, empties
    the queue and clears the executing, speaking and teaching flags; it
    leaves the suspended sequence where it is. A sequence interrupted
    while it awaits its synthesis therefore goes on when the synthesis
    returns: it requests its first gesture, sets speaking and plays its
    audio, on a coordinator that is not executing. *)
Theorem interrupt_does_not_cancel :
  (∀ c,
     isExecuting (interrupt c) = false
     ∧ eventQueue (interrupt c) = []
     ∧ isSpeaking (store (interrupt c)) = false
     ∧ isTeaching (store (interrupt c)) = false
     ∧ suspended (interrupt c) = suspended c
     ∧ callsSince c (interrupt c)
       = [StopAudio; MotionStop; LookCenter; SetSpeaking false; SetIsTeaching false])
  ∧ (∀ c l a url,
       suspended c = l ++ [a] → Forall (λ b, aid b < aid a) l →
       point a = AtTextToSpeech ∨ point a = AtRetry →
       let resumed := settle (aid a) (Some url) (interrupt c) in
       callsSince (interrupt c) resumed
       = take 1 (gestureScript (segments (event a)))
         ++ [SetSpeaking true; LookRight 5000; PlayAudio url]
       ∧ isSpeaking (store resumed) = true
       ∧ isExecuting resumed = false).
Proof.
  split.
  - intros c. split_and!; try done.
    apply callsSince_app. unfold interrupt. cbn. by rewrite <- !app_assoc.
  - intros c l [id ev p] url Hs Hl Hp resumed. cbn [aid point event] in *.
    destruct (phase_synthesized id ev url (interrupt c) l p Hs Hl Hp)
      as (t & _ & _ & _ & Hcalls & Hexecuting & _ & _ & Hspeaking).
    fold resumed in Hcalls, Hexecuting, Hspeaking.
    split_and!; [by apply callsSince_app | done | done].
Qed.

(** The theorem on a sequence interrupted while its speech is synthesized. *)
Lemma interrupt_does_not_cancel_witness :
  callsSince
    (interrupt (executeTeachingSequence (mkEvent [] "Hello." []) initial))
    (settle 0 (Some "hello.mp3")
       (interrupt (executeTeachingSequence (mkEvent [] "Hello." []) initial)))
  = take 1 (gestureScript [])
    ++ [SetSpeaking true; LookRight 5000; PlayAudio "hello.mp3"].
Proof.
  destruct (proj2 interrupt_does_not_cancel
              (executeTeachingSequence (mkEvent [] "Hello." []) initial)
              [] (mkActivation 0 (mkEvent [] "Hello." []) AtTextToSpeech) "hello.mp3")
    as (Hcalls & _).
  - reflexivity.
  - constructor.
  - by left.
  - exact Hcalls.
Defined.
End CoordinatorFacts.

(** ** Greeting detection *)

Section GreetingFacts.
Import JsString GreetingDetector.

Lemma lowerChar_idempotent c : lowerChar (lowerChar c) = lowerChar c.
Proof. by destruct c as [[] [] [] [] [] [] [] []]. Qed.

Lemma lowerChar_whitespace c : isWhitespace (lowerChar c) = isWhitespace c.
Proof. by destruct c as [[] [] [] [] [] [] [] []]. Qed.

Lemma toLowerCase_idempotent s : toLowerCase (toLowerCase s) = toLowerCase s.
Proof.
  induction s as [|c s IH]; [done |]. cbn [toLowerCase].
  by rewrite lowerChar_idempotent, IH.
Qed.

Lemma toLowerCase_trimStart s : trimStart (toLowerCase s) = toLowerCase (trimStart s).
Proof.
  induction s as [|c s IH]; [done |]. cbn [toLowerCase trimStart].
  rewrite lowerChar_whitespace. by destruct (isWhitespace c).
Qed.

Lemma toLowerCase_trimEnd s : trimEnd (toLowerCase s) = toLowerCase (trimEnd s).
Proof.
  induction s as [|c s IH]; [done |]. cbn [toLowerCase trimEnd].
  rewrite IH, lowerChar_whitespace.
  destruct (trimEnd s); [by destruct (isWhitespace c) | done].
Qed.

Lemma toLowerCase_trim s : trim (toLowerCase s) = toLowerCase (trim s).
Proof. unfold trim. by rewrite toLowerCase_trimStart, toLowerCase_trimEnd. Qed.

(** What the two tests look at. *)
Lemma normal_form_lower text :
  toLowerCase (trim (toLowerCase text)) = toLowerCase (trim text).
Proof. by rewrite toLowerCase_trim, toLowerCase_idempotent. Qed.

Lemma normal_form_trim text :
  toLowerCase (trim (trim text)) = toLowerCase (trim text).
Proof. by rewrite trim_idempotent. Qed.

Lemma prefix_refl s : String.prefix s s = true.
Proof.
  induction s as [|c s IH]; [done |]. cbn. by destruct (ascii_dec c c).
Qed.

Lemma trimEnd_keeps_prefix p : ∀ rest,
  trimEnd p = p → String.prefix p (trimEnd (p +:+ rest)) = true.
Proof.
  induction p as [|c p IH]; intros rest Hfixed.
  { by destruct (trimEnd ("" +:+ rest)). }
  change (String c p +:+ rest) with (String c (p +:+ rest)).
  cbn [trimEnd] in Hfixed |- *.
  destruct (trimEnd p) as [|d t] eqn:Hp.
  - destruct (isWhitespace c); [done |]. injection Hfixed as <-.
    change ("" +:+ rest) with rest.
    destruct (trimEnd rest); cbn [String.prefix]; by destruct (ascii_dec c c).
  - injection Hfixed as Hfixed. specialize (IH rest Hfixed).
    destruct (trimEnd (p +:+ rest)) as [|e u] eqn:Hrest.
    + by rewrite <- Hfixed in IH.
    + cbn [String.prefix]. by destruct (ascii_dec c c).
Qed.

Lemma prefix_toLowerCase p : ∀ s,
  String.prefix p s = true → String.prefix (toLowerCase p) (toLowerCase s) = true.
Proof.
  induction p as [|c p IH]; intros [|d s] Hprefix; try done.
  cbn [String.prefix toLowerCase] in *.
  destruct (ascii_dec c d) as [-> |]; [| done].
  destruct (ascii_dec (lowerChar d) (lowerChar d)); [by apply IH | done].
Qed.

Lemma phrase_prefix phrase rest :
  phrase ∈ greetingPhrases →
  String.prefix phrase (toLowerCase (trim (phrase +:+ rest))) = true.
Proof.
  intros Hphrase.
  assert (trimStart (phrase +:+ rest) = phrase +:+ rest
          ∧ trimEnd phrase = phrase ∧ toLowerCase phrase = phrase)
    as (Hstart & Hend & Hlower).
  { unfold greetingPhrases in Hphrase.
    repeat (apply elem_of_cons in Hphrase as [-> | Hphrase]; [done |]).
    by apply elem_of_nil in Hphrase. }
  unfold trim. rewrite Hstart, <- Hlower at 1.
  apply prefix_toLowerCase. by apply trimEnd_keeps_prefix.
Qed.

(** Whether an input is answered by the local greeting depends neither on
    the case of its letters nor on the white space around it, and an input
    that begins with one of the greeting phrases is taken for a greeting
    whatever follows the phrase. *)
Theorem greeting_detection (text : string) :
  shouldWave (toLowerCase text) = shouldWave text
  ∧ shouldWave (trim text) = shouldWave text
  ∧ ∀ phrase rest, phrase ∈ greetingPhrases → shouldWave (phrase +:+ rest) = true.
Proof.
  unfold shouldWave, isGreeting, isGreetingPhrase. cbn zeta. split_and!.
  - by rewrite normal_form_lower.
  - by rewrite normal_form_trim.
  - intros phrase rest Hphrase. apply orb_true_iff. right.
    apply existsb_exists. exists phrase. split.
    + by apply list_elem_of_In.
    + by apply phrase_prefix.
Qed.

(** The theorem at a question that begins with a greeting phrase. *)
Lemma greeting_detection_witness :
  shouldWave ("good morning" +:+ ", what is a loop?") = true.
Proof.
  apply (proj2 (proj2 (greeting_detection ""))
           "good morning" ", what is a loop?").
  unfold greetingPhrases. set_solver.
Defined.
End GreetingFacts.
